(** * Quai multisig frontend: real-time synchronisation core

    A shallow embedding of the TypeScript sources
      - [frontend/src/hooks/useMultisig.ts]
          ([LRUMap], [queueCacheUpdate], the notification effects and the
          subscription merge processors),
      - [frontend/src/services/indexer/SubscriptionManager.ts],
      - [services/utils/TransactionConverter.ts],
      - the [IndexerSubscriptionService] listing of [SETUP.md],
    followed by the properties proved about them.

    Part I holds the definitions, one module per component; Part II holds
    the lemmas and theorems, again one module per component. *)

From Stdlib Require Import ZArith QArith Lia Ascii String.
From stdpp Require Import base option list sorting strings gmap.


(* ===================================================================== *)
(** * Part I: definitions                                                 *)
(* ===================================================================== *)

(** ** JavaScript [Map]: an insertion-ordered dictionary

    [Map] iterates in insertion order, [set] on a present key keeps the
    key's position, [delete] removes the entry.  Order matters for
    [LRUMap], so a map is the list of its entries, oldest first. *)
Module JSMap.
Abbreviation t K V := (list (K * V)) (only parsing).
Section JSMap.
Context {K V : Type} `{EqDecision K}.
Local Abbreviation t := (list (K * V)) (only parsing).

Definition keys (m : t) : list K := m.*1.

Definition size (m : t) : nat := length m.

Fixpoint get (k : K) (m : t) : option V :=
  match m with
  | [] => None
  | (k', v) :: m' => if decide (k' = k) then Some v else get k m'
  end.

Definition has (k : K) (m : t) : bool := bool_decide (is_Some (get k m)).

(** [Map.prototype.set]: overwrite in place, or append. *)
Fixpoint set (k : K) (v : V) (m : t) : t :=
  match m with
  | [] => [(k, v)]
  | (k', v') :: m' =>
      if decide (k' = k) then (k, v) :: m' else (k', v') :: set k v m'
  end.

(** [Map.prototype.delete]: drop the entry of [k], if any. *)
Fixpoint delete (k : K) (m : t) : t :=
  match m with
  | [] => []
  | (k', v') :: m' =>
      if decide (k' = k) then m' else (k', v') :: delete k m'
  end.

(** [this.keys().next().value]: [None] stands for [undefined]. *)
Definition first_key (m : t) : option K := head (keys m).

(** Representation invariant: a [Map] never holds a key twice. *)
Definition wf (m : t) : Prop := NoDup (keys m).

(** The entries of the keys other than [k]. *)
Definition other (k : K) : K * V → Prop := λ kv, kv.1 ≠ k.

#[global] Instance other_dec k kv : Decision (other k kv).
Proof. unfold other. apply _. Defined.
End JSMap.
End JSMap.

(** ** [LRUMap] (useMultisig.ts, lines 30-61)

    [class LRUMap<K, V> extends Map<K, V>] with a private [maxSize].  The
    value type of every instance in the file ([string], [number],
    [Set<string>], [Record], [Map]) excludes [undefined], so a stored value
    is always defined and [get] promotes every key it finds. *)
Module LRUMap.
Section LRUMap.
Context {K V : Type} `{EqDecision K}.
Variable maxSize : nat.

(** The eviction loop
    [while (this.size > this.maxSize) { this.delete(oldestKey) }];
    the oldest key is the first entry, so each round drops the head. *)
Fixpoint evict (m : JSMap.t K V) : JSMap.t K V :=
  match m with
  | [] => []
  | _ :: rest => if decide (maxSize < JSMap.size m) then evict rest else m
  end.

Definition set (k : K) (v : V) (m : JSMap.t K V) : JSMap.t K V :=
  let m1 := if JSMap.has k m then JSMap.delete k m else m in
  let m2 := JSMap.set k v m1 in
  evict m2.

(** [get] returns the value and the map after the access. *)
Definition get (k : K) (m : JSMap.t K V) : option V * JSMap.t K V :=
  match JSMap.get k m with
  | Some value => (Some value, JSMap.set k value (JSMap.delete k m))
  | None => (None, m)
  end.

(** [delete] and [has] are inherited from [Map]. *)
Definition delete (k : K) (m : JSMap.t K V) : JSMap.t K V := JSMap.delete k m.
Definition has (k : K) (m : JSMap.t K V) : bool := JSMap.has k m.

(** A client's calls, for statements over call sequences. *)
Inductive op : Type :=
| OpGet (k : K)
| OpSet (k : K) (v : V)
| OpDelete (k : K).

Definition apply (m : JSMap.t K V) (o : op) : JSMap.t K V :=
  match o with
  | OpGet k => (get k m).2
  | OpSet k v => set k v m
  | OpDelete k => delete k m
  end.

Definition run (ops : list op) (m : JSMap.t K V) : JSMap.t K V :=
  foldl apply m ops.

(** [new LRUMap(maxSize)]. *)
Definition empty : JSMap.t K V := [].

(** Inserting a list of entries, one [set] call each. *)
Definition sets (kvs : list (K * V)) : list op :=
  (λ kv, OpSet kv.1 kv.2) <$> kvs.
End LRUMap.
End LRUMap.

(** ** The ordered update queue (useMultisig.ts, lines 165-170, 436-462)

    [queueCacheUpdate] appends a processor to the promise chain held in
    [cacheUpdateQueueRef]:
<<
      cacheUpdateQueueRef.current = cacheUpdateQueueRef.current
        .catch(() => {})
        .then(async () => { if (!isActive) return; await processor(); })
        .catch((error) => { console.warn('Cache update failed:', ...) })
        .finally(() => { cacheUpdateQueueSizeRef.current--; });
>>
    The embedding keeps the promises: a heap of promise cells, each pending
    with its list of registered reactions or settled with an outcome, and
    the FIFO job queue that runs a reaction once its promise has settled.
    Nothing in this runtime serialises processors; any serialisation is a
    consequence of how [queueCacheUpdate] links the cells. *)
Module UpdateQueue.

Inductive outcome : Type := Fulfilled | Rejected.

(** The four closures the program registers, each with the promise its
    registration returned.  A processor is named by the index of the
    [queueCacheUpdate] call that submitted it; [scope] names the effect
    run whose [isActive] variable the closure captured. *)
Inductive reaction : Type :=
| CatchIgnore (derived : nat)
| ThenProcess (call scope : nat) (derived : nat)
| CatchWarn (derived : nat)
| FinallyRelease (derived : nat).

Inductive promise : Type :=
| Pending (reactions : list reaction)
| Settled (o : outcome).

(** What an observer of the pipeline sees. *)
Inductive event : Type :=
| EvEnqueued (call : nat)
| EvDropped (call : nat)          (* 'Cache update queue full, dropping update' *)
| EvSkipped (call : nat)          (* isActive was false: [return] *)
| EvStart (call : nat)            (* [processor()] is called *)
| EvSettle (call : nat) (o : outcome)
| EvWarnFailed.                   (* 'Cache update failed:' *)

Record state : Type := State {
  heap : gmap nat promise;
  next : nat;                               (* next fresh promise *)
  jobs : list (reaction * outcome);         (* promise job queue *)
  inflight : list (nat * nat);              (* started processor, awaiting cell *)
  cacheUpdateQueueRef : nat;
  cacheUpdateQueueSizeRef : nat;
  inactive : list nat;                      (* scopes with isActive = false *)
  calls : nat;
  trace : list event
}.

Definition MAX_QUEUE_SIZE : nat := 50.

(** [useRef(Promise.resolve())] and [useRef(0)]. *)
Definition init : state :=
  State {[ 0 := Settled Fulfilled ]} 1 [] [] 0 0 [] 0 [].

Definition with_promises (h : gmap nat promise) (n : nat)
    (js : list (reaction * outcome)) (s : state) : state :=
  State h n js (inflight s) (cacheUpdateQueueRef s)
    (cacheUpdateQueueSizeRef s) (inactive s) (calls s) (trace s).

Definition log (e : event) (s : state) : state :=
  State (heap s) (next s) (jobs s) (inflight s) (cacheUpdateQueueRef s)
    (cacheUpdateQueueSizeRef s) (inactive s) (calls s) (trace s ++ [e]).

(** Settling a pending promise queues one job per registered reaction;
    a settled promise stays as it is. *)
Definition settle (p : nat) (o : outcome) (s : state) : state :=
  match heap s !! p with
  | Some (Pending rs) =>
      with_promises (<[p := Settled o]> (heap s)) (next s)
        (jobs s ++ ((λ r, (r, o)) <$> rs)) s
  | _ => s
  end.

(** [p.then(..)], [p.catch(..)], [p.finally(..)]: a fresh pending promise
    is returned; the reaction waits on [p], or is queued at once when [p]
    has settled already. *)
Definition register (p : nat) (mk : nat → reaction) (s : state) : nat * state :=
  let q := next s in
  let h := <[q := Pending []]> (heap s) in
  match heap s !! p with
  | Some (Pending rs) =>
      (q, with_promises (<[p := Pending (rs ++ [mk q])]> h) (S q) (jobs s) s)
  | Some (Settled o) =>
      (q, with_promises h (S q) (jobs s ++ [(mk q, o)]) s)
  | None => (q, with_promises h (S q) (jobs s) s)
  end.

Inductive completion (A : Type) : Type :=
| Normal (a : A)
| Throw (a : A).
Arguments Normal {A} a.
Arguments Throw {A} a.

Definition queueCacheUpdate (scope : nat) (s : state) : completion state :=
  let call := calls s in
  if decide (MAX_QUEUE_SIZE ≤ cacheUpdateQueueSizeRef s) then
    Normal (State (heap s) (next s) (jobs s) (inflight s)
              (cacheUpdateQueueRef s) (cacheUpdateQueueSizeRef s)
              (inactive s) (S call) (trace s ++ [EvDropped call]))
  else
    let '(a, s1) := register (cacheUpdateQueueRef s) CatchIgnore s in
    let '(b, s2) := register a (ThenProcess call scope) s1 in
    let '(c, s3) := register b CatchWarn s2 in
    let '(d, s4) := register c FinallyRelease s3 in
    Normal (State (heap s4) (next s4) (jobs s4) (inflight s)
              d (S (cacheUpdateQueueSizeRef s))
              (inactive s) (S call) (trace s ++ [EvEnqueued call])).

(** Running one reaction job. *)
Definition fire (r : reaction) (o : outcome) (s : state) : state :=
  match r, o with
  | CatchIgnore q, _ => settle q Fulfilled s
  | ThenProcess call scope q, Rejected => settle q Rejected s
  | ThenProcess call scope q, Fulfilled =>
      if decide (scope ∈ inactive s) then
        settle q Fulfilled (log (EvSkipped call) s)
      else
        let s' := log (EvStart call) s in
        State (heap s') (next s') (jobs s') (inflight s' ++ [(call, q)])
          (cacheUpdateQueueRef s') (cacheUpdateQueueSizeRef s')
          (inactive s') (calls s') (trace s')
  | CatchWarn q, Fulfilled => settle q Fulfilled s
  | CatchWarn q, Rejected => settle q Fulfilled (log EvWarnFailed s)
  | FinallyRelease q, _ =>
      settle q o
        (State (heap s) (next s) (jobs s) (inflight s)
           (cacheUpdateQueueRef s) (pred (cacheUpdateQueueSizeRef s))
           (inactive s) (calls s) (trace s))
  end.

Definition promise_job (s : state) : state :=
  match jobs s with
  | [] => s
  | (r, o) :: rest => fire r o (with_promises (heap s) (next s) rest s)
  end.

(** The promise a started processor returned settles: its awaited I/O
    completed or failed.  When and how is the environment's choice. *)
Definition processor_settles (call : nat) (o : outcome) (s : state) : state :=
  match list_find (λ x, x.1 = call) (inflight s) with
  | Some (i, (_, q)) =>
      settle q o
        (State (heap s) (next s) (jobs s) (delete i (inflight s))
           (cacheUpdateQueueRef s) (cacheUpdateQueueSizeRef s)
           (inactive s) (calls s) (trace s ++ [EvSettle call o]))
  | None => s
  end.

(** The effect's cleanup: [isActive = false]. *)
Definition teardown (scope : nat) (s : state) : state :=
  State (heap s) (next s) (jobs s) (inflight s) (cacheUpdateQueueRef s)
    (cacheUpdateQueueSizeRef s) (scope :: inactive s) (calls s) (trace s).

(** Everything that can happen to the pipeline, in any interleaving. *)
Inductive input : Type :=
| Enqueue (scope : nat)
| PromiseJob
| ProcessorSettles (call : nat) (o : outcome)
| Teardown (scope : nat).

Definition step (s : state) (i : input) : state :=
  match i with
  | Enqueue scope =>
      match queueCacheUpdate scope s with Normal s' | Throw s' => s' end
  | PromiseJob => promise_job s
  | ProcessorSettles call o => processor_settles call o s
  | Teardown scope => teardown scope s
  end.

Definition run (inputs : list input) : state := foldl step init inputs.

(** *** Reading a trace *)

Definition accepted (t : list event) : list nat :=
  omap (λ e, match e with EvEnqueued c => Some c | _ => None end) t.

(** The processors whose turn has come: started, or skipped as inactive. *)
Definition handled (t : list event) : list nat :=
  omap (λ e, match e with EvStart c | EvSkipped c => Some c | _ => None end) t.

Definition started (t : list event) : list nat :=
  omap (λ e, match e with EvStart c => Some c | _ => None end) t.

(** One processor at a time: [Some running] after a trace in which every
    start found no processor running and every settlement is the running
    processor's; [None] as soon as two processors overlap. *)
Definition exclusive_step (st : option (option nat)) (e : event) : option (option nat) :=
  match st, e with
  | Some None, EvStart c => Some (Some c)
  | Some (Some _), EvStart _ => None
  | Some (Some c), EvSettle c' _ => if decide (c = c') then Some None else None
  | Some None, EvSettle _ _ => None
  | _, _ => st
  end.

Definition exclusive (t : list event) : option (option nat) :=
  foldl exclusive_step (Some None) t.

(** *** The shape of the chain

    The [j]-th accepted call allocates the promises [4j+1 .. 4j+4]: the
    results of [.catch], [.then], [.catch] and [.finally], the last one
    being the new [cacheUpdateQueueRef.current].  Promise [4j] is the
    end of the chain the call found. *)
Definition r_ignore (j : nat) : reaction := CatchIgnore (4 * j + 1).
Definition r_process (j call scope : nat) : reaction := ThenProcess call scope (4 * j + 2).
Definition r_warn (j : nat) : reaction := CatchWarn (4 * j + 3).
Definition r_release (j : nat) : reaction := FinallyRelease (4 * j + 4).

(** How far the oldest unfinished link has come. *)
Inductive stage : Type :=
| Quiet                  (* every link has finished *)
| AtIgnore               (* job of [.catch(() => {})] queued *)
| AtProcess              (* job of [.then(async ...)] queued *)
| Running                (* the processor was called and has not settled *)
| AtWarn (o : outcome)   (* job of [.catch(warn)] queued *)
| AtRelease.             (* job of [.finally(release)] queued *)

Definition turn_taken (st : stage) : nat :=
  match st with
  | Running | AtWarn _ | AtRelease => 1
  | _ => 0
  end.

Definition waiting (h : gmap nat promise) (j call scope : nat) : Prop :=
  h !! (4 * j + 1) = Some (Pending [r_process j call scope]) ∧
  h !! (4 * j + 2) = Some (Pending [r_warn j]) ∧
  h !! (4 * j + 3) = Some (Pending [r_release j]).

Definition current (s : state) (links : list (nat * nat)) (k : nat) (st : stage) : Prop :=
  match st with
  | Quiet =>
      k = length links ∧ heap s !! (4 * k) = Some (Settled Fulfilled) ∧
      jobs s = [] ∧ inflight s = []
  | AtIgnore =>
      ∃ c sc, links !! k = Some (c, sc) ∧
        jobs s = [(r_ignore k, Fulfilled)] ∧ inflight s = [] ∧
        waiting (heap s) k c sc
  | AtProcess =>
      ∃ c sc, links !! k = Some (c, sc) ∧
        jobs s = [(r_process k c sc, Fulfilled)] ∧ inflight s = [] ∧
        heap s !! (4 * k + 2) = Some (Pending [r_warn k]) ∧
        heap s !! (4 * k + 3) = Some (Pending [r_release k])
  | Running =>
      ∃ c sc, links !! k = Some (c, sc) ∧
        jobs s = [] ∧ inflight s = [(c, 4 * k + 2)] ∧
        heap s !! (4 * k + 2) = Some (Pending [r_warn k]) ∧
        heap s !! (4 * k + 3) = Some (Pending [r_release k])
  | AtWarn o =>
      k < length links ∧ jobs s = [(r_warn k, o)] ∧ inflight s = [] ∧
      heap s !! (4 * k + 3) = Some (Pending [r_release k])
  | AtRelease =>
      k < length links ∧ jobs s = [(r_release k, Fulfilled)] ∧ inflight s = []
  end.

Definition running_call (links : list (nat * nat)) (k : nat) (st : stage) : option nat :=
  match st with
  | Running => fst <$> links !! k
  | _ => None
  end.

(** [links] are the accepted calls with their scopes, oldest first; the
    first [k] of them have finished. *)
Record chain (s : state) (links : list (nat * nat)) (k : nat) (st : stage) : Prop := Chain {
  chain_next : next s = 4 * length links + 1;
  chain_ref : cacheUpdateQueueRef s = 4 * length links;
  chain_size : cacheUpdateQueueSizeRef s = length links - k;
  chain_le : k ≤ length links;
  chain_current : current s links k st;
  chain_link : ∀ j, k < j < length links →
    heap s !! (4 * j) = Some (Pending [r_ignore j]);
  chain_waiting : ∀ j c sc, k < j → links !! j = Some (c, sc) →
    waiting (heap s) j c sc;
  chain_end : k < length links →
    heap s !! (4 * length links) = Some (Pending []);
  chain_accepted : accepted (trace s) = links.*1;
  chain_handled : handled (trace s) = (take (k + turn_taken st) links).*1;
  chain_exclusive : exclusive (trace s) = Some (running_call links k st);
  chain_calls : StronglySorted lt links.*1 ∧ Forall (λ c, c < calls s) links.*1
}.

(** How much is left to do: the links not finished, and how far the
    oldest of them has to go. *)
Definition stage_rank (st : stage) : nat :=
  match st with
  | Quiet => 0
  | AtIgnore => 5
  | AtProcess => 4
  | Running => 3
  | AtWarn _ => 2
  | AtRelease => 1
  end.

Definition remaining (links : list (nat * nat)) (k : nat) (st : stage) : nat :=
  6 * (length links - k) + stage_rank st.

(** The inputs by which the runtime and the awaited I/O move on, as
    opposed to those by which the program submits work or cleans up;
    [outcome_of] says how each processor's promise settles. *)
Definition moves_on (outcome_of : nat → outcome) (i : input) : Prop :=
  match i with
  | PromiseJob => True
  | ProcessorSettles call o => o = outcome_of call
  | Enqueue _ | Teardown _ => False
  end.

(** The effect run each [queueCacheUpdate] call was made in, by the index
    of the call. *)
Definition scopes (inputs : list input) : list nat :=
  omap (λ i, match i with Enqueue scope => Some scope | _ => None end) inputs.

End UpdateQueue.

(** ** Strings as JavaScript sees them *)

(** [String.prototype.toLowerCase], on the ASCII range the addresses and
    hashes of this program live in. *)
Definition lower_ascii (a : ascii) : ascii :=
let n := nat_of_ascii a in
if (65 <=? n) && (n <=? 90) then ascii_of_nat (n + 32) else a.

Fixpoint toLowerCase (s : string) : string :=
match s with
| EmptyString => EmptyString
| String a s' => String (lower_ascii a) (toLowerCase s')
end.

(** Truthiness of a string: every string but the empty one. *)
Definition truthy (s : string) : bool :=
match s with
| EmptyString => false
| String _ _ => true
end.

(** ** JavaScript [Set]: insertion-ordered, without duplicates *)
Module JSSet.
Section JSSet.
Context {A : Type} `{EqDecision A}.

Definition has (x : A) (s : list A) : bool := bool_decide (x ∈ s).

Definition add (x : A) (s : list A) : list A :=
if has x s then s else s ++ [x].

Definition delete (x : A) (s : list A) : list A := filter (λ y, y ≠ x) s.

Definition size (s : list A) : nat := length s.
End JSSet.
End JSSet.

(** ** [SubscriptionManager] (services/indexer/SubscriptionManager.ts)

    The consumer's callbacks and the subscription service are outside the
    class.  A callback is named by a number, a call of it is an entry of
    the effect log; so are the calls to the subscription service and to the
    teardown closures it returned.  A teardown closure may throw, which
    [deactivateWallet] and [cleanup] catch and report. *)
Module SubscriptionManager.

Inductive topic : Type := Transactions | Deposits.

#[global] Instance topic_eq_dec : EqDecision topic.
Proof. solve_decision. Defined.

(** The closure returned by [subscribeToTransactions] / [subscribeToDeposits]
    for a wallet. *)
Definition unsubscriber : Type := (topic * string)%type.

Record WalletSubscriptionCallbacks : Type := Callbacks {
  onTransactionInsert : option nat;
  onTransactionUpdate : option nat;
  onDepositInsert : option nat;
  onError : option nat;
  onEvicted : option nat
}.

Inductive effect : Type :=
| Subscribed (t : topic) (wallet : string) (onInsert onUpdate onErr : option nat)
| Unsubscribed (u : unsubscriber)
| EvictionNotified (callback : nat) (wallet : string)
| Warned (wallet : string)       (* 'Failed to unsubscribe wallet ...' *)
| WarnedCleanup.                 (* 'Failed to unsubscribe during cleanup:' *)

Record manager : Type := Manager {
  activeWallets : list string;                       (* Set<string> *)
  unsubscribeFns : list (string * list unsubscriber);  (* Map<string, (() => void)[]> *)
  evictionCallbacks : list (string * nat);           (* Map<string, callback> *)
  effects : list effect
}.

Definition create : manager := Manager [] [] [] [].

(** How a call of [activateWallet] ends: it returns, or the exception of
    an eviction callback, which is called outside any [try], escapes it.
    Either way the manager is left in a state. *)
Inductive outcome : Type :=
| Returned (m : manager)
| Thrown (m : manager).

Definition state_after (o : outcome) : manager :=
match o with
| Returned m | Thrown m => m
end.

Section methods.
(** [INDEXER_CONFIG.MAX_SUBSCRIPTIONS]; config/supabase.ts is not among the
    sources, SETUP.md lists it with the value 10. *)
Variable MAX_SUBSCRIPTIONS : nat.
(** Whether calling a teardown closure throws. *)
Variable throws : unsubscriber → bool.
(** Whether an eviction callback throws when called with a wallet.  The
    calls to the subscription service are taken to return. *)
Variable evicted_throws : nat → string → bool.

(** [unsubscribers.forEach((unsub) => { try { unsub() } catch { warn } })] *)
Definition call_unsubscribers (warning : effect) (us : list unsubscriber) : list effect :=
us ≫= (λ u, Unsubscribed u :: if throws u then [warning] else []).

Definition deactivateWallet (walletAddress : string) (m : manager) : manager :=
let normalizedAddress := toLowerCase walletAddress in
match JSMap.get normalizedAddress (unsubscribeFns m) with
| Some unsubscribers =>
    Manager (JSSet.delete normalizedAddress (activeWallets m))
      (JSMap.delete normalizedAddress (unsubscribeFns m))
      (JSMap.delete normalizedAddress (evictionCallbacks m))
      (effects m ++ call_unsubscribers (Warned normalizedAddress) unsubscribers)
| None => m
end.

(** The eviction branch of [activateWallet], lines 37-49.  The call of
    the eviction callback is logged whether it returns or throws; when it
    throws, [deactivateWallet] is not reached. *)
Definition evict_oldest (m : manager) : outcome :=
if decide (MAX_SUBSCRIPTIONS ≤ JSSet.size (activeWallets m)) then
  match head (activeWallets m) with             (* values().next() *)
  | Some evictedWallet =>
      if truthy evictedWallet then
        match JSMap.get evictedWallet (evictionCallbacks m) with
        | Some evictionCallback =>
            let m' :=
              Manager (activeWallets m) (unsubscribeFns m) (evictionCallbacks m)
                (effects m ++ [EvictionNotified evictionCallback evictedWallet]) in
            if evicted_throws evictionCallback evictedWallet then Thrown m'
            else Returned (deactivateWallet evictedWallet m')
        | None => Returned (deactivateWallet evictedWallet m)
        end
      else Returned m
  | None => Returned m                          (* oldestResult.done *)
  end
else Returned m.

(** The channels [activateWallet] opens for the callbacks it is given, as
    the teardown closures it keeps and as the calls it makes. *)
Definition channels (normalizedAddress : string)
    (callbacks : WalletSubscriptionCallbacks) : list unsubscriber :=
(if bool_decide (is_Some (onTransactionInsert callbacks) ∨
                 is_Some (onTransactionUpdate callbacks))
 then [(Transactions, normalizedAddress)] else []) ++
(if bool_decide (is_Some (onDepositInsert callbacks))
 then [(Deposits, normalizedAddress)] else []).

Definition subscribe (callbacks : WalletSubscriptionCallbacks)
    (u : unsubscriber) : effect :=
match u.1 with
| Transactions =>
    Subscribed Transactions u.2 (onTransactionInsert callbacks)
      (onTransactionUpdate callbacks) (onError callbacks)
| Deposits =>
    Subscribed Deposits u.2 (onDepositInsert callbacks) None (onError callbacks)
end.

Definition activateWallet (walletAddress : string)
    (callbacks : WalletSubscriptionCallbacks) (m : manager) : outcome :=
let normalizedAddress := toLowerCase walletAddress in
if JSSet.has normalizedAddress (activeWallets m) then Returned m
else
  match evict_oldest m with
  | Returned m1 =>
      let unsubscribers := channels normalizedAddress callbacks in
      Returned
        (Manager (JSSet.add normalizedAddress (activeWallets m1))
           (JSMap.set normalizedAddress unsubscribers (unsubscribeFns m1))
           (match onEvicted callbacks with
            | Some cb => JSMap.set normalizedAddress cb (evictionCallbacks m1)
            | None => evictionCallbacks m1
            end)
           (effects m1 ++ (subscribe callbacks <$> unsubscribers)))
  | Thrown m1 => Thrown m1
  end.

(** The manager a call of [activateWallet] leaves, however it ended. *)
Definition after_activate (walletAddress : string)
    (callbacks : WalletSubscriptionCallbacks) (m : manager) : manager :=
state_after (activateWallet walletAddress callbacks m).

Definition isWalletActive (walletAddress : string) (m : manager) : bool :=
JSSet.has (toLowerCase walletAddress) (activeWallets m).

Definition getActiveWalletCount (m : manager) : nat := JSSet.size (activeWallets m).

Definition cleanup (m : manager) : manager :=
Manager [] [] []
  (effects m ++ (unsubscribeFns m ≫= λ kv, call_unsubscribers WarnedCleanup kv.2)).

(** The consumer's calls, for statements over reachable states. *)
Inductive call : Type :=
| Activate (walletAddress : string) (callbacks : WalletSubscriptionCallbacks)
| Deactivate (walletAddress : string)
| Cleanup.

Definition perform (m : manager) (c : call) : manager :=
match c with
| Activate w callbacks => after_activate w callbacks m
| Deactivate w => deactivateWallet w m
| Cleanup => cleanup m
end.

Definition run (calls : list call) : manager := foldl perform create calls.

(** What the three collections have in common in every reachable state:
    the active set and the teardown map list the same wallets in the same
    order, each once and in lower case. *)
Definition consistent (m : manager) : Prop :=
NoDup (activeWallets m) ∧
JSMap.keys (unsubscribeFns m) = activeWallets m ∧
Forall (λ w, toLowerCase w = w) (activeWallets m).
End methods.

(** An eviction callback is kept for active wallets only, one per wallet. *)
Definition callbacks_of_active (m : manager) : Prop :=
NoDup (JSMap.keys (evictionCallbacks m)) ∧
∀ w, w ∈ JSMap.keys (evictionCallbacks m) → w ∈ activeWallets m.

(** *** Reading the effect log *)

(** The channels opened, by the teardown closure each one returned. *)
Definition opened_channels (es : list effect) : list unsubscriber :=
omap (λ e, match e with Subscribed t w _ _ _ => Some (t, w) | _ => None end) es.

(** The teardown closures called. *)
Definition closed_channels (es : list effect) : list unsubscriber :=
omap (λ e, match e with Unsubscribed u => Some u | _ => None end) es.

Definition evictions (es : list effect) : list (nat * string) :=
omap (λ e, match e with EvictionNotified cb w => Some (cb, w) | _ => None end) es.

(** The teardown closures the manager holds. *)
Definition held (m : manager) : list unsubscriber := unsubscribeFns m ≫= snd.

(** The addresses a sequence of calls activates. *)
Definition activated (calls : list call) : list string :=
omap (λ c, match c with Activate w _ => Some w | _ => None end) calls.

(** Every channel opened so far was closed since or is still held. *)
Definition accounted (m : manager) : Prop :=
opened_channels (effects m) ≡ₚ closed_channels (effects m) ++ held m.

(** What every reachable state satisfies. *)
Definition invariant (m : manager) : Prop :=
consistent m ∧ callbacks_of_active m ∧ accounted m.
End SubscriptionManager.

(** ** Transactions (types/index.ts, types/database.ts) and
       [convertIndexerTransaction] (services/utils/TransactionConverter.ts) *)
Module Transactions.

(** [numApprovals] and [threshold] are JavaScript numbers holding counts;
    [timestamp] is a number of seconds, possibly fractional. *)
Record PendingTransaction : Type := PendingTx {
  hash : string;
  to : string;
  value : string;
  data : string;
  numApprovals : Z;
  threshold : Z;
  executed : bool;
  cancelled : bool;
  timestamp : Q;
  proposer : string;
  approvals : list (string * bool);        (* { [owner: string]: boolean } *)
  _optimistic : bool                       (* optional flag; absent is falsy *)
}.

Record IndexerTransaction : Type := IndexerTx {
  tx_hash : string;
  to_address : string;
  tx_value : string;
  tx_data : option string;
  confirmation_count : Z;
  status : string;
  created_at : string;
  submitted_by : string
}.

Record Confirmation : Type := Confirm {
  owner_address : string;
  is_active : bool
}.

Section convert.
(** [getAddress] of quais and [new Date(s).getTime()] are library
    functions.  [getAddress] returns the checksummed form of an address
    and throws on a string that is not a valid address: [None] is the
    throw. *)
Variable getAddress : string → option string.
Variable Date_getTime : string → Z.

(** [activeConfirmations.forEach(c => approvals[getAddress(c.owner_address)] = true)];
    the first throw ends the loop. *)
Definition checksummedOwners (activeConfirmations : list Confirmation) :
    option (list (string * bool)) :=
foldl (λ acc c, approvals ← acc;
                owner ← getAddress (owner_address c);
                Some (JSMap.set owner true approvals))
  (Some []) activeConfirmations.

(** [None]: the call throws and returns no record. *)
Definition convertIndexerTransaction (tx : IndexerTransaction)
    (walletThreshold : Z) (confirmations : list Confirmation) :
    option PendingTransaction :=
let activeConfirmations := filter (λ c, is_active c = true) confirmations in
approvals ← checksummedOwners activeConfirmations;
to ← getAddress (to_address tx);
proposer ← getAddress (submitted_by tx);
Some (PendingTx (tx_hash tx) to (tx_value tx)
        (default "0x"%string (tx_data tx)) (confirmation_count tx) walletThreshold
        (bool_decide (status tx = "executed"%string))
        (bool_decide (status tx = "cancelled"%string))
        (Qmake (Date_getTime (created_at tx)) 1000)
        proposer approvals false).
End convert.

(** [getAddress] on the three addresses the examples use, in lower case
    or checksummed; the examples use no other valid address, and the
    table rejects every other string. *)
Definition sample_getAddress (a : string) : option string :=
if bool_decide (a = "0x5aaeb6053f3e94c9b9a09f33669435e7ef1beaed"%string ∨
                a = "0x5aAeb6053F3E94C9b9A09f33669435E7Ef1BeAed"%string)
then Some "0x5aAeb6053F3E94C9b9A09f33669435E7Ef1BeAed"%string
else if bool_decide (a = "0xfb6916095ca1df60bb79ce92ce3ea74c37c5d359"%string ∨
                     a = "0xfB6916095ca1df60bB79Ce92cE3Ea74c37c5d359"%string)
then Some "0xfB6916095ca1df60bB79Ce92cE3Ea74c37c5d359"%string
else if bool_decide (a = "0xdbf03b407c01e7cd3cbea99509d93f8dddc8c6fb"%string ∨
                     a = "0xdbF03B407c01E7cD3CBea99509d93f8DDDC8C6FB"%string)
then Some "0xdbF03B407c01E7cD3CBea99509d93f8DDDC8C6FB"%string
else None.
End Transactions.

(** ** Cache reconciliation (useMultisig.ts, lines 464-528)

    The [onInsert] and [onUpdate] processors of the transaction
    subscription, from the point their awaited fetches have returned: the
    wallet details ([None] when not found), the confirmations, and what
    [isActive] read at the two checks.  A processor returns the cache it
    leaves, or [None] when [convertIndexerTransaction] throws: the promise
    of the processor is then rejected, which the queue logs, and since the
    conversion comes before every [setQueryData] nothing has been
    written. *)
Module Reconciliation.
Import Transactions.

Definition MAX_CACHE_TRANSACTIONS : nat := 500.

(** The three query-cache entries of one wallet; [None] is [undefined]. *)
Record cache : Type := Cache {
  pendingTransactions : option (list PendingTransaction);
  executedTransactions : option (list PendingTransaction);
  cancelledTransactions : option (list PendingTransaction)
}.

(** [(old = []) => ...] under [setQueryData]. *)
Definition updater (f : list PendingTransaction → list PendingTransaction)
    (old : option (list PendingTransaction)) : option (list PendingTransaction) :=
Some (f (default [] old)).

Section processors.
Variable getAddress : string → option string.
Variable Date_getTime : string → Z.

Definition insert_merge (tx : IndexerTransaction) (converted : PendingTransaction)
    (old : list PendingTransaction) : list PendingTransaction :=
let filtered :=
  filter (λ t, _optimistic t = false ∨ hash t ≠ tx_hash tx) old in
take MAX_CACHE_TRANSACTIONS (converted :: filtered).

Definition onInsert (tx : IndexerTransaction) (wallet : option Z)
    (activeAfterWallet activeAfterConfirmations : bool)
    (confirmations : list Confirmation) (c : cache) : option cache :=
match wallet with
| Some walletThreshold =>
    if activeAfterWallet && activeAfterConfirmations then
      converted ← convertIndexerTransaction getAddress Date_getTime tx walletThreshold
                    confirmations;
      Some (Cache (updater (insert_merge tx converted) (pendingTransactions c))
              (executedTransactions c) (cancelledTransactions c))
    else Some c
| None => Some c
end.

Definition history_merge (converted : PendingTransaction)
    (old : list PendingTransaction) : list PendingTransaction :=
take MAX_CACHE_TRANSACTIONS (converted :: old).

Definition onUpdate (tx : IndexerTransaction) (wallet : option Z)
    (activeAfterWallet activeAfterConfirmations : bool)
    (confirmations : list Confirmation) (c : cache) : option cache :=
match wallet with
| Some walletThreshold =>
    if activeAfterWallet && activeAfterConfirmations then
      converted ← convertIndexerTransaction getAddress Date_getTime tx walletThreshold
                    confirmations;
      Some
        (if bool_decide (status tx = "executed"%string) then
           Cache (updater (filter (λ t, hash t ≠ tx_hash tx)) (pendingTransactions c))
             (updater (history_merge converted) (executedTransactions c))
             (cancelledTransactions c)
         else if bool_decide (status tx = "cancelled"%string) then
           Cache (updater (filter (λ t, hash t ≠ tx_hash tx)) (pendingTransactions c))
             (executedTransactions c)
             (updater (history_merge converted) (cancelledTransactions c))
         else
           Cache (updater (fmap (λ t, if decide (hash t = tx_hash tx) then converted else t))
                    (pendingTransactions c))
             (executedTransactions c) (cancelledTransactions c))
    else Some c
| None => Some c
end.
End processors.

(** *** The subscription's events, one processor each *)
Inductive event : Type :=
| Inserted (tx : IndexerTransaction) (wallet : option Z)
    (activeAfterWallet activeAfterConfirmations : bool)
    (confirmations : list Confirmation)
| Updated (tx : IndexerTransaction) (wallet : option Z)
    (activeAfterWallet activeAfterConfirmations : bool)
    (confirmations : list Confirmation).

(** The cache after the event's processor has settled; a processor that
    was rejected has written nothing. *)
Definition process (getAddress : string → option string) (Date_getTime : string → Z)
    (c : cache) (e : event) : cache :=
match e with
| Inserted tx wallet a1 a2 confirmations =>
    default c (onInsert getAddress Date_getTime tx wallet a1 a2 confirmations c)
| Updated tx wallet a1 a2 confirmations =>
    default c (onUpdate getAddress Date_getTime tx wallet a1 a2 confirmations c)
end.

Definition within_cap (c : cache) : Prop :=
length (default [] (pendingTransactions c)) ≤ MAX_CACHE_TRANSACTIONS ∧
length (default [] (executedTransactions c)) ≤ MAX_CACHE_TRANSACTIONS ∧
length (default [] (cancelledTransactions c)) ≤ MAX_CACHE_TRANSACTIONS.
End Reconciliation.

(** ** Optimistic updates ([useOptimisticUpdates], useMultisig.ts, lines
       1148-1372)

    The hook writes to the same three query-cache entries before the
    indexer has caught up, and keeps one clean-up timer per transaction
    hash.  The calls that checksum an address return the cache they leave,
    or [None] when [getAddress] throws: the exception reaches the caller,
    and since the checksums are taken before [setQueryData] nothing has
    been written. *)
Module OptimisticUpdates.
Import Transactions Reconciliation.

(** [Partial<PendingTransaction> & { hash: string }], with the fields
    [addOptimisticTransaction] reads; [None] is an absent field. *)
Record PartialTransaction : Type := PartialTx {
  p_hash : string;
  p_to : option string;
  p_value : option string;
  p_data : option string;
  p_numApprovals : option Z;
  p_threshold : option Z;
  p_timestamp : option Q;
  p_proposer : option string;
  p_approvals : option (list (string * bool))
}.

Section updates.
Variable getAddress : string → option string.

(** [s ? getAddress(s) : ''] on an optional string. *)
Definition checksummed (s : option string) : option string :=
match s with
| Some a => if truthy a then getAddress a else Some EmptyString
| None => Some EmptyString
end.

(** [Object.entries(tx.approvals).forEach(([addr, approved]) =>
    checksummedApprovals[getAddress(addr)] = approved)] *)
Definition checksummedEntries (approvals : list (string * bool)) :
    option (list (string * bool)) :=
foldl (λ acc kv, checksummedApprovals ← acc;
                 addr ← getAddress kv.1;
                 Some (JSMap.set addr kv.2 checksummedApprovals))
  (Some []) approvals.

Definition placeholder (now : Q) (tx : PartialTransaction) : option PendingTransaction :=
checksummedTo ← checksummed (p_to tx);
checksummedProposer ← checksummed (p_proposer tx);
checksummedApprovals ←
  match p_approvals tx with
  | Some approvals => checksummedEntries approvals
  | None => Some []
  end;
Some (PendingTx (p_hash tx) checksummedTo (default "0"%string (p_value tx))
        (default "0x"%string (p_data tx)) (default 1%Z (p_numApprovals tx))
        (default 1%Z (p_threshold tx)) false false (default now (p_timestamp tx))
        checksummedProposer checksummedApprovals true).

(** [now] is [Date.now() / 1000] at the call. *)
Definition addOptimisticTransaction (now : Q) (tx : PartialTransaction)
    (c : cache) : option cache :=
optimistic ← placeholder now tx;
Some (Cache (updater (λ old, optimistic :: old) (pendingTransactions c))
        (executedTransactions c) (cancelledTransactions c)).

Definition with_approval (checksummedApprover : string)
    (tx : PendingTransaction) : PendingTransaction :=
PendingTx (hash tx) (to tx) (value tx) (data tx) (numApprovals tx + 1) (threshold tx)
  (executed tx) (cancelled tx) (timestamp tx) (proposer tx)
  (JSMap.set checksummedApprover true (approvals tx)) true.

Definition updateOptimisticApproval (txHash approver : string) (c : cache) :
    option cache :=
checksummedApprover ← getAddress approver;
Some (Cache (updater (fmap (λ tx, if decide (hash tx = txHash)
                                  then with_approval checksummedApprover tx else tx))
               (pendingTransactions c))
        (executedTransactions c) (cancelledTransactions c)).

Definition without_approval (checksummedRevoker : string)
    (tx : PendingTransaction) : PendingTransaction :=
PendingTx (hash tx) (to tx) (value tx) (data tx) (0 `max` (numApprovals tx - 1))
  (threshold tx) (executed tx) (cancelled tx) (timestamp tx) (proposer tx)
  (filter (λ kv, kv.1 ≠ checksummedRevoker) (approvals tx)) true.

Definition updateOptimisticRevocation (txHash revoker : string) (c : cache) :
    option cache :=
checksummedRevoker ← getAddress revoker;
Some (Cache (updater (fmap (λ tx, if decide (hash tx = txHash)
                                  then without_approval checksummedRevoker tx else tx))
               (pendingTransactions c))
        (executedTransactions c) (cancelledTransactions c)).

Definition as_executed (tx : PendingTransaction) : PendingTransaction :=
PendingTx (hash tx) (to tx) (value tx) (data tx) (numApprovals tx) (threshold tx)
  true (cancelled tx) (timestamp tx) (proposer tx) (approvals tx) true.

(** The second write reads the pending entry back after the first write
    has filtered it. *)
Definition markOptimisticExecuted (txHash : string) (c : cache) : cache :=
let pending := updater (filter (λ tx, hash tx ≠ txHash)) (pendingTransactions c) in
let pendingTx :=
  pending ≫= λ txs, snd <$> list_find (λ tx, hash tx = txHash) txs in
Cache pending
  (updater (λ old, match pendingTx with
                   | Some tx => as_executed tx :: old
                   | None => old
                   end)
     (executedTransactions c))
  (cancelledTransactions c).

(** A record with its [_optimistic] flag set and nothing else changed. *)
Definition flagged (tx : PendingTransaction) : PendingTransaction :=
PendingTx (hash tx) (to tx) (value tx) (data tx) (numApprovals tx) (threshold tx)
  (executed tx) (cancelled tx) (timestamp tx) (proposer tx) (approvals tx) true.

Definition markOptimisticCancelled (txHash : string) (c : cache) : cache :=
Cache (updater (filter (λ tx, hash tx ≠ txHash)) (pendingTransactions c))
  (executedTransactions c) (cancelledTransactions c).
End updates.

(** *** Clean-up timers (lines 1150-1160, 1301-1337)

    [setTimeout] hands out positive numbers; a timer is live from
    [setTimeout] until it fires or is cleared.  The log counts the calls
    of [invalidateQueries]. *)
Record cleanups : Type := Cleanups {
  pendingTimeoutsRef : list (string * nat);       (* Map<string, timeout> *)
  live : list (nat * string);                     (* timeout, captured txHash *)
  nextTimeout : nat;
  invalidations : nat
}.

Definition no_cleanups : cleanups := Cleanups [] [] 1 0.

Definition clearTimeout (timeout : nat) (l : list (nat * string)) : list (nat * string) :=
filter (λ t, t.1 ≠ timeout) l.

Definition scheduleOptimisticCleanup (txHash : string) (s : cleanups) : cleanups :=
let live1 :=
  match JSMap.get txHash (pendingTimeoutsRef s) with
  | Some existingTimeout => clearTimeout existingTimeout (live s)
  | None => live s
  end in
let timeout := nextTimeout s in
Cleanups (JSMap.set txHash timeout (pendingTimeoutsRef s))
  (live1 ++ [(timeout, txHash)]) (S timeout) (invalidations s).

Definition cancelOptimisticCleanup (txHash : string) (s : cleanups) : cleanups :=
match JSMap.get txHash (pendingTimeoutsRef s) with
| Some timeout =>
    Cleanups (JSMap.delete txHash (pendingTimeoutsRef s))
      (clearTimeout timeout (live s)) (nextTimeout s) (invalidations s)
| None => s
end.

(** The callback of a live timer runs; [pendingTxs] is what the cache
    holds for the wallet at that moment. *)
Definition timeout_fires (timeout : nat)
    (pendingTxs : option (list PendingTransaction)) (s : cleanups) : cleanups :=
match list_find (λ t, t.1 = timeout) (live s) with
| Some (_, (_, txHash)) =>
    let hasOptimistic :=
      match pendingTxs with
      | Some txs =>
          bool_decide (Exists (λ tx, _optimistic tx = true ∧ hash tx = txHash) txs)
      | None => false
      end in
    Cleanups (JSMap.delete txHash (pendingTimeoutsRef s))
      (clearTimeout timeout (live s)) (nextTimeout s)
      (if hasOptimistic then S (invalidations s) else invalidations s)
| None => s
end.

(** The clean-up of the hook's mount effect. *)
Definition unmount (s : cleanups) : cleanups :=
Cleanups [] (foldl (λ l kv, clearTimeout kv.2 l) (live s) (pendingTimeoutsRef s))
  (nextTimeout s) (invalidations s).

Inductive action : Type :=
| Schedule (txHash : string)
| Cancel (txHash : string)
| Fires (timeout : nat) (pendingTxs : option (list PendingTransaction))
| Unmount.

Definition act (s : cleanups) (a : action) : cleanups :=
match a with
| Schedule txHash => scheduleOptimisticCleanup txHash s
| Cancel txHash => cancelOptimisticCleanup txHash s
| Fires timeout pendingTxs => timeout_fires timeout pendingTxs s
| Unmount => unmount s
end.

Definition run (actions : list action) : cleanups := foldl act no_cleanups actions.

(** The live timers are the ones the map records, one per hash. *)
Definition timers_tracked (s : cleanups) : Prop :=
JSMap.wf (pendingTimeoutsRef s) ∧
NoDup (live s).*1 ∧
0 < nextTimeout s ∧
Forall (λ t, t.1 < nextTimeout s) (live s) ∧
∀ timeout txHash,
  (timeout, txHash) ∈ live s ↔ JSMap.get txHash (pendingTimeoutsRef s) = Some timeout.
End OptimisticUpdates.

(** ** Change detection (useMultisig.ts, lines 63-78, 156-163, 215-254,
       577-694)

    The module-level trackers are [LRUMap]s of capacity
    [MAX_TRACKED_WALLETS]; [prevBalancesRef] and [prevPendingTxsRef] are
    plain [Map]s of the hook instance.  A balance is the [BigInt] its
    string denotes: the service prints a bigint, so the string is a
    non-empty numeral, truthy, and [BigInt] reads the number back.  What
    [notificationManager.add] receives is logged; the browser notification
    that follows it under [Notification.permission === 'granted'] is a
    function of that log. *)
Module Notifications.
Import Transactions.

Definition MAX_TRACKED_WALLETS : nat := 50.

Inductive notification : Type :=
| VaultReceived (wallet : string) (increase total : Z)
| TransactionProposed (txHash : string)
| TransactionReady (txHash : string)
| TransactionApproved (approver txHash : string)
| ApprovalRevoked (revoker txHash : string).

Definition has_browser_notification (n : notification) : bool :=
match n with
| ApprovalRevoked _ _ => false
| _ => true
end.

Definition browser_notifications (permissionGranted : bool)
    (ns : list notification) : list notification :=
if permissionGranted then filter (λ n, has_browser_notification n = true) ns else [].

Record state : Type := State {
  lastNotifiedBalances : list (string * Z);
  notifiedReadyTxs : list (string * list string);
  notifiedProposedTxs : list (string * list string);
  notifiedApprovals : list (string * list (string * list string));
  prevBalancesRef : list (string * Z);
  prevPendingTxsRef : list (string * list (string * PendingTransaction));
  notifications : list notification
}.

Definition init : state := State [] [] [] [] [] [] [].

(** *** Balance (lines 215-254 of the wallet-info effect) *)
Definition balanceEffect (walletAddress : string) (currentBalance : Z)
    (s : state) : state :=
if truthy walletAddress then
  let prevBalance := JSMap.get walletAddress (prevBalancesRef s) in
  let '(lastNotifiedBalance, tracker) :=
    LRUMap.get walletAddress (lastNotifiedBalances s) in
  let '(tracker', fired) :=
    match prevBalance with
    | Some prev =>
        let hasIncreased := (prev <? currentBalance)%Z in
        let alreadyNotified :=
          match lastNotifiedBalance with
          | Some lastNotified => bool_decide (currentBalance = lastNotified)
          | None => false
          end in
        if hasIncreased && negb alreadyNotified then
          (LRUMap.set MAX_TRACKED_WALLETS walletAddress currentBalance tracker,
           [VaultReceived walletAddress (currentBalance - prev) currentBalance])
        else (tracker, [])
    | None => (tracker, [])
    end in
  State tracker' (notifiedReadyTxs s) (notifiedProposedTxs s) (notifiedApprovals s)
    (JSMap.set walletAddress currentBalance (prevBalancesRef s))
    (prevPendingTxsRef s) (notifications s ++ fired)
else s.

(** *** Pending transactions (lines 577-694) *)

(** [Object.keys(o).filter(addr => o[addr.toLowerCase()])] *)
Definition approvers (o : list (string * bool)) : list string :=
filter (λ addr, JSMap.get (toLowerCase addr) o = Some true) (JSMap.keys o).

(** The trackers and the log, as the loop body threads them. *)
Record tracking : Type := Tracking {
  ready : list (string * list string);
  proposed : list (string * list string);
  approved : list (string * list (string * list string));
  fired : list notification
}.

Definition newTransaction (walletAddress : string)
    (prevTxsMap : list (string * PendingTransaction))
    (tx : PendingTransaction) (t : tracking) : tracking :=
let txHashLower := toLowerCase (hash tx) in
let '(found, tracker) := LRUMap.get (toLowerCase walletAddress) (proposed t) in
let walletProposedSet := default [] found in
if bool_decide (0 < JSMap.size prevTxsMap) && negb (JSSet.has txHashLower walletProposedSet) then
  Tracking (ready t)
    (LRUMap.set MAX_TRACKED_WALLETS (toLowerCase walletAddress)
       (JSSet.add txHashLower walletProposedSet) tracker)
    (approved t) (fired t ++ [TransactionProposed (hash tx)])
else Tracking (ready t) tracker (approved t) (fired t).

Definition readyToExecute (walletAddress : string)
    (prevTx tx : PendingTransaction) (t : tracking) : tracking :=
let txHashLower := toLowerCase (hash tx) in
let wasReady := (threshold prevTx <=? numApprovals prevTx)%Z in
let isReady := (threshold tx <=? numApprovals tx)%Z in
let '(found, tracker) := LRUMap.get (toLowerCase walletAddress) (ready t) in
let walletReadySet := default [] found in
if negb wasReady && isReady && negb (JSSet.has txHashLower walletReadySet) then
  Tracking
    (LRUMap.set MAX_TRACKED_WALLETS (toLowerCase walletAddress)
       (JSSet.add txHashLower walletReadySet) tracker)
    (proposed t) (approved t) (fired t ++ [TransactionReady (hash tx)])
else Tracking tracker (proposed t) (approved t) (fired t).

Definition approvalChanges (connectedAddress : option string)
    (walletAddress : string) (prevTx tx : PendingTransaction)
    (t : tracking) : tracking :=
match connectedAddress with
| Some connected =>
    if truthy connected then
      let txHashLower := toLowerCase (hash tx) in
      let prevApprovals := approvers (approvals prevTx) in
      let currentApprovals := approvers (approvals tx) in
      let others (addr : string) : Prop := toLowerCase addr ≠ toLowerCase connected in
      let newApprovers :=
        filter (λ addr, (addr ∉ prevApprovals) ∧ others addr) currentApprovals in
      let t1 :=
        match newApprovers with
        | [] => t
        | _ :: _ =>
            let normalizedWallet := toLowerCase walletAddress in
            let '(found, tracker) := LRUMap.get normalizedWallet (approved t) in
            let '(walletApprovals, tracker1) :=
              match found with
              | Some walletApprovals => (walletApprovals, tracker)
              | None => ([], LRUMap.set MAX_TRACKED_WALLETS normalizedWallet [] tracker)
              end in
            let notifiedSet := default [] (JSMap.get txHashLower walletApprovals) in
            let '(notifiedSet', new) :=
              foldl (λ '(set, out) approver,
                       if JSSet.has (toLowerCase approver) set then (set, out)
                       else (JSSet.add (toLowerCase approver) set,
                             out ++ [TransactionApproved approver (hash tx)]))
                (notifiedSet, []) newApprovers in
            (* [walletApprovals.set(..)] mutates the map held by the tracker *)
            let walletApprovals' := JSMap.set txHashLower notifiedSet' walletApprovals in
            let tracker2 :=
              if JSMap.has normalizedWallet tracker1
              then JSMap.set normalizedWallet walletApprovals' tracker1
              else tracker1 in
            Tracking (ready t) (proposed t) tracker2 (fired t ++ new)
        end in
      let revokedApprovers :=
        filter (λ addr, (addr ∉ currentApprovals) ∧ others addr) prevApprovals in
      Tracking (ready t1) (proposed t1) (approved t1)
        (fired t1 ++ ((λ revoker, ApprovalRevoked revoker (hash tx)) <$> revokedApprovers))
    else t
| None => t
end.

(** The body of [pendingTransactions.forEach]. *)
Definition observe (connectedAddress : option string) (walletAddress : string)
    (prevTxsMap : list (string * PendingTransaction))
    (acc : list (string * PendingTransaction) * tracking)
    (tx : PendingTransaction) : list (string * PendingTransaction) * tracking :=
let '(currentTxsMap, t) := acc in
let txHashLower := toLowerCase (hash tx) in
(JSMap.set txHashLower tx currentTxsMap,
 match JSMap.get txHashLower prevTxsMap with
 | None => newTransaction walletAddress prevTxsMap tx t
 | Some prevTx =>
     approvalChanges connectedAddress walletAddress prevTx tx
       (readyToExecute walletAddress prevTx tx t)
 end).

Definition pendingEffect (connectedAddress : option string)
    (walletAddress : string) (pendingTransactions : list PendingTransaction)
    (s : state) : state :=
if truthy walletAddress then
  let prevTxsMap := default [] (JSMap.get walletAddress (prevPendingTxsRef s)) in
  let '(currentTxsMap, t) :=
    foldl (observe connectedAddress walletAddress prevTxsMap)
      ([], Tracking (notifiedReadyTxs s) (notifiedProposedTxs s)
             (notifiedApprovals s) [])
      pendingTransactions in
  State (lastNotifiedBalances s) (ready t) (proposed t) (approved t)
    (prevBalancesRef s)
    (JSMap.set walletAddress currentTxsMap (prevPendingTxsRef s))
    (notifications s ++ fired t)
else s.

(** *** Runs of the two effects

    React runs an effect again when the data it depends on changed; a hook
    instance sees a sequence of such runs. *)
Inductive update : Type :=
| WalletInfoLoaded (walletAddress : string) (balance : Z)
| PendingLoaded (connectedAddress : option string) (walletAddress : string)
    (pendingTransactions : list PendingTransaction).

Definition apply_update (s : state) (u : update) : state :=
match u with
| WalletInfoLoaded w balance => balanceEffect w balance s
| PendingLoaded connected w txs => pendingEffect connected w txs s
end.

Definition run (us : list update) : state := foldl apply_update init us.

(** The balance rule in one expression: the increase to report, if any. *)
Definition balance_increase (prevBalance lastNotifiedBalance : option Z)
    (currentBalance : Z) : option Z :=
match prevBalance with
| Some prev =>
    if (prev <? currentBalance)%Z &&
       negb (bool_decide (lastNotifiedBalance = Some currentBalance))
    then Some (currentBalance - prev)%Z else None
| None => None
end.

(** A wallet with a last notified balance has a previous balance, and it
    is not above the notified one. *)
Definition balances_tracked (s : state) : Prop :=
JSMap.wf (lastNotifiedBalances s) ∧
∀ w X, JSMap.get w (lastNotifiedBalances s) = Some X →
       ∃ P, JSMap.get w (prevBalancesRef s) = Some P ∧ (P ≤ X)%Z.

(** The map the loop builds in [currentTxsMap]. *)
Definition index_by_hash (txs : list PendingTransaction)
    (m : list (string * PendingTransaction)) : list (string * PendingTransaction) :=
foldl (λ m tx, JSMap.set (toLowerCase (hash tx)) tx m) m txs.

(** A run of pending-transaction effects of one wallet. *)
Definition pending_updates (walletAddress : string)
    (loads : list (option string * list PendingTransaction)) : list update :=
(λ l, PendingLoaded l.1 walletAddress l.2) <$> loads.

Definition is_ready (tx : PendingTransaction) : bool :=
(threshold tx <=? numApprovals tx)%Z.

(** The hashes already notified for a wallet, as the loop body reads them:
    [tracker.get(walletAddress.toLowerCase()) ?? new Set()]. *)
Definition notified_set (walletAddress : string)
    (tracker : list (string * list string)) : list string :=
default [] (JSMap.get (toLowerCase walletAddress) tracker).

(** Neither a proposal nor a ready notification. *)
Definition approval_notice (n : notification) : Prop :=
match n with
| TransactionApproved _ _ | ApprovalRevoked _ _ => True
| _ => False
end.

(** The approval count of the transaction with lower-case hash [h] crosses
    its threshold between two consecutive runs: the earlier run stored it
    below the threshold, the later run meets it at or above. *)
Definition crosses (h : string)
    (loads : list (option string * list PendingTransaction)) : Prop :=
∃ i l1 l2 prevTx tx,
  loads !! i = Some l1 ∧ loads !! S i = Some l2 ∧
  JSMap.get h (index_by_hash l1.2 []) = Some prevTx ∧ is_ready prevTx = false ∧
  tx ∈ l2.2 ∧ toLowerCase (hash tx) = h ∧ is_ready tx = true.

(** One if the hash is recorded, zero if not. *)
Definition recorded (h : string) (set : list string) : nat :=
if JSSet.has h set then 1 else 0.

(** The two hash trackers of the pending effect never hold a wallet twice. *)
Definition trackers_wf (s : state) : Prop :=
JSMap.wf (notifiedReadyTxs s) ∧ JSMap.wf (notifiedProposedTxs s).

(** *** Reading the notification log *)
Definition is_vault_received (walletAddress : string) (n : notification) : bool :=
match n with
| VaultReceived w _ _ => bool_decide (w = walletAddress)
| _ => false
end.


(** A ready notification of the transaction with lower-case hash [h]. *)
Definition is_ready_for (h : string) (n : notification) : bool :=
match n with
| TransactionReady h' => bool_decide (toLowerCase h' = h)
| _ => false
end.

Definition count_of (f : notification → bool) (ns : list notification) : nat :=
length (filter (λ n, f n = true) ns).

End Notifications.

(** ** The other trackers of the hook (useMultisig.ts, lines 68-110,
       173-194, 256-325, 367-410, 713-796, 841-855)

    Around the state of [Notifications] the hook keeps the trackers of
    executed and cancelled transactions, of owners, thresholds and module
    statuses, the count of hook instances watching each wallet, and the
    previous wallet info of the instance.  The notifications of the
    effects modelled here are logged in [notices]; the log of
    [Notifications] keeps the five kinds of the balance and pending
    effects.  Calls of [invalidateQueries] are outside this state. *)
Module WalletTracking.
Import Transactions Notifications.

Inductive notice : Type :=
| OwnerAdded (owner : string)
| OwnerRemoved (owner : string)
| ThresholdChanged (prevThreshold currentThreshold : Z)
| ModuleEnabled (moduleAddress : string)
| ModuleDisabled (moduleAddress : string)
| TransactionExecuted (txHash : string)
| TransactionCancelled (txHash : string)
| ProposalSucceeded (txHash : option string).

Record state : Type := State {
  core : Notifications.state;
  notifiedExecutedTxs : list (string * list string);
  notifiedCancelledTxs : list (string * list string);
  lastNotifiedOwners : list (string * string);
  lastNotifiedThresholds : list (string * Z);
  lastNotifiedModuleStatus : list (string * list (string * bool));
  activeWalletSubscriptions : list (string * nat);          (* Map<string, number> *)
  prevWalletInfoRef : list (string * (list string * Z));    (* { owners, threshold } *)
  notices : list notice
}.

Definition init : state := State Notifications.init [] [] [] [] [] [] [] [].

Definition with_core (f : Notifications.state → Notifications.state) (s : state) : state :=
State (f (core s)) (notifiedExecutedTxs s) (notifiedCancelledTxs s) (lastNotifiedOwners s)
  (lastNotifiedThresholds s) (lastNotifiedModuleStatus s) (activeWalletSubscriptions s)
  (prevWalletInfoRef s) (notices s).

(** *** Wallet info: owners and threshold (lines 256-325) *)

(** [Array.prototype.sort()] on strings: ascending by code units. *)
Definition code_unit_le (a b : string) : Prop := String.leb a b = true.

#[global] Instance code_unit_le_dec a b : Decision (code_unit_le a b).
Proof. unfold code_unit_le. apply _. Defined.

Definition sort (l : list string) : list string := merge_sort code_unit_le l.

(** [owners.join(',')] *)
Definition join (l : list string) : string := String.concat ","%string l.

Definition ownersEffect (walletAddress : string) (prevInfoOwners walletInfoOwners : list string)
    (tracker : list (string * string)) : list (string * string) * list notice :=
let prevOwners := sort (toLowerCase <$> prevInfoOwners) in
let currentOwners := sort (toLowerCase <$> walletInfoOwners) in
let ownersChanged :=
  negb (bool_decide (length prevOwners = length currentOwners)) ||
  bool_decide (Exists (λ o, o ∉ currentOwners) prevOwners) in
let currentOwnersKey := join currentOwners in
let '(lastNotifiedOwnersKey, tracker1) := LRUMap.get walletAddress tracker in
if ownersChanged && negb (bool_decide (lastNotifiedOwnersKey = Some currentOwnersKey)) then
  let addedOwners := filter (λ addr, addr ∉ prevOwners) currentOwners in
  let removedOwners := filter (λ addr, addr ∉ currentOwners) prevOwners in
  (LRUMap.set MAX_TRACKED_WALLETS walletAddress currentOwnersKey tracker1,
   (OwnerAdded <$> addedOwners) ++ (OwnerRemoved <$> removedOwners))
else (tracker1, []).

Definition thresholdEffect (walletAddress : string) (prevThreshold currentThreshold : Z)
    (tracker : list (string * Z)) : list (string * Z) * list notice :=
let '(lastNotifiedThreshold, tracker1) := LRUMap.get walletAddress tracker in
if negb (bool_decide (prevThreshold = currentThreshold)) &&
   negb (bool_decide (lastNotifiedThreshold = Some currentThreshold)) then
  (LRUMap.set MAX_TRACKED_WALLETS walletAddress currentThreshold tracker1,
   [ThresholdChanged prevThreshold currentThreshold])
else (tracker1, []).

(** The wallet-info effect: the balance part is [balanceEffect]. *)
Definition walletInfoEffect (walletAddress : string) (balance : Z)
    (owners : list string) (threshold : Z) (s : state) : state :=
if truthy walletAddress then
  let prevInfo := JSMap.get walletAddress (prevWalletInfoRef s) in
  let core1 := balanceEffect walletAddress balance (core s) in
  let '(ownersTracker, thresholdTracker, fired) :=
    match prevInfo with
    | Some (prevOwners, prevThreshold) =>
        let '(ownersTracker, fired1) :=
          ownersEffect walletAddress prevOwners owners (lastNotifiedOwners s) in
        let '(thresholdTracker, fired2) :=
          thresholdEffect walletAddress prevThreshold threshold (lastNotifiedThresholds s) in
        (ownersTracker, thresholdTracker, fired1 ++ fired2)
    | None => (lastNotifiedOwners s, lastNotifiedThresholds s, [])
    end in
  State core1 (notifiedExecutedTxs s) (notifiedCancelledTxs s) ownersTracker
    thresholdTracker (lastNotifiedModuleStatus s) (activeWalletSubscriptions s)
    (JSMap.set walletAddress (owners, threshold) (prevWalletInfoRef s))
    (notices s ++ fired)
else s.

(** *** Module statuses (lines 367-410)

    [moduleStatuses] is the object the query built, as its entries. *)
Definition status_change (prevStatuses : list (string * bool))
    (entry : string * bool) : option notice :=
let '(moduleAddress, isEnabled) := entry in
match JSMap.get moduleAddress prevStatuses with
| Some prevEnabled =>
    if bool_decide (prevEnabled = isEnabled) then None
    else Some (if isEnabled then ModuleEnabled moduleAddress
               else ModuleDisabled moduleAddress)
| None => None
end.

Definition moduleStatusEffect (walletAddress : string)
    (moduleStatuses : list (string * bool)) (s : state) : state :=
if truthy walletAddress then
  let '(found, tracker) := LRUMap.get walletAddress (lastNotifiedModuleStatus s) in
  let prevStatuses := default [] found in
  State (core s) (notifiedExecutedTxs s) (notifiedCancelledTxs s) (lastNotifiedOwners s)
    (lastNotifiedThresholds s)
    (LRUMap.set MAX_TRACKED_WALLETS walletAddress moduleStatuses tracker)
    (activeWalletSubscriptions s) (prevWalletInfoRef s)
    (notices s ++ omap (status_change prevStatuses) moduleStatuses)
else s.

(** *** Executed and cancelled transactions (lines 713-796) *)

(** The loop both effects run over the list they were given; [notify]
    builds the notification of the effect. *)
(** [prevPendingTxsRef.current.get(walletAddress)?.has(txHashLower)] *)
Definition was_pending (prevPending : option (list (string * PendingTransaction)))
    (txHashLower : string) : bool :=
match prevPending with
| Some m => JSMap.has txHashLower m
| None => false
end.

Definition history_loop (notify : string → notice)
    (prevPending : option (list (string * PendingTransaction)))
    (acc : list string * list notice) (tx : PendingTransaction) :
    list string * list notice :=
let '(walletSet, out) := acc in
let txHashLower := toLowerCase (hash tx) in
if JSSet.has txHashLower walletSet then (walletSet, out)
else
  let wasPending := was_pending prevPending txHashLower in
  (JSSet.add txHashLower walletSet,
   if wasPending then out ++ [notify (hash tx)] else out).

Definition historyEffect (notify : string → notice) (walletAddress : string)
    (transactions : list PendingTransaction)
    (prevPendingTxs : list (string * list (string * PendingTransaction)))
    (tracker : list (string * list string)) :
    list (string * list string) * list notice :=
let normalizedWallet := toLowerCase walletAddress in
let '(found, tracker1) := LRUMap.get normalizedWallet tracker in
let '(walletSet, fired) :=
  foldl (history_loop notify (JSMap.get walletAddress prevPendingTxs))
    (default [] found, []) transactions in
(LRUMap.set MAX_TRACKED_WALLETS normalizedWallet walletSet tracker1, fired).

Definition executedEffect (walletAddress : string)
    (executedTransactions : list PendingTransaction) (s : state) : state :=
if truthy walletAddress then
  let '(tracker, fired) :=
    historyEffect TransactionExecuted walletAddress executedTransactions
      (prevPendingTxsRef (core s)) (notifiedExecutedTxs s) in
  State (core s) tracker (notifiedCancelledTxs s) (lastNotifiedOwners s)
    (lastNotifiedThresholds s) (lastNotifiedModuleStatus s) (activeWalletSubscriptions s)
    (prevWalletInfoRef s) (notices s ++ fired)
else s.

Definition cancelledEffect (walletAddress : string)
    (cancelledTransactions : list PendingTransaction) (s : state) : state :=
if truthy walletAddress then
  let '(tracker, fired) :=
    historyEffect TransactionCancelled walletAddress cancelledTransactions
      (prevPendingTxsRef (core s)) (notifiedCancelledTxs s) in
  State (core s) (notifiedExecutedTxs s) tracker (lastNotifiedOwners s)
    (lastNotifiedThresholds s) (lastNotifiedModuleStatus s) (activeWalletSubscriptions s)
    (prevWalletInfoRef s) (notices s ++ fired)
else s.

(** *** [proposeTransaction.onSuccess] (lines 841-855) *)
Definition mark_proposed (txHash walletAddress : string)
    (c : Notifications.state) : Notifications.state :=
let normalizedWallet := toLowerCase walletAddress in
let '(found, tracker) := LRUMap.get normalizedWallet (notifiedProposedTxs c) in
let walletProposedSet := JSSet.add (toLowerCase txHash) (default [] found) in
Notifications.State (lastNotifiedBalances c) (notifiedReadyTxs c)
  (LRUMap.set MAX_TRACKED_WALLETS normalizedWallet walletProposedSet tracker)
  (notifiedApprovals c) (prevBalancesRef c) (prevPendingTxsRef c) (notifications c).

Definition proposeSucceeded (txHash : option string) (walletAddress : string)
    (s : state) : state :=
let s1 :=
  match txHash with
  | Some h => if truthy h then with_core (mark_proposed h walletAddress) s else s
  | None => s
  end in
State (core s1) (notifiedExecutedTxs s1) (notifiedCancelledTxs s1) (lastNotifiedOwners s1)
  (lastNotifiedThresholds s1) (lastNotifiedModuleStatus s1) (activeWalletSubscriptions s1)
  (prevWalletInfoRef s1) (notices s1 ++ [ProposalSucceeded txHash]).

(** *** Watching instances and [cleanupWalletState] (lines 94-110, 173-194) *)
Definition cleanupWalletState (walletAddress : string) (s : state) : state :=
let normalizedAddress := toLowerCase walletAddress in
let c := core s in
State
  (Notifications.State
     (LRUMap.delete normalizedAddress (lastNotifiedBalances c))
     (LRUMap.delete normalizedAddress (notifiedReadyTxs c))
     (LRUMap.delete normalizedAddress (notifiedProposedTxs c))
     (LRUMap.delete normalizedAddress (notifiedApprovals c))
     (prevBalancesRef c) (prevPendingTxsRef c) (notifications c))
  (LRUMap.delete normalizedAddress (notifiedExecutedTxs s))
  (LRUMap.delete normalizedAddress (notifiedCancelledTxs s))
  (LRUMap.delete normalizedAddress (lastNotifiedOwners s))
  (LRUMap.delete normalizedAddress (lastNotifiedThresholds s))
  (LRUMap.delete normalizedAddress (lastNotifiedModuleStatus s))
  (activeWalletSubscriptions s) (prevWalletInfoRef s) (notices s).

Definition with_subscriptions (m : list (string * nat)) (s : state) : state :=
State (core s) (notifiedExecutedTxs s) (notifiedCancelledTxs s) (lastNotifiedOwners s)
  (lastNotifiedThresholds s) (lastNotifiedModuleStatus s) m
  (prevWalletInfoRef s) (notices s).

(** The effect body on mount. *)
Definition watch (walletAddress : string) (s : state) : state :=
if truthy walletAddress then
  let normalizedAddress := toLowerCase walletAddress in
  let count := default 0 (JSMap.get normalizedAddress (activeWalletSubscriptions s)) in
  with_subscriptions
    (JSMap.set normalizedAddress (count + 1) (activeWalletSubscriptions s)) s
else s.

(** The function the effect returned, called on unmount. *)
Definition unwatch (walletAddress : string) (s : state) : state :=
if truthy walletAddress then
  let normalizedAddress := toLowerCase walletAddress in
  let count := default 1 (JSMap.get normalizedAddress (activeWalletSubscriptions s)) in
  if decide (count ≤ 1) then
    cleanupWalletState normalizedAddress
      (with_subscriptions (JSMap.delete normalizedAddress (activeWalletSubscriptions s)) s)
  else
    with_subscriptions
      (JSMap.set normalizedAddress (count - 1) (activeWalletSubscriptions s)) s
else s.

(** *** What a hook instance goes through *)
Inductive event : Type :=
| Watched (walletAddress : string)
| Unwatched (walletAddress : string)
| WalletInfo (walletAddress : string) (balance : Z) (owners : list string) (threshold : Z)
| ModuleStatuses (walletAddress : string) (moduleStatuses : list (string * bool))
| Pending (connectedAddress : option string) (walletAddress : string)
    (pendingTransactions : list PendingTransaction)
| Executed (walletAddress : string) (executedTransactions : list PendingTransaction)
| Cancelled (walletAddress : string) (cancelledTransactions : list PendingTransaction)
| Proposed (txHash : option string) (walletAddress : string).

Definition handle (s : state) (e : event) : state :=
match e with
| Watched w => watch w s
| Unwatched w => unwatch w s
| WalletInfo w balance owners threshold => walletInfoEffect w balance owners threshold s
| ModuleStatuses w statuses => moduleStatusEffect w statuses s
| Pending connected w txs => with_core (pendingEffect connected w txs) s
| Executed w txs => executedEffect w txs s
| Cancelled w txs => cancelledEffect w txs s
| Proposed txHash w => proposeSucceeded txHash w s
end.

Definition run (events : list event) : state := foldl handle init events.

(** A new instance of the hook is mounted: its three [useRef] maps (lines
    157-163) start empty, while the module-level trackers, the watch
    counts and the notifications shown are what they were. *)
Definition remount (s : state) : state :=
let c := core s in
State
  (Notifications.State (lastNotifiedBalances c) (notifiedReadyTxs c)
     (notifiedProposedTxs c) (notifiedApprovals c) [] [] (notifications c))
  (notifiedExecutedTxs s) (notifiedCancelledTxs s) (lastNotifiedOwners s)
  (lastNotifiedThresholds s) (lastNotifiedModuleStatus s) (activeWalletSubscriptions s)
  [] (notices s).

(** *** Reading the notices *)
Definition is_executed_for (h : string) (n : notice) : bool :=
match n with
| TransactionExecuted h' => bool_decide (toLowerCase h' = h)
| _ => false
end.

Definition is_cancelled_for (h : string) (n : notice) : bool :=
match n with
| TransactionCancelled h' => bool_decide (toLowerCase h' = h)
| _ => false
end.

Definition is_threshold_change (n : notice) : bool :=
match n with
| ThresholdChanged _ _ => true
| _ => false
end.


(** A proposal notification of the transaction with lower-case hash [h]. *)
Definition is_proposal_for (h : string) (n : notification) : bool :=
match n with
| TransactionProposed h' => bool_decide (toLowerCase h' = h)
| _ => false
end.

(** Every tracker holds a wallet at most once. *)
Definition core_wf (c : Notifications.state) : Prop :=
Notifications.trackers_wf c ∧
JSMap.wf (lastNotifiedBalances c) ∧ JSMap.wf (notifiedApprovals c).

Definition trackers_wf (s : state) : Prop :=
core_wf (core s) ∧
JSMap.wf (notifiedExecutedTxs s) ∧ JSMap.wf (notifiedCancelledTxs s) ∧
JSMap.wf (lastNotifiedOwners s) ∧ JSMap.wf (lastNotifiedThresholds s) ∧
JSMap.wf (lastNotifiedModuleStatus s) ∧ JSMap.wf (activeWalletSubscriptions s).

(** The entry of [k] is gone and every other entry is as before. *)
Definition forgotten {V} (k : string) (before after : list (string * V)) : Prop :=
JSMap.get k after = None ∧ ∀ k', k' ≠ k → JSMap.get k' after = JSMap.get k' before.

(** Every wallet listed is watched by at least one instance. *)
Definition counts_positive (s : state) : Prop :=
∀ k n, JSMap.get k (activeWalletSubscriptions s) = Some n → 0 < n.

(** The threshold last notified for a wallet is the threshold last seen
    for it. *)
Definition thresholds_tracked (s : state) : Prop :=
JSMap.wf (lastNotifiedThresholds s) ∧
∀ w X, JSMap.get w (lastNotifiedThresholds s) = Some X →
       ∃ owners, JSMap.get w (prevWalletInfoRef s) = Some (owners, X).


End WalletTracking.

(** ** [IndexerSubscriptionService] (SETUP.md, lines 935-1041)

    One realtime channel per channel name, a reconnect counter per channel
    name, and the timers [handleReconnect] has set.  The [channels] map is
    iterated by [unsubscribeAll]: its entries are kept with the order in
    which its keys were inserted, which [set] on a present key does not
    change.  The delays are whole numbers of milliseconds; with at most
    [maxReconnectAttempts] doublings [Math.pow] is exact on them. *)
Module SubscriptionService.

Definition maxReconnectAttempts : nat := 5.
Definition reconnectDelayMs : Z := 1000.

(** The statuses a channel reports to the callback given to [subscribe]. *)
Inductive status : Type := SUBSCRIBED | CHANNEL_ERROR | TIMED_OUT | CLOSED.

Inductive effect : Type :=
| ChannelOpened (channelName : string) (channel : nat)
| ChannelRemoved (channel : nat)
| ErrorReported (callback : nat) (attempts : nat).
  (* onError(new Error(`Failed to reconnect after ${attempts} attempts`)) *)

Record service : Type := Service {
  channels : gmap string nat;             (* Map<string, RealtimeChannel> *)
  channelNames : list string;             (* its keys, in insertion order *)
  reconnectAttempts : gmap string nat;    (* Map<string, number> *)
  timers : list (string * Z);             (* setTimeout: channel name, delay *)
  opened : nat;                           (* channel objects made so far *)
  effects : list effect
}.

Definition create : service := Service ∅ [] ∅ [] 0 [].

(** The inner [subscribe] closure: a new channel under the same name. *)
Definition subscribe (channelName : string) (s : service) : service :=
Service (<[channelName := opened s]> (channels s))
  (JSSet.add channelName (channelNames s)) (reconnectAttempts s)
  (timers s) (S (opened s))
  (effects s ++ [ChannelOpened channelName (opened s)]).

Definition retry_delay (attempts : nat) : Z :=
(reconnectDelayMs * 2 ^ Z.of_nat attempts)%Z.

Definition handleReconnect (channelName : string) (onError : option nat)
    (s : service) : service :=
let attempts := default 0 (reconnectAttempts s !! channelName) in
if decide (maxReconnectAttempts ≤ attempts) then
  match onError with
  | Some callback =>
      Service (channels s) (channelNames s) (reconnectAttempts s) (timers s) (opened s)
        (effects s ++ [ErrorReported callback attempts])
  | None => s
  end
else
  let delay := retry_delay attempts in
  Service (channels s) (channelNames s) (<[channelName := attempts + 1]> (reconnectAttempts s))
    (timers s ++ [(channelName, delay)]) (opened s) (effects s).

(** The callback passed to [.subscribe((status) => ...)]. *)
Definition on_status (channelName : string) (onError : option nat)
    (st : status) (s : service) : service :=
match st with
| SUBSCRIBED =>
    Service (channels s) (channelNames s) (<[channelName := 0]> (reconnectAttempts s))
      (timers s) (opened s) (effects s)
| CHANNEL_ERROR | TIMED_OUT => handleReconnect channelName onError s
| CLOSED => s
end.

(** A timer set by [handleReconnect] fires: the old channel is removed
    and [subscribe] runs again. *)
Definition timer_fires (channelName : string) (s : service) : service :=
let s' :=
  match channels s !! channelName with
  | Some oldChannel =>
      Service (channels s) (channelNames s) (reconnectAttempts s) (timers s) (opened s)
        (effects s ++ [ChannelRemoved oldChannel])
  | None => s
  end in
subscribe channelName s'.

(** The closure [subscribeToTransactions] returns. *)
Definition unsubscribe (channelName : string) (s : service) : service :=
match channels s !! channelName with
| Some channel =>
    Service (delete channelName (channels s))
      (JSSet.delete channelName (channelNames s))
      (delete channelName (reconnectAttempts s)) (timers s) (opened s)
      (effects s ++ [ChannelRemoved channel])
| None => s
end.

Definition failure (st : status) : Prop := st = CHANNEL_ERROR ∨ st = TIMED_OUT.

(** The delays of the timers set since [before]. *)
Definition delays_since (before after : service) : list Z :=
(drop (length (timers before)) (timers after)).*2.

Definition getActiveSubscriptionCount (s : service) : nat := size (channels s).

(** [unsubscribeAll]: every channel of the map is removed, in the
    insertion order of the names, then both maps are cleared. *)
Definition unsubscribeAll (s : service) : service :=
Service ∅ [] ∅ (timers s) (opened s)
  (effects s ++
   (ChannelRemoved <$> omap (λ channelName, channels s !! channelName) (channelNames s))).

(** What happens to the service: a consumer subscribes or unsubscribes, a
    channel reports a status, a reconnect timer fires. *)
Inductive event : Type :=
| Subscribe (channelName : string)
| Status (channelName : string) (onError : option nat) (st : status)
| TimerFires (channelName : string)
| Unsubscribe (channelName : string)
| UnsubscribeAll.

Definition handle (s : service) (e : event) : service :=
match e with
| Subscribe channelName => subscribe channelName s
| Status channelName onError st => on_status channelName onError st s
| TimerFires channelName => timer_fires channelName s
| Unsubscribe channelName => unsubscribe channelName s
| UnsubscribeAll => unsubscribeAll s
end.

Definition run (es : list event) : service := foldl handle create es.

(** The channels removed, as the log has them. *)
Definition removed (es : list effect) : list nat :=
omap (λ e, match e with ChannelRemoved ch => Some ch | _ => None end) es.

Definition is_last_attempt (e : effect) : Prop :=
match e with
| ErrorReported _ attempts => attempts = maxReconnectAttempts
| _ => True
end.

(** The errors reported to the consumers. *)
Definition is_error (e : effect) : bool :=
match e with
| ErrorReported _ _ => true
| _ => false
end.

Definition errors (es : list effect) : list effect :=
filter (λ e, is_error e = true) es.

(** What happens between two [SUBSCRIBED] of a channel name that keeps
    failing: its channels report a failure, the timers set for it fire. *)
Definition is_retry (channelName : string) (onError : option nat) (e : event) : Prop :=
match e with
| Status name callback st => name = channelName ∧ callback = onError ∧ failure st
| TimerFires name => name = channelName
| _ => False
end.

Definition is_status (e : event) : bool :=
match e with
| Status _ _ _ => true
| _ => false
end.

(** The failures reported in a sequence of such events. *)
Definition failures (es : list event) : nat :=
length (filter (λ e, is_status e = true) es).

(** The names listed are the keys of the map, each once. *)
Definition names_tracked (s : service) : Prop :=
NoDup (channelNames s) ∧
∀ channelName, channelName ∈ channelNames s ↔ is_Some (channels s !! channelName).

Definition within_limits (s : service) : Prop :=
(∀ channelName a,
   reconnectAttempts s !! channelName = Some a → a ≤ maxReconnectAttempts) ∧
Forall (λ t, (reconnectDelayMs ≤ t.2 ≤ 16 * reconnectDelayMs)%Z) (timers s) ∧
Forall is_last_attempt (effects s).

End SubscriptionService.

(** The [n] most recent entries of a list kept oldest-first. *)
Definition lastn {A} (n : nat) (l : list A) : list A := drop (length l - n) l.

(** Moving a key to the most-recent end. *)
Definition touch `{EqDecision K} (k : K) (ks : list K) : list K :=
  filter (λ k', k' ≠ k) ks ++ [k].

(* ===================================================================== *)
(** * Part II: properties                                                 *)
(* ===================================================================== *)

(** ** Lists: the most recent suffix *)
Section lastn.
Context {A : Type}.
Implicit Types (l : list A).

Lemma lastn_length n l : length (lastn n l) = length l `min` n.
Proof. unfold lastn. rewrite length_drop. lia. Qed.

Lemma lastn_all n l : length l ≤ n → lastn n l = l.
Proof. intros. unfold lastn. by replace (length l - n) with 0 by lia. Qed.

Lemma lastn_app_ge n l1 l2 : n ≤ length l2 → lastn n (l1 ++ l2) = lastn n l2.
Proof.
  intros. unfold lastn. rewrite length_app, drop_app_ge by lia.
  f_equal. lia.
Qed.

Lemma lastn_cons_gt n x l : n ≤ length l → lastn n (x :: l) = lastn n l.
Proof. intros. by apply (lastn_app_ge n [x] l). Qed.

Lemma lastn_split n l : l = take (length l - n) l ++ lastn n l.
Proof. unfold lastn. by rewrite take_drop. Qed.
End lastn.

(** ** JavaScript [Map] *)
Module JSMapFacts.
Import JSMap.
Section JSMapFacts.
Context {K V : Type} `{EqDecision K}.
Implicit Types (m : JSMap.t K V) (k : K) (v : V) (n : nat).

Lemma get_None k m : JSMap.get k m = None ↔ k ∉ keys m.
Proof.
  unfold keys. induction m as [|[k' v'] m IH]; cbn.
  - split; [intros _; apply not_elem_of_nil|done].
  - rewrite not_elem_of_cons. destruct (decide (k' = k)) as [->|Hne].
    + split; [done|]. by intros [? _].
    + rewrite IH. split; [intros ?; split; [congruence|done]|by intros [_ ?]].
Qed.

Lemma get_Some_elem k v m : JSMap.get k m = Some v → (k, v) ∈ m.
Proof.
  induction m as [|[k' v'] m IH]; cbn; [done|].
  destruct (decide (k' = k)) as [->|]; intros ?; simplify_eq.
  - apply list_elem_of_here.
  - apply list_elem_of_further; auto.
Qed.

Lemma has_true k m : has k m = true ↔ k ∈ keys m.
Proof.
  unfold has. rewrite bool_decide_eq_true.
  destruct (JSMap.get k m) eqn:E.
  - split; [intros _|by eauto].
    destruct (decide (k ∈ keys m)) as [|Hn]; [done|].
    apply get_None in Hn. congruence.
  - apply get_None in E. split; [intros []; done|done].
Qed.

Lemma filter_other_absent k m : k ∉ keys m → filter (other k) m = m.
Proof.
  unfold keys. induction m as [|[k' v'] m IH]; [done|].
  rewrite fmap_cons, not_elem_of_cons. intros [Hne Hm].
  rewrite filter_cons_True by (intros ?; by apply Hne).
  by rewrite IH.
Qed.

Lemma delete_filter k m : wf m → JSMap.delete k m = filter (other k) m.
Proof.
  unfold wf, keys. induction m as [|[k' v'] m IH]; [done|].
  rewrite fmap_cons, NoDup_cons. intros [Hk' Hm]. cbn [JSMap.delete].
  destruct (decide (k' = k)) as [->|Hne].
  - rewrite filter_cons_False by (intros Hk; by apply Hk).
    symmetry. by apply filter_other_absent.
  - rewrite filter_cons_True by done. by rewrite IH.
Qed.

Lemma keys_filter_other k m : keys (filter (other k) m) = filter (λ k', k' ≠ k) (keys m).
Proof.
  unfold keys. induction m as [|[k' v'] m IH]; [done|].
  rewrite fmap_cons. cbn [fst].
  destruct (decide (k' = k)) as [->|Hne].
  - rewrite !filter_cons_False; [done|by intros Hk|by intros Hk].
  - rewrite !filter_cons_True by done. by rewrite fmap_cons, IH.
Qed.

Lemma filter_other_gone k m : k ∉ keys (filter (other k) m).
Proof.
  rewrite keys_filter_other, list_elem_of_filter. by intros [? _].
Qed.

Lemma wf_filter (P : K * V → Prop) `{!∀ x, Decision (P x)} m :
  wf m → wf (filter P m).
Proof.
  unfold wf, keys. induction m as [|[k' v'] m IH]; [done|].
  rewrite fmap_cons, NoDup_cons. intros [Hk' Hm].
  rewrite filter_cons. destruct (decide (P (k', v'))); [|by auto].
  rewrite fmap_cons, NoDup_cons. split; [|by auto].
  intros Hin. apply Hk'. cbn [fst] in *.
  apply list_elem_of_fmap in Hin as ([k2 v2] & -> & Hin%list_elem_of_filter).
  apply list_elem_of_fmap. exists (k2, v2). by destruct Hin.
Qed.

Lemma set_absent k v m : k ∉ keys m → JSMap.set k v m = m ++ [(k, v)].
Proof.
  unfold keys. induction m as [|[k' v'] m IH]; [done|].
  rewrite fmap_cons, not_elem_of_cons. cbn [fst JSMap.set]. intros [Hne Hm].
  rewrite decide_False by congruence. by rewrite IH.
Qed.


Lemma get_app k m1 m2 :
  JSMap.get k (m1 ++ m2) =
  match JSMap.get k m1 with Some v => Some v | None => JSMap.get k m2 end.
Proof.
induction m1 as [|[k' v'] m1 IH]; [done|]. cbn [app JSMap.get].
by case_decide.
Qed.

Lemma get_filter_other k k' m :
  k' ≠ k → JSMap.get k' (filter (other k) m) = JSMap.get k' m.
Proof.
intros Hne. induction m as [|[k1 v1] m IH]; [done|].
destruct (decide (k1 = k)) as [->|Hk1].
- rewrite filter_cons_False by (by intros ?). cbn [JSMap.get].
  by rewrite decide_False.
- rewrite filter_cons_True by done. cbn [JSMap.get]. by rewrite IH.
Qed.

Lemma get_filter_other_same k m : JSMap.get k (filter (other k) m) = None.
Proof. apply get_None, filter_other_gone. Qed.

Lemma get_set_eq k v m : JSMap.get k (JSMap.set k v m) = Some v.
Proof.
induction m as [|[k' v'] m IH]; cbn [JSMap.set JSMap.get].
- by rewrite decide_True.
- case_decide; cbn [JSMap.get]; [by rewrite decide_True|].
  by rewrite decide_False.
Qed.

Lemma get_set_ne k k' v m : k' ≠ k → JSMap.get k' (JSMap.set k v m) = JSMap.get k' m.
Proof.
intros Hne. induction m as [|[k1 v1] m IH]; cbn [JSMap.set JSMap.get].
- by rewrite decide_False.
- destruct (decide (k1 = k)) as [->|]; cbn [JSMap.get].
  + by rewrite !decide_False.
  + by rewrite IH.
Qed.

Lemma get_Some_iff k v m : wf m → JSMap.get k m = Some v ↔ (k, v) ∈ m.
Proof.
intros Hwf. split; [apply get_Some_elem|].
unfold wf, keys in Hwf. induction m as [|[k' v'] m IH]; [by intros ?%elem_of_nil|].
rewrite fmap_cons, NoDup_cons in Hwf. destruct Hwf as [Hk' Hm].
cbn [JSMap.get]. intros [Heq|Hin]%elem_of_cons.
- injection Heq as -> ->. by rewrite decide_True.
- rewrite decide_False; [by apply IH|]. intros ->. apply Hk'.
  apply list_elem_of_fmap. by exists (k, v).
Qed.

Lemma wf_set_map k v m : wf m → wf (JSMap.set k v m).
Proof.
unfold wf, keys. induction m as [|[k' v'] m IH]; cbn [JSMap.set].
- intros _. apply NoDup_singleton.
- rewrite fmap_cons, NoDup_cons. cbn [fst]. intros [Hk' Hm].
  case_decide as Hk; [subst k'|]; rewrite fmap_cons, NoDup_cons; cbn [fst]; [done|].
  split; [|by apply IH]. intros Hin. apply Hk'.
  apply list_elem_of_fmap in Hin as ([k2 v2] & -> & Hin). cbn [fst] in *.
  clear -Hin Hk. induction m as [|[k3 v3] m IH]; cbn [JSMap.set] in Hin.
  + apply list_elem_of_singleton in Hin. congruence.
  + rewrite fmap_cons. cbn [fst]. case_decide as Hk3.
    * apply elem_of_cons in Hin as [Heq|Hin]; [congruence|].
      apply list_elem_of_further, list_elem_of_fmap. by exists (k2, v2).
    * apply elem_of_cons in Hin as [Heq|Hin].
      -- injection Heq as -> ->. apply list_elem_of_here.
      -- apply list_elem_of_further. by apply IH.
Qed.
End JSMapFacts.
End JSMapFacts.

(** ** [LRUMap] *)
Module LRUMapFacts.
Import JSMap JSMapFacts.
Section LRUMapFacts.
Context {K V : Type} `{EqDecision K}.
Implicit Types (m : JSMap.t K V) (k : K) (v : V) (n : nat).

Lemma evict_lastn n m : LRUMap.evict n m = lastn n m.
Proof.
  induction m as [|x m IH]; [done|]. cbn [LRUMap.evict]. unfold size.
  case_decide as Hlt.
  - rewrite IH. cbn [length] in Hlt. symmetry. apply lastn_cons_gt. lia.
  - symmetry. apply lastn_all. lia.
Qed.

(** The two mutators in closed form: the touched entry moves to the
    most-recent end and only the [n] most recent entries are kept. *)
Lemma set_closed n k v m :
  wf m → LRUMap.set n k v m = lastn n (filter (other k) m ++ [(k, v)]).
Proof.
  intros Hwf. unfold LRUMap.set. rewrite evict_lastn. f_equal.
  destruct (has k m) eqn:Hhas.
  - rewrite delete_filter by done. apply set_absent, filter_other_gone.
  - assert (k ∉ keys m) as Hk by (rewrite <-has_true; congruence).
    rewrite filter_other_absent by done. by apply set_absent.
Qed.

Lemma get_closed k m :
  wf m →
  LRUMap.get k m =
    match JSMap.get k m with
    | Some v => (Some v, filter (other k) m ++ [(k, v)])
    | None => (None, m)
    end.
Proof.
  intros Hwf. unfold LRUMap.get. destruct (JSMap.get k m); [|done].
  rewrite delete_filter by done. f_equal. apply set_absent, filter_other_gone.
Qed.

Lemma length_delete_ge k m : length m ≤ S (length (JSMap.delete k m)).
Proof.
  induction m as [|[k' v'] m IH]; cbn [JSMap.delete length]; [lia|].
  case_decide; cbn [length]; lia.
Qed.

Lemma length_delete_present k v m :
  JSMap.get k m = Some v → S (length (JSMap.delete k m)) = length m.
Proof.
  induction m as [|[k' v'] m IH]; cbn [JSMap.get JSMap.delete length]; [done|].
  case_decide; [done|]. intros ?%IH. cbn [length]. lia.
Qed.

Lemma wf_lastn n m : wf m → wf (lastn n m).
Proof.
  unfold wf, keys, lastn. rewrite fmap_drop. intros Hnd.
  eapply sublist_NoDup; [apply Hnd|apply sublist_drop].
Qed.

Lemma wf_touch k v m : wf m → wf (filter (other k) m ++ [(k, v)]).
Proof.
  intros Hwf. unfold wf, keys. rewrite fmap_snoc. apply NoDup_app.
  split; [by apply wf_filter|]. split; [|apply NoDup_singleton].
  intros x Hx ->%list_elem_of_singleton. by apply (filter_other_gone k m).
Qed.

Lemma wf_set n k v m : wf m → wf (LRUMap.set n k v m).
Proof. intros. rewrite set_closed by done. by apply wf_lastn, wf_touch. Qed.

Lemma wf_get k m : wf m → wf (LRUMap.get k m).2.
Proof.
  intros. rewrite get_closed by done.
  destruct (JSMap.get k m); [by apply wf_touch|done].
Qed.

Lemma wf_delete k m : wf m → wf (LRUMap.delete k m).
Proof.
  intros. unfold LRUMap.delete. rewrite delete_filter by done.
  by apply wf_filter.
Qed.

Lemma size_set n k v m : wf m → size (LRUMap.set n k v m) ≤ n.
Proof. intros. rewrite set_closed by done. unfold size. rewrite lastn_length. lia. Qed.

Lemma size_get k m : wf m → size (LRUMap.get k m).2 = size m.
Proof.
  intros Hwf. unfold LRUMap.get, size.
  destruct (JSMap.get k m) as [v|] eqn:E; [|done].
  cbn [snd]. rewrite set_absent, length_app.
  - apply length_delete_present in E. cbn [length]. lia.
  - rewrite delete_filter by done. apply filter_other_gone.
Qed.

Lemma size_delete k m : size (LRUMap.delete k m) ≤ size m.
Proof.
  unfold LRUMap.delete, size. induction m as [|[k' v'] m IH]; [done|].
  cbn [JSMap.delete length]. case_decide; cbn [length]; lia.
Qed.

(** Capacity invariant of a call sequence. *)
Lemma run_invariant n ops m :
  wf m → size m ≤ n →
  wf (LRUMap.run n ops m) ∧ size (LRUMap.run n ops m) ≤ n.
Proof.
  unfold LRUMap.run. revert m.
  induction ops as [|o ops IH]; intros m Hwf Hsz; [done|].
  cbn [foldl]. apply IH; destruct o as [k|k v|k]; cbn [LRUMap.apply].
  - by apply wf_get.
  - by apply wf_set.
  - by apply wf_delete.
  - by rewrite size_get.
  - by apply size_set.
  - pose proof (size_delete k m). lia.
Qed.

Lemma length_filter_other k m : wf m → length m ≤ S (length (filter (other k) m)).
Proof. intros. rewrite <-delete_filter by done. apply length_delete_ge. Qed.

(** Touching inside the retained suffix or inside the whole history
    leaves the same [n] most recent entries. *)
Lemma lastn_touch_lastn n k (x : K * V) m :
  wf m →
  lastn n (filter (other k) (lastn n m) ++ [x]) =
  lastn n (filter (other k) m ++ [x]).
Proof.
  intros Hwf. destruct (decide (length m ≤ n)) as [Hle|Hgt].
  { by rewrite (lastn_all n m). }
  rewrite (lastn_split n m) at 2. rewrite filter_app, <-app_assoc.
  symmetry. apply lastn_app_ge.
  pose proof (length_filter_other k (lastn n m) (wf_lastn n m Hwf)) as Hlen.
  rewrite lastn_length in Hlen. rewrite length_app. cbn [length]. lia.
Qed.

Lemma run_snoc n ops o m :
  LRUMap.run n (ops ++ [o]) m = LRUMap.apply n (LRUMap.run n ops m) o.
Proof. unfold LRUMap.run. by rewrite foldl_snoc. Qed.

Lemma filter_fresh_nil m :
  filter (λ kv : K * V, kv.1 ∉ ([] : list (K * V)).*1) m = m.
Proof.
  induction m as [|x m IH]; [done|].
  rewrite filter_cons_True by apply not_elem_of_nil. by rewrite IH.
Qed.

Lemma wf_fresh_app kvs m :
  wf m → NoDup kvs.*1 → wf (filter (λ kv, kv.1 ∉ kvs.*1) m ++ kvs).
Proof.
  intros Hwf Hnd. unfold wf, keys. rewrite fmap_app. apply NoDup_app.
  split; [by apply wf_filter|]. split; [|done].
  intros x ([k' v'] & -> & [Hx _]%list_elem_of_filter)%list_elem_of_fmap. done.
Qed.

(** Closed form of a run of [set] calls on distinct keys. *)
Lemma run_sets_closed n kvs m :
  wf m → size m ≤ n → NoDup kvs.*1 →
  LRUMap.run n (LRUMap.sets kvs) m =
  lastn n (filter (λ kv, kv.1 ∉ kvs.*1) m ++ kvs).
Proof.
  intros Hwf Hsz. induction kvs as [|[k v] kvs IH] using rev_ind; intros Hnd.
  - cbn. rewrite app_nil_r, filter_fresh_nil. symmetry. by apply lastn_all.
  - rewrite fmap_app in Hnd. apply NoDup_app in Hnd as (Hnd & Hk & _).
    assert (k ∉ kvs.*1) as Hfresh.
    { intros Hin. apply (Hk k Hin). cbn. apply list_elem_of_here. }
    unfold LRUMap.sets. rewrite fmap_app. cbn [fmap list_fmap].
    rewrite run_snoc. fold (LRUMap.sets kvs). rewrite IH by done.
    cbn [LRUMap.apply fst snd].
    rewrite set_closed by (by apply wf_lastn, wf_fresh_app).
    rewrite lastn_touch_lastn by (by apply wf_fresh_app).
    rewrite filter_app, (filter_other_absent k kvs) by done.
    rewrite list_filter_filter, <-app_assoc. do 2 f_equal.
    apply list_filter_iff. intros [k' v']. unfold other. cbn [fst].
    rewrite fmap_app, not_elem_of_app. cbn.
    rewrite list_elem_of_singleton. tauto.
Qed.

(** More distinct keys than the capacity: exactly the last [n] remain. *)
Lemma run_sets_overflow n kvs m :
  wf m → size m ≤ n → NoDup kvs.*1 → n ≤ length kvs →
  LRUMap.run n (LRUMap.sets kvs) m = lastn n kvs.
Proof.
  intros. rewrite run_sets_closed by done. by apply lastn_app_ge.
Qed.

(** A [set] of a new key into a full map evicts exactly the oldest entry. *)
Lemma set_full_evicts_oldest n k v m :
  wf m → 0 < n → size m = n → k ∉ keys m →
  LRUMap.set n k v m = tail m ++ [(k, v)].
Proof.
  intros Hwf Hn Hsz Hk. rewrite set_closed, filter_other_absent by done.
  unfold size in Hsz. destruct m as [|x m]; cbn [length] in Hsz; [lia|].
  cbn [tail]. rewrite <-app_comm_cons, lastn_cons_gt by (rewrite length_app; cbn; lia).
  apply lastn_all. rewrite length_app. cbn. lia.
Qed.

(** A [set] that stays within capacity evicts nothing. *)
Lemma set_room_keeps_all n k v m :
  wf m → size m ≤ n → (k ∈ keys m ∧ 0 < n ∨ size m < n) →
  LRUMap.set n k v m = filter (other k) m ++ [(k, v)].
Proof.
  intros Hwf Hsz Hroom. rewrite set_closed by done. apply lastn_all.
  rewrite length_app. cbn [length]. unfold size in *.
  destruct Hroom as [[Hin Hn]|Hlt].
  - assert (length (filter (other k) m) < length m); [|lia].
    apply list_elem_of_fmap in Hin as ([k' v'] & -> & Hin).
    apply (length_filter_lt _ _ (k', v')); [done|]. by intros Hne.
  - pose proof (length_filter (other k) m). lia.
Qed.

Lemma lastn_snoc {A} n (l : list A) x :
  0 < n → lastn n (l ++ [x]) = lastn (n - 1) l ++ [x].
Proof.
  intros Hn. unfold lastn. rewrite length_app. cbn [length].
  replace (length l + 1 - n) with (length l - (n - 1)) by lia.
  rewrite drop_app_le by lia. done.
Qed.

Lemma get_snoc_absent k v m : k ∉ keys m → JSMap.get k (m ++ [(k, v)]) = Some v.
Proof.
  unfold keys. induction m as [|[k' v'] m IH]; cbn [JSMap.get app].
  - intros _. by rewrite decide_True.
  - rewrite fmap_cons, not_elem_of_cons. cbn [fst]. intros [Hne Hm].
    rewrite decide_False by congruence. auto.
Qed.

Lemma keys_touch k v m :
  keys (filter (other k) m ++ [(k, v)]) = touch k (keys m).
Proof. unfold touch. rewrite <-keys_filter_other. unfold keys. by rewrite fmap_snoc. Qed.

Lemma get_after_set n k v m :
  wf m → 0 < n → JSMap.get k (LRUMap.set n k v m) = Some v.
Proof.
  intros Hwf Hn. rewrite set_closed, lastn_snoc by done.
  apply get_snoc_absent. unfold keys, lastn. rewrite fmap_drop.
  intros Hin%subseteq_drop. by apply (filter_other_gone k m).
Qed.

Lemma get_value k m : (LRUMap.get k m).1 = JSMap.get k m.
Proof. unfold LRUMap.get. by destruct (JSMap.get k m). Qed.

Lemma get_keys k m :
  wf m →
  keys (LRUMap.get k m).2 = if has k m then touch k (keys m) else keys m.
Proof.
  intros Hwf. rewrite get_closed by done. unfold has.
  destruct (JSMap.get k m) as [v|]; cbn [snd].
  - rewrite bool_decide_eq_true_2 by eauto. apply keys_touch.
  - rewrite bool_decide_eq_false_2; [done|]. by intros [].
Qed.

Lemma set_keys n k v m :
  wf m → keys (LRUMap.set n k v m) = lastn n (touch k (keys m)).
Proof.
  intros. rewrite set_closed by done. rewrite <-(keys_touch k v m).
  unfold keys, lastn. by rewrite fmap_drop, length_fmap.
Qed.

(** Reading a tracker after it was accessed. *)
Lemma lookup_touch k k' v m :
  JSMap.get k' (filter (other k) m ++ [(k, v)]) =
  if decide (k' = k) then Some v else JSMap.get k' m.
Proof.
rewrite get_app. case_decide as Hk.
- subst k'. rewrite get_filter_other_same. cbn. by rewrite decide_True.
- rewrite get_filter_other by done. destruct (JSMap.get k' m); [done|].
  cbn. rewrite decide_False; [done|]. by intros ->.
Qed.

Lemma lookup_after_get k k' m :
  wf m → JSMap.get k' (LRUMap.get k m).2 = JSMap.get k' m.
Proof.
intros Hwf. rewrite get_closed by done.
destruct (JSMap.get k m) as [v|] eqn:Hk; [|done]. cbn [snd].
rewrite lookup_touch. case_decide; [by subst|done].
Qed.

Lemma lookup_after_set_other n k k' v m :
  wf m → k' ≠ k →
  JSMap.get k' (LRUMap.set n k v m) = None ∨
  JSMap.get k' (LRUMap.set n k v m) = JSMap.get k' m.
Proof.
intros Hwf Hne. rewrite set_closed by done.
destruct (JSMap.get k' (lastn n _)) as [x|] eqn:Hx; [right|by left].
apply get_Some_elem in Hx. unfold lastn in Hx. apply subseteq_drop in Hx.
apply get_Some_iff in Hx; [|by apply wf_touch].
rewrite lookup_touch, decide_False in Hx by done. done.
Qed.

(** Claim C3.  Whatever sequence of [get], [set] and [delete] calls was
    made on an [LRUMap] of capacity [n], the map holds at most [n]
    entries.  Inserting more than [n] entries with distinct keys then
    leaves exactly [n] entries, the [n] inserted last.  [get] returns the
    stored value and moves a stored key to the most-recent end; [set]
    stores the value, moves the key to the most-recent end and keeps the
    [n] most recent keys, which on a full map and a new key means that
    exactly the oldest entry goes and otherwise that nothing goes;
    [delete] removes the key's entry whatever the capacity. *)
Theorem lru_bounded_most_recent n (ops : list LRUMap.op) :
  let m : JSMap.t K V := LRUMap.run n ops LRUMap.empty in
  size m ≤ n ∧
  (∀ kvs : list (K * V), NoDup kvs.*1 → n < length kvs →
     LRUMap.run n (LRUMap.sets kvs) m = lastn n kvs ∧
     size (LRUMap.run n (LRUMap.sets kvs) m) = n) ∧
  (∀ k, (LRUMap.get k m).1 = JSMap.get k m ∧
        keys (LRUMap.get k m).2 = (if has k m then touch k (keys m) else keys m)) ∧
  (∀ k v, keys (LRUMap.set n k v m) = lastn n (touch k (keys m)) ∧
          (0 < n → JSMap.get k (LRUMap.set n k v m) = Some v) ∧
          (0 < n → size m = n → k ∉ keys m →
             LRUMap.set n k v m = tail m ++ [(k, v)]) ∧
          (k ∈ keys m ∧ 0 < n ∨ size m < n →
             LRUMap.set n k v m = filter (other k) m ++ [(k, v)])) ∧
  (∀ k, LRUMap.delete k m = filter (other k) m).
Proof.
  intros m.
  destruct (run_invariant n ops LRUMap.empty) as [Hwf Hsz];
    [apply NoDup_nil_2|cbn; lia|]. fold m in Hwf, Hsz.
  split; [done|]. split; [|split; [|split]].
  - intros kvs Hnd Hlen. rewrite run_sets_overflow by (done || lia).
    split; [done|]. unfold size. rewrite lastn_length. lia.
  - intros k. split; [apply get_value|by apply get_keys].
  - intros k v. split; [by apply set_keys|]. split; [by apply get_after_set|].
    split; [by apply set_full_evicts_oldest|by apply set_room_keeps_all].
  - intros k. by apply delete_filter.
Qed.
End LRUMapFacts.

Lemma lru_bounded_most_recent_witness :
LRUMap.run 2 (LRUMap.sets [(1, 10); (2, 20); (3, 30)])
  (LRUMap.run 2 [LRUMap.OpSet 5 50; LRUMap.OpGet 5; LRUMap.OpDelete 7] LRUMap.empty)
= [(2, 20); (3, 30)].
Proof.
destruct (lru_bounded_most_recent 2
            [LRUMap.OpSet 5 50; LRUMap.OpGet 5; LRUMap.OpDelete 7])
  as (_ & Hover & _).
destruct (Hover [(1, 10); (2, 20); (3, 30)]) as [Heq _].
- compute_done.
- cbn. lia.
- exact Heq.
Defined.
End LRUMapFacts.

(** ** The ordered update queue *)
Module UpdateQueueFacts.
Import UpdateQueue.

Lemma accepted_snoc t e :
  accepted (t ++ [e]) =
  accepted t ++ match e with EvEnqueued c => [c] | _ => [] end.
Proof. unfold accepted. rewrite omap_app. by destruct e. Qed.

Lemma handled_snoc t e :
  handled (t ++ [e]) =
  handled t ++ match e with EvStart c | EvSkipped c => [c] | _ => [] end.
Proof. unfold handled. rewrite omap_app. by destruct e. Qed.

Lemma exclusive_snoc t e :
  exclusive (t ++ [e]) = exclusive_step (exclusive t) e.
Proof. unfold exclusive. by rewrite foldl_snoc. Qed.

Lemma settle_pending p o s rs :
  heap s !! p = Some (Pending rs) →
  settle p o s =
  with_promises (<[p := Settled o]> (heap s)) (next s)
    (jobs s ++ ((λ r, (r, o)) <$> rs)) s.
Proof. intros Hp. unfold settle. by rewrite Hp. Qed.

Lemma register_pending p mk s rs :
  heap s !! p = Some (Pending rs) →
  register p mk s =
  (next s,
   with_promises
     (<[p := Pending (rs ++ [mk (next s)])]> (<[next s := Pending []]> (heap s)))
     (S (next s)) (jobs s) s).
Proof. intros Hp. unfold register. by rewrite Hp. Qed.

Lemma register_settled p mk s o :
  heap s !! p = Some (Settled o) →
  register p mk s =
  (next s,
   with_promises (<[next s := Pending []]> (heap s)) (S (next s))
     (jobs s ++ [(mk (next s), o)]) s).
Proof. intros Hp. unfold register. by rewrite Hp. Qed.

Ltac heap_lookup :=
  repeat first
    [ rewrite lookup_insert_ne by lia
    | rewrite lookup_insert, decide_True by lia ].

Lemma take_S_lookup {A} (l : list A) k x :
  l !! k = Some x → take (k + 1) l = take k l ++ [x].
Proof. intros. replace (k + 1) with (S k) by lia. by apply take_S_r. Qed.

Ltac same_cell := first [done | lia | f_equal; same_cell].

Ltac sel :=
  cbn [heap next jobs inflight cacheUpdateQueueRef cacheUpdateQueueSizeRef
       inactive calls trace with_promises log current turn_taken
       running_call fmap list_fmap app].

(** One promise job preserves the shape of the chain. *)
Lemma chain_promise_job s links k st :
  chain s links k st → ∃ k' st', chain (promise_job s) links k' st'.
Proof.
  intros Hchain.
  pose proof Hchain as [Hnext Href Hsize Hle Hcur Hlink Hwait Hend Hacc Hhan Hexc Hcalls].
  unfold promise_job.
  destruct st; cbn [current] in Hcur; cbn [turn_taken running_call] in Hhan, Hexc.
  - (* Quiet *)
    destruct Hcur as (_ & _ & Hjobs & _). rewrite Hjobs. by exists k, Quiet.
  - (* AtIgnore *)
    destruct Hcur as (c & sc & Hk & Hjobs & Hfl & Ha & Hb & Hc).
    rewrite Hjobs. cbn [fire r_ignore].
    erewrite settle_pending by (cbn; exact Ha).
    exists k, AtProcess. constructor; sel; try done.
    + exists c, sc. split_and!; try done; by heap_lookup.
    + intros j Hj. heap_lookup. by apply Hlink.
    + intros j c' sc' Hj Hl. destruct (Hwait j c' sc' Hj Hl) as (?&?&?).
      split_and!; by heap_lookup.
    + intros Hlt. heap_lookup. by apply Hend.
  - (* AtProcess *)
    destruct Hcur as (c & sc & Hk & Hjobs & Hfl & Hb & Hc).
    rewrite Hjobs. cbn [fire r_process].
    assert (take (k + 1) links = take k links ++ [(c, sc)]) as Htake
      by (by apply take_S_lookup).
    case_decide as Hdead; cbn [inactive with_promises] in Hdead.
    + erewrite settle_pending by (cbn; exact Hb).
      exists k, (AtWarn Fulfilled). constructor; sel; try done.
      * split_and!; try done; [by eapply lookup_lt_Some|by heap_lookup].
      * intros j Hj. heap_lookup. by apply Hlink.
      * intros j c' sc' Hj Hl. destruct (Hwait j c' sc' Hj Hl) as (?&?&?).
        split_and!; by heap_lookup.
      * intros Hlt. heap_lookup. by apply Hend.
      * by rewrite accepted_snoc, app_nil_r.
      * by rewrite handled_snoc, Hhan, Nat.add_0_r, Htake, fmap_app.
      * by rewrite exclusive_snoc, Hexc.
    + exists k, Running. constructor; sel; try done.
      * exists c, sc. by rewrite Hfl.
      * by rewrite accepted_snoc, app_nil_r.
      * by rewrite handled_snoc, Hhan, Nat.add_0_r, Htake, fmap_app.
      * by rewrite exclusive_snoc, Hexc, Hk.
  - (* Running *)
    destruct Hcur as (c & sc & Hk & Hjobs & Hfl & Hb & Hc).
    rewrite Hjobs. by exists k, Running.
  - (* AtWarn *)
    destruct Hcur as (Hlt & Hjobs & Hfl & Hc).
    rewrite Hjobs. cbn [fire r_warn].
    exists k, AtRelease. destruct o.
    + erewrite settle_pending by (cbn; exact Hc).
      constructor; sel; try done.
      * intros j Hj. heap_lookup. by apply Hlink.
      * intros j c' sc' Hj Hl. destruct (Hwait j c' sc' Hj Hl) as (?&?&?).
        split_and!; by heap_lookup.
      * intros _. heap_lookup. by apply Hend.
    + erewrite settle_pending by (cbn; exact Hc).
      constructor; sel; try done.
      * intros j Hj. heap_lookup. by apply Hlink.
      * intros j c' sc' Hj Hl. destruct (Hwait j c' sc' Hj Hl) as (?&?&?).
        split_and!; by heap_lookup.
      * intros _. heap_lookup. by apply Hend.
      * by rewrite accepted_snoc, app_nil_r.
      * by rewrite handled_snoc, app_nil_r.
      * by rewrite exclusive_snoc, Hexc.
  - (* AtRelease *)
    destruct Hcur as (Hlt & Hjobs & Hfl).
    rewrite Hjobs. cbn [fire r_release].
    destruct (decide (S k < length links)) as [Hmore|Hlast].
    + destruct (lookup_lt_is_Some_2 links (S k) Hmore) as [[c sc] Hl].
      assert (heap s !! (4 * k + 4) = Some (Pending [r_ignore (S k)])) as Hd.
      { replace (4 * k + 4) with (4 * S k) by lia. apply Hlink. lia. }
      erewrite settle_pending by (cbn; exact Hd).
      exists (S k), AtIgnore. constructor; sel; try done; try lia.
      * exists c, sc. split_and!; try done.
        destruct (Hwait (S k) c sc) as (?&?&?); [lia|done|].
        split_and!; by heap_lookup.
      * intros j Hj. heap_lookup. apply Hlink. lia.
      * intros j c' sc' Hj Hl'.
        destruct (Hwait j c' sc') as (?&?&?); [lia|done|].
        split_and!; by heap_lookup.
      * intros _. heap_lookup. by apply Hend.
      * rewrite Hhan. do 2 f_equal. lia.
    + assert (S k = length links) as HL by lia.
      assert (heap s !! (4 * k + 4) = Some (Pending [])) as Hd.
      { replace (4 * k + 4) with (4 * length links) by lia. by apply Hend. }
      erewrite settle_pending by (cbn; exact Hd).
      exists (S k), Quiet. constructor; sel; try done; try lia.
      * split_and!; try done. by heap_lookup.
      * intros j c' sc' Hj Hl'. apply lookup_lt_Some in Hl'. lia.
      * rewrite Hhan. do 2 f_equal. lia.
Qed.

(** A processor settling preserves the shape of the chain. *)
Lemma chain_processor_settles call o s links k st :
  chain s links k st →
  ∃ st', chain (processor_settles call o s) links k st'.
Proof.
  intros Hchain.
  pose proof Hchain as [Hnext Href Hsize Hle Hcur Hlink Hwait Hend Hacc Hhan Hexc Hcalls].
  unfold processor_settles.
  destruct st; cbn [current] in Hcur;
    try (exists Quiet; destruct Hcur as (_ & _ & _ & ->); exact Hchain);
    try (exists AtIgnore; destruct Hcur as (? & ? & _ & _ & -> & _); exact Hchain);
    try (exists AtProcess; destruct Hcur as (? & ? & _ & _ & -> & _); exact Hchain);
    try (exists (AtWarn o0); destruct Hcur as (_ & _ & -> & _); exact Hchain);
    try (exists AtRelease; destruct Hcur as (_ & _ & ->); exact Hchain).
  destruct Hcur as (c & sc & Hk & Hjobs & Hfl & Hb & Hc).
  rewrite Hfl. cbn [list_find fst]. case_decide as Hcall; cbn [fmap option_fmap option_map];
    [|by exists Running].
  subst call. erewrite settle_pending by (sel; exact Hb).
  exists (AtWarn o). constructor; sel; try done.
  - split_and!; try done; [by eapply lookup_lt_Some|by rewrite Hjobs|by heap_lookup].
  - intros j Hj. heap_lookup. by apply Hlink.
  - intros j c' sc' Hj Hl. destruct (Hwait j c' sc' Hj Hl) as (?&?&?).
    split_and!; by heap_lookup.
  - intros Hlt. heap_lookup. by apply Hend.
  - by rewrite accepted_snoc, app_nil_r.
  - by rewrite handled_snoc, app_nil_r.
  - rewrite exclusive_snoc, Hexc. cbn [running_call]. rewrite Hk. cbn.
    by rewrite decide_True.
Qed.

Lemma chain_teardown scope s links k st :
  chain s links k st → chain (teardown scope s) links k st.
Proof.
  intros [Hnext Href Hsize Hle Hcur Hlink Hwait Hend Hacc Hhan Hexc Hcalls].
  constructor; try done.
Qed.

(** A call that finds the queue full changes nothing but the log. *)
Lemma queueCacheUpdate_full scope s :
  MAX_QUEUE_SIZE ≤ cacheUpdateQueueSizeRef s →
  queueCacheUpdate scope s =
  Normal (State (heap s) (next s) (jobs s) (inflight s)
            (cacheUpdateQueueRef s) (cacheUpdateQueueSizeRef s)
            (inactive s) (S (calls s)) (trace s ++ [EvDropped (calls s)])).
Proof. intros. unfold queueCacheUpdate. by rewrite decide_True. Qed.

Lemma chain_dropped s links k st :
  chain s links k st →
  chain (State (heap s) (next s) (jobs s) (inflight s)
           (cacheUpdateQueueRef s) (cacheUpdateQueueSizeRef s)
           (inactive s) (S (calls s)) (trace s ++ [EvDropped (calls s)]))
    links k st.
Proof.
  intros [Hnext Href Hsize Hle Hcur Hlink Hwait Hend Hacc Hhan Hexc Hcalls].
  constructor; sel; try done.
  - by rewrite accepted_snoc, app_nil_r.
  - by rewrite handled_snoc, app_nil_r.
  - rewrite exclusive_snoc, Hexc. by destruct (running_call links k st).
  - destruct Hcalls as [Hsorted Hbound]. split; [done|].
    eapply Forall_impl; [exact Hbound|]. cbn. lia.
Qed.

Lemma calls_snoc (links : list (nat * nat)) call scope n :
  n = call →
  StronglySorted lt links.*1 ∧ Forall (λ c, c < n) links.*1 →
  StronglySorted lt (links ++ [(call, scope)]).*1 ∧
  Forall (λ c, c < S n) (links ++ [(call, scope)]).*1.
Proof.
  intros -> [Hsorted Hbound]. rewrite fmap_app. cbn [fmap list_fmap fst]. split.
  - apply StronglySorted_app_2; [|done|repeat constructor].
    intros x1 x2 Hx1 ->%list_elem_of_singleton.
    by apply (proj1 (Forall_forall _ _) Hbound).
  - apply Forall_app. split; [|repeat constructor].
    eapply Forall_impl; [exact Hbound|]. cbn. lia.
Qed.

Lemma running_call_app links x k st :
  k < length links →
  running_call (links ++ [x]) k st = running_call links k st.
Proof. intros. destruct st; cbn; try done. by rewrite lookup_app_l. Qed.

(** An accepted call extends the chain by one link. *)
Lemma chain_accepted_call scope s links k st :
  cacheUpdateQueueSizeRef s < MAX_QUEUE_SIZE →
  chain s links k st →
  ∃ s' st', queueCacheUpdate scope s = Normal s' ∧
            chain s' (links ++ [(calls s, scope)]) k st'.
Proof.
  intros Hroom Hchain.
  pose proof Hchain as [Hnext Href Hsize Hle Hcur Hlink Hwait Hend Hacc Hhan Hexc Hcalls].
  unfold queueCacheUpdate. rewrite decide_False by lia.
  destruct (decide (k = length links)) as [HkL|HkL].
  - (* the chain had run dry: the first reaction is queued at once *)
    assert (st = Quiet) as ->.
    { destruct st; cbn [current] in Hcur; try done;
        try (destruct Hcur as (? & ? & ?%lookup_lt_Some & _); lia);
        destruct Hcur as (? & _); lia. }
    destruct Hcur as (_ & Hcell & Hjobs & Hfl).
    erewrite register_settled by (rewrite Href, <-HkL; exact Hcell).
    cbv beta iota zeta.
    erewrite register_pending by (sel; heap_lookup; done). cbv beta iota zeta.
    erewrite register_pending by (sel; heap_lookup; done). cbv beta iota zeta.
    erewrite register_pending by (sel; heap_lookup; done). cbv beta iota zeta.
    eexists _, AtIgnore. split; [done|].
    constructor; sel; rewrite ?length_app; cbn [length]; try lia.
    + exists (calls s), scope. split_and!.
      * rewrite lookup_app_r by lia. by replace (k - length links) with 0 by lia.
      * rewrite Hjobs. cbn. unfold r_ignore. same_cell.
      * done.
      * unfold waiting, r_process, r_warn, r_release.
        split_and!; heap_lookup; same_cell.
    + intros j c sc Hj Hl. apply lookup_lt_Some in Hl.
      rewrite length_app in Hl. cbn in Hl. lia.
    + intros _. by heap_lookup.
    + by rewrite accepted_snoc, Hacc, fmap_app.
    + rewrite handled_snoc, app_nil_r, Hhan. cbn [turn_taken].
      by rewrite !Nat.add_0_r, take_app_le by lia.
    + by rewrite exclusive_snoc, Hexc.
    + by apply calls_snoc.
  - (* the new link waits behind its predecessors *)
    assert (k < length links) as Hlt by lia.
    erewrite register_pending by (rewrite Href; by apply Hend).
    cbv beta iota zeta.
    erewrite register_pending by (sel; heap_lookup; done). cbv beta iota zeta.
    erewrite register_pending by (sel; heap_lookup; done). cbv beta iota zeta.
    erewrite register_pending by (sel; heap_lookup; done). cbv beta iota zeta.
    eexists _, st. split; [done|].
    constructor; sel; rewrite ?length_app; cbn [length]; try lia.
    + destruct st; cbn [current] in Hcur; sel.
      * lia.
      * destruct Hcur as (c & sc & Hk & Hjobs & Hfl & Ha & Hb & Hc).
        exists c, sc. rewrite lookup_app_l by done.
        split_and!; try done. unfold waiting. split_and!; by heap_lookup.
      * destruct Hcur as (c & sc & Hk & Hjobs & Hfl & Hb & Hc).
        exists c, sc. rewrite lookup_app_l by done.
        split_and!; try done; by heap_lookup.
      * destruct Hcur as (c & sc & Hk & Hjobs & Hfl & Hb & Hc).
        exists c, sc. rewrite lookup_app_l by done.
        split_and!; try done; by heap_lookup.
      * destruct Hcur as (_ & Hjobs & Hfl & Hc).
        rewrite length_app. split_and!; try done; [lia|by heap_lookup].
      * destruct Hcur as (_ & Hjobs & Hfl).
        rewrite length_app. split_and!; try done; lia.
    + intros j Hj. destruct (decide (j = length links)) as [->|Hne].
      * heap_lookup. unfold r_ignore. cbn. same_cell.
      * heap_lookup. apply Hlink. lia.
    + intros j c sc Hj Hl. destruct (decide (j = length links)) as [->|Hne].
      * rewrite lookup_app_r, Nat.sub_diag in Hl by lia. cbn in Hl.
        injection Hl as <- <-. unfold waiting, r_process, r_warn, r_release.
        split_and!; heap_lookup; same_cell.
      * assert (j < length links).
        { apply lookup_lt_Some in Hl. rewrite length_app in Hl. cbn in Hl. lia. }
        rewrite lookup_app_l in Hl by done.
        destruct (Hwait j c sc Hj Hl) as (?&?&?).
        unfold waiting. split_and!; by heap_lookup.
    + intros _. by heap_lookup.
    + by rewrite accepted_snoc, Hacc, fmap_app.
    + rewrite handled_snoc, app_nil_r, Hhan.
      rewrite take_app_le; [done|]. destruct st; cbn; lia.
    + rewrite exclusive_snoc, Hexc. rewrite running_call_app by done.
      by destruct (running_call links k st).
    + by apply calls_snoc.
Qed.

Lemma chain_init : chain init [] 0 Quiet.
Proof. constructor; cbn; try done; try lia. split; constructor. Qed.

Lemma chain_step s i links k st :
  chain s links k st → ∃ links' k' st', chain (step s i) links' k' st'.
Proof.
  intros Hchain. destruct i as [scope| |call o|scope]; cbn [step].
  - destruct (decide (MAX_QUEUE_SIZE ≤ cacheUpdateQueueSizeRef s)) as [Hfull|Hroom].
    + rewrite queueCacheUpdate_full by done.
      exists links, k, st. by apply chain_dropped.
    + destruct (chain_accepted_call scope s links k st) as (s' & st' & -> & Hs');
        [lia|done|]. by exists (links ++ [(calls s, scope)]), k, st'.
  - destruct (chain_promise_job s links k st Hchain) as (k' & st' & Hs').
    by exists links, k', st'.
  - destruct (chain_processor_settles call o s links k st Hchain) as (st' & Hs').
    by exists links, k, st'.
  - exists links, k, st. by apply chain_teardown.
Qed.

(** Every reachable state of the pipeline is a chain. *)
Lemma chain_run inputs : ∃ links k st, chain (run inputs) links k st.
Proof.
  unfold run. induction inputs as [|i inputs IH] using rev_ind.
  - exists [], 0, Quiet. apply chain_init.
  - rewrite foldl_snoc. destruct IH as (links & k & st & Hchain).
    by eapply chain_step.
Qed.

Lemma started_sublist_handled t : started t `sublist_of` handled t.
Proof.
  induction t as [|e t IH]; [done|].
  destruct e; cbn; try done; by constructor.
Qed.

(** A schedule with a failing processor, a processor submitted while
    another runs, and one submitted by a scope that is torn down before
    its turn. *)
Example sample_schedule :
  trace (run ([Enqueue 0; Enqueue 0] ++ replicate 5 PromiseJob ++
              [ProcessorSettles 1 Fulfilled; ProcessorSettles 0 Rejected] ++
              replicate 3 PromiseJob ++ [Enqueue 1; Teardown 1] ++
              replicate 10 PromiseJob ++ [ProcessorSettles 1 Fulfilled] ++
              replicate 10 PromiseJob)) =
  [EvEnqueued 0; EvEnqueued 1; EvStart 0; EvSettle 0 Rejected; EvWarnFailed;
   EvEnqueued 2; EvStart 1; EvSettle 1 Fulfilled; EvSkipped 2].
Proof. vm_compute. reflexivity. Qed.

Lemma settle_depth p o s :
  cacheUpdateQueueSizeRef (settle p o s) = cacheUpdateQueueSizeRef s.
Proof. unfold settle. by destruct (heap s !! p) as [[]|]. Qed.

(** The tracked depth never exceeds [MAX_QUEUE_SIZE]. *)
Lemma depth_bounded inputs :
  cacheUpdateQueueSizeRef (run inputs) ≤ MAX_QUEUE_SIZE.
Proof.
  unfold run. induction inputs as [|i inputs IH] using rev_ind.
  { cbn. unfold MAX_QUEUE_SIZE. lia. }
  rewrite foldl_snoc. set (s := foldl step init inputs) in *.
  destruct i as [scope| |call o|scope]; cbn [step]; [| | |done].
  - unfold queueCacheUpdate. case_decide; [done|].
    destruct (register _ _ s) as [a s1].
    destruct (register a _ s1) as [b s2].
    destruct (register b _ s2) as [c s3].
    destruct (register c _ s3) as [d s4]. cbn. lia.
  - unfold promise_job. destruct (jobs s) as [|[r o] rest]; [done|].
    destruct r, o; cbn [fire]; try case_decide;
      rewrite ?settle_depth; cbn; lia.
  - unfold processor_settles.
    destruct (list_find _ _) as [[? [? ?]]|]; [|done].
    by rewrite settle_depth.
Qed.

(** Claim C2.  A call that finds the tracked depth at [MAX_QUEUE_SIZE]
    returns normally; it allocates no promise and registers no reaction
    (the processor is discarded), leaves the chain end and the tracked
    depth as they were, and logs the one warning. *)
Theorem full_queue_drops_the_update scope (s : state) :
  cacheUpdateQueueSizeRef s = MAX_QUEUE_SIZE →
  ∃ s', queueCacheUpdate scope s = Normal s' ∧
        heap s' = heap s ∧ next s' = next s ∧ jobs s' = jobs s ∧
        inflight s' = inflight s ∧
        cacheUpdateQueueRef s' = cacheUpdateQueueRef s ∧
        cacheUpdateQueueSizeRef s' = cacheUpdateQueueSizeRef s ∧
        trace s' = trace s ++ [EvDropped (calls s)].
Proof.
  intros Hfull. eexists. split; [apply queueCacheUpdate_full; lia|].
  by split_and!.
Qed.

Lemma full_queue_drops_the_update_witness :
  let s := run (replicate 50 (Enqueue 0)) in
  ∃ s', queueCacheUpdate 7 s = Normal s' ∧
        heap s' = heap s ∧ next s' = next s ∧ jobs s' = jobs s ∧
        inflight s' = inflight s ∧
        cacheUpdateQueueRef s' = cacheUpdateQueueRef s ∧
        cacheUpdateQueueSizeRef s' = cacheUpdateQueueSizeRef s ∧
        trace s' = trace s ++ [EvDropped (calls s)].
Proof.
  intros s. apply (full_queue_drops_the_update 7 s). vm_compute. reflexivity.
Defined.
End UpdateQueueFacts.


(** ** Strings *)
Lemma lower_ascii_idemp a : lower_ascii (lower_ascii a) = lower_ascii a.
Proof. by destruct a as [[] [] [] [] [] [] [] []]. Qed.

Lemma toLowerCase_idemp s : toLowerCase (toLowerCase s) = toLowerCase s.
Proof.
induction s as [|a s IH]; [done|]. cbn. by rewrite lower_ascii_idemp, IH.
Qed.

(** ** [SubscriptionManager] *)
Module SubscriptionManagerFacts.
Import SubscriptionManager JSMapFacts.
Section SubscriptionManagerFacts.
Variable MAX_SUBSCRIPTIONS : nat.
Variable throws : unsubscriber → bool.
Variable evicted_throws : nat → string → bool.
Implicit Types (m : manager) (w : string) (callbacks : WalletSubscriptionCallbacks).

Local Abbreviation activateWallet := (activateWallet MAX_SUBSCRIPTIONS throws evicted_throws).
Local Abbreviation evict_oldest := (evict_oldest MAX_SUBSCRIPTIONS throws evicted_throws).
Local Abbreviation activate := (after_activate MAX_SUBSCRIPTIONS throws evicted_throws).
Local Abbreviation deactivate := (deactivateWallet throws).

Lemma set_has_true {A} `{EqDecision A} (x : A) s : JSSet.has x s = true ↔ x ∈ s.
Proof. unfold JSSet.has. apply bool_decide_eq_true. Qed.

Lemma set_has_false {A} `{EqDecision A} (x : A) s : JSSet.has x s = false ↔ x ∉ s.
Proof. unfold JSSet.has. apply bool_decide_eq_false. Qed.

Lemma consistent_create : consistent create.
Proof. repeat split; constructor. Qed.

Lemma consistent_log m es :
  consistent m →
  consistent (Manager (activeWallets m) (unsubscribeFns m) (evictionCallbacks m) es).
Proof. done. Qed.

Lemma consistent_deactivate w m : consistent m → consistent (deactivate w m).
Proof.
intros (Hnd & Hkeys & Hlow). unfold deactivateWallet.
destruct (JSMap.get _ _) as [us|]; [|done].
repeat split; cbn [activeWallets unsubscribeFns].
- by apply NoDup_filter.
- rewrite delete_filter by (unfold JSMap.wf; by rewrite Hkeys).
  by rewrite keys_filter_other, Hkeys.
- apply Forall_forall. intros x [_ Hx]%list_elem_of_filter.
  by apply (proj1 (Forall_forall _ _) Hlow).
Qed.

(** The eviction branch as one case analysis: nothing happens, the
    callback throws, or the oldest wallet is deactivated. *)
Lemma evict_oldest_cases m :
  evict_oldest m = Returned m ∨
  (∃ w0 cb, head (activeWallets m) = Some w0 ∧ truthy w0 = true ∧
     JSMap.get w0 (evictionCallbacks m) = Some cb ∧ evicted_throws cb w0 = true ∧
     evict_oldest m =
       Thrown (Manager (activeWallets m) (unsubscribeFns m) (evictionCallbacks m)
                 (effects m ++ [EvictionNotified cb w0]))) ∨
  (∃ w0 es, head (activeWallets m) = Some w0 ∧ truthy w0 = true ∧
     MAX_SUBSCRIPTIONS ≤ JSSet.size (activeWallets m) ∧
     es = match JSMap.get w0 (evictionCallbacks m) with
          | Some cb => [EvictionNotified cb w0]
          | None => []
          end ∧
     (∀ cb, JSMap.get w0 (evictionCallbacks m) = Some cb → evicted_throws cb w0 = false) ∧
     evict_oldest m =
       Returned (deactivate w0
                   (Manager (activeWallets m) (unsubscribeFns m) (evictionCallbacks m)
                      (effects m ++ es)))).
Proof.
unfold SubscriptionManager.evict_oldest. case_decide; [|by left].
destruct (head _) as [w0|] eqn:Hhead; [|by left].
destruct (truthy w0) eqn:Hw0; [|by left].
destruct (JSMap.get w0 _) as [cb|] eqn:Hcb.
- destruct (evicted_throws cb w0) eqn:Hthrows.
  + right. left. by exists w0, cb.
  + right. right. exists w0, [EvictionNotified cb w0]. rewrite Hcb.
    split_and!; try done. by intros ? [= <-].
- right. right. exists w0, []. rewrite Hcb. split_and!; try done.
  rewrite app_nil_r. by destruct m.
Qed.

Lemma consistent_evict_oldest m :
  consistent m → consistent (state_after (evict_oldest m)).
Proof.
intros Hm.
destruct (evict_oldest_cases m)
  as [->|[(w0 & cb & _ & _ & _ & _ & ->)|(w0 & es & _ & _ & _ & _ & _ & ->)]];
  cbn [state_after]; [done|done|].
by apply consistent_deactivate.
Qed.

Lemma deactivate_subset w' m w :
  w ∈ activeWallets (deactivate w' m) → w ∈ activeWallets m.
Proof.
unfold deactivateWallet. destruct (JSMap.get _ _); [|done].
cbn [activeWallets]. unfold JSSet.delete. by intros [_ ?]%list_elem_of_filter.
Qed.

Lemma evict_oldest_subset m w :
  w ∈ activeWallets (state_after (evict_oldest m)) → w ∈ activeWallets m.
Proof.
destruct (evict_oldest_cases m)
  as [->|[(w0 & cb & _ & _ & _ & _ & ->)|(w0 & es & _ & _ & _ & _ & _ & ->)]];
  cbn [state_after]; [done|done|].
by intros Hin%deactivate_subset.
Qed.

(** A call that throws has changed nothing but the log. *)
Lemma activateWallet_Thrown w callbacks m m1 :
  activateWallet w callbacks m = Thrown m1 →
  ∃ w0 cb, head (activeWallets m) = Some w0 ∧
    JSMap.get w0 (evictionCallbacks m) = Some cb ∧ evicted_throws cb w0 = true ∧
    m1 = Manager (activeWallets m) (unsubscribeFns m) (evictionCallbacks m)
           (effects m ++ [EvictionNotified cb w0]).
Proof.
unfold SubscriptionManager.activateWallet. destruct (JSSet.has _ _); [done|].
destruct (evict_oldest_cases m)
  as [->|[(w0 & cb & ? & _ & ? & ? & ->)|(w0 & es & _ & _ & _ & _ & _ & ->)]]; try done.
intros [= <-]. by exists w0, cb.
Qed.

Lemma consistent_activate w callbacks m : consistent m → consistent (activate w callbacks m).
Proof.
intros Hm. unfold after_activate, SubscriptionManager.activateWallet.
destruct (JSSet.has _ (activeWallets m)) eqn:Hhas; [done|].
apply set_has_false in Hhas.
pose proof (consistent_evict_oldest m Hm) as (Hnd & Hkeys & Hlow).
pose proof (evict_oldest_subset m (toLowerCase w)) as Hsub.
destruct (evict_oldest m) as [m1|m1]; cbn [state_after] in *; [|done].
assert (toLowerCase w ∉ activeWallets m1) as Hfresh.
{ intros Hin. by apply Hhas, Hsub. }
repeat split; cbn [activeWallets unsubscribeFns]; unfold JSSet.add;
  rewrite (proj2 (set_has_false _ _) Hfresh).
- apply NoDup_app. split; [done|]. split; [|apply NoDup_singleton].
  by intros x Hx ->%list_elem_of_singleton.
- rewrite set_absent by (by rewrite Hkeys). unfold JSMap.keys in *.
  by rewrite fmap_app, Hkeys.
- apply Forall_app. split; [done|]. repeat constructor. apply toLowerCase_idemp.
Qed.

(** Every state the consumer can reach is consistent. *)
Lemma consistent_run calls : consistent (run MAX_SUBSCRIPTIONS throws evicted_throws calls).
Proof.
unfold run. induction calls as [|c calls IH] using rev_ind; [apply consistent_create|].
rewrite foldl_snoc. destruct c; cbn [perform].
- by apply consistent_activate.
- by apply consistent_deactivate.
- apply consistent_create.
Qed.

(** A call that returns leaves the wallet active. *)
Lemma active_after_activate w callbacks m m1 :
  activateWallet w callbacks m = Returned m1 → isWalletActive w m1 = true.
Proof.
unfold isWalletActive, SubscriptionManager.activateWallet.
destruct (JSSet.has _ (activeWallets m)) eqn:Hhas; [by intros [= <-]|].
destruct (evict_oldest m) as [m2|m2]; [|done]. intros [= <-].
cbn [activeWallets]. apply set_has_true. unfold JSSet.add.
destruct (JSSet.has _ (activeWallets m2)) eqn:Hhas1; [by apply set_has_true|].
apply elem_of_app. right. apply list_elem_of_here.
Qed.

(** Claim C5.  [activateWallet] on a wallet that is active, whatever the
    case its address is written in, returns with the manager as it was:
    same active set, same teardown closures, same eviction callbacks, and
    no call made to the subscription service, to a teardown closure or to
    an eviction callback.  Hence after an activation that returned, a
    second activation of the same wallet, with the same or with other
    callbacks, changes nothing. *)
Theorem activate_active_wallet_is_noop w callbacks m :
  (isWalletActive w m = true → activateWallet w callbacks m = Returned m) ∧
  (∀ m1 callbacks',
     activateWallet w callbacks m = Returned m1 →
     activateWallet w callbacks' m1 = Returned m1).
Proof.
assert (∀ cbs m', isWalletActive w m' = true → activateWallet w cbs m' = Returned m')
  as Hnoop.
{ intros cbs m' Hactive. unfold isWalletActive in Hactive.
  unfold SubscriptionManager.activateWallet. by rewrite Hactive. }
split; [apply Hnoop|]. intros m1 callbacks' Hm1.
by eapply Hnoop, active_after_activate.
Qed.

(** At the limit, with the oldest wallet under a non-empty address and an
    eviction callback that returns: the oldest wallet and no other leaves
    the active set, its eviction callback, if it registered one, is called
    first, its teardown closures next, and only then are the new wallet's
    channels opened. *)
Lemma activate_at_limit_evicts_oldest w callbacks m w0 :
  consistent m → 0 < MAX_SUBSCRIPTIONS →
  getActiveWalletCount m = MAX_SUBSCRIPTIONS →
  isWalletActive w m = false →
  head (activeWallets m) = Some w0 → truthy w0 = true →
  (∀ cb, JSMap.get w0 (evictionCallbacks m) = Some cb → evicted_throws cb w0 = false) →
  ∃ m', activateWallet w callbacks m = Returned m' ∧
  activeWallets m' = tail (activeWallets m) ++ [toLowerCase w] ∧
  getActiveWalletCount m' = MAX_SUBSCRIPTIONS ∧
  isWalletActive w m' = true ∧ isWalletActive w0 m' = false ∧
  ∃ us0, JSMap.get w0 (unsubscribeFns m) = Some us0 ∧
    unsubscribeFns m' =
      tail (unsubscribeFns m) ++ [(toLowerCase w, channels (toLowerCase w) callbacks)] ∧
    effects m' =
      effects m ++
      match JSMap.get w0 (evictionCallbacks m) with
      | Some cb => [EvictionNotified cb w0]
      | None => []
      end ++
      call_unsubscribers throws (Warned w0) us0 ++
      (subscribe callbacks <$> channels (toLowerCase w) callbacks).
Proof.
intros (Hnd & Hkeys & Hlow) Hmax Hcount Hinactive Hhead Htruthy Hreturns.
unfold isWalletActive in Hinactive. unfold getActiveWalletCount, JSSet.size in Hcount.
destruct m as [active unsubs evcbs es]. cbn [activeWallets unsubscribeFns evictionCallbacks] in *.
destruct active as [|w0' rest]; [done|]. cbn in Hhead. injection Hhead as ->.
destruct unsubs as [|[k0 us0] unsubs]; [done|].
unfold JSMap.keys in Hkeys. cbn in Hkeys. injection Hkeys as -> Hkeys.
apply NoDup_cons in Hnd as [Hw0 Hrest].
apply Forall_cons in Hlow as [Hw0low Hrestlow].
assert (toLowerCase w ≠ w0 ∧ toLowerCase w ∉ rest) as [Hne Hfresh].
{ apply set_has_false, not_elem_of_cons in Hinactive. done. }
assert (activateWallet w callbacks (Manager (w0 :: rest) ((w0, us0) :: unsubs) evcbs es) =
        Returned
          (Manager (rest ++ [toLowerCase w])
               (unsubs ++ [(toLowerCase w, channels (toLowerCase w) callbacks)])
               (match onEvicted callbacks with
                | Some cb => JSMap.set (toLowerCase w) cb (JSMap.delete w0 evcbs)
                | None => JSMap.delete w0 evcbs
                end)
               (es ++ match JSMap.get w0 evcbs with
                      | Some cb => [EvictionNotified cb w0]
                      | None => []
                      end ++
                call_unsubscribers throws (Warned w0) us0 ++
                (subscribe callbacks <$> channels (toLowerCase w) callbacks)))) as ->.
{ unfold SubscriptionManager.activateWallet. cbn [activeWallets]. rewrite Hinactive.
  unfold SubscriptionManager.evict_oldest. cbn [activeWallets head]. unfold JSSet.size.
  rewrite decide_True by lia. rewrite Htruthy.
  assert (∀ es', deactivate w0 (Manager (w0 :: rest) ((w0, us0) :: unsubs) evcbs es') =
     Manager rest unsubs (JSMap.delete w0 evcbs)
       (es' ++ call_unsubscribers throws (Warned w0) us0)) as Hde.
  { intros es'. unfold deactivateWallet. rewrite Hw0low.
    cbn [unsubscribeFns activeWallets evictionCallbacks effects JSMap.get JSMap.delete].
    rewrite !decide_True by done. f_equal. unfold JSSet.delete.
    rewrite filter_cons_False by (by intros ?).
    clear -Hw0. induction rest as [|x rest IH]; [done|].
    apply not_elem_of_cons in Hw0 as [? ?].
    rewrite filter_cons_True by done. by rewrite IH. }
  cbn [activeWallets unsubscribeFns evictionCallbacks effects].
  destruct (JSMap.get w0 evcbs) as [cb|].
  1: rewrite (Hreturns cb eq_refl).
  all: rewrite Hde; cbn [activeWallets unsubscribeFns evictionCallbacks effects];
    unfold JSSet.add; rewrite (proj2 (set_has_false _ _) Hfresh);
    rewrite set_absent by (by rewrite <-Hkeys in Hfresh);
    rewrite <-?app_assoc; done. }
eexists. split; [done|].
cbn [activeWallets unsubscribeFns effects tail].
unfold getActiveWalletCount, isWalletActive, JSSet.size. cbn [activeWallets].
split_and!.
- done.
- rewrite length_app. cbn in *. lia.
- apply set_has_true, elem_of_app. right. apply list_elem_of_here.
- rewrite Hw0low. apply set_has_false. intros [?| ->%list_elem_of_singleton]%elem_of_app; done.
- exists us0. cbn [JSMap.get]. by rewrite decide_True.
Qed.

(** At the limit an activation either is aborted by the oldest wallet's
    eviction callback, or returns. *)
Lemma activate_at_limit_aborts_or_returns w callbacks m w0 :
  getActiveWalletCount m = MAX_SUBSCRIPTIONS →
  isWalletActive w m = false →
  head (activeWallets m) = Some w0 → truthy w0 = true →
  (∃ cb, JSMap.get w0 (evictionCallbacks m) = Some cb ∧ evicted_throws cb w0 = true ∧
     activateWallet w callbacks m =
       Thrown (Manager (activeWallets m) (unsubscribeFns m) (evictionCallbacks m)
                 (effects m ++ [EvictionNotified cb w0]))) ∨
  (∀ cb, JSMap.get w0 (evictionCallbacks m) = Some cb → evicted_throws cb w0 = false).
Proof.
intros Hcount Hinactive Hhead Htruthy.
destruct (JSMap.get w0 (evictionCallbacks m)) as [cb|] eqn:Hcb; [|by right].
destruct (evicted_throws cb w0) eqn:Hthrows; [|right; by intros ? [= <-]].
left. exists cb. split; [done|]. split; [done|].
unfold SubscriptionManager.activateWallet, SubscriptionManager.evict_oldest.
unfold isWalletActive in Hinactive. unfold getActiveWalletCount in Hcount.
rewrite Hinactive, decide_True by lia. by rewrite Hhead, Htruthy, Hcb, Hthrows.
Qed.
End SubscriptionManagerFacts.

Lemma activate_active_wallet_is_noop_witness :
  let m := run 10 (λ _, false) (λ _ _, false)
             [Activate "0xAbC"%string (Callbacks (Some 1) None (Some 2) None (Some 3))] in
  activateWallet 10 (λ _, false) (λ _ _, false) "0xaBc"%string
    (Callbacks None None (Some 7) None None) m = Returned m.
Proof.
intros m.
apply (proj1 (activate_active_wallet_is_noop 10 (λ _, false) (λ _ _, false) "0xaBc"%string
                (Callbacks None None (Some 7) None None) m)).
vm_compute. reflexivity.
Defined.

(** Ten wallets with the documented limit of ten, then an eleventh: the
    oldest one is evicted, after its callback and its teardown closures
    were called. *)
Example eleventh_wallet_evicts_first :
  let cbs := Callbacks (Some 1) (Some 2) (Some 3) (Some 4) (Some 5) in
  let m := run 10 (λ _, false) (λ _ _, false)
             ((λ w, Activate w cbs) <$>
              ["0xA0"; "0xA1"; "0xA2"; "0xA3"; "0xA4";
               "0xA5"; "0xA6"; "0xA7"; "0xA8"; "0xA9"]%string) in
  ∃ m', activateWallet 10 (λ _, false) (λ _ _, false) "0xB0"%string cbs m = Returned m' ∧
  getActiveWalletCount m' = 10 ∧
  activeWallets m' =
    ["0xa1"; "0xa2"; "0xa3"; "0xa4"; "0xa5"; "0xa6"; "0xa7"; "0xa8"; "0xa9"; "0xb0"]%string ∧
  drop (length (effects m)) (effects m') =
    [EvictionNotified 5 "0xa0"%string;
     Unsubscribed (Transactions, "0xa0"%string);
     Unsubscribed (Deposits, "0xa0"%string);
     Subscribed Transactions "0xb0"%string (Some 1) (Some 2) (Some 4);
     Subscribed Deposits "0xb0"%string (Some 3) None (Some 4)].
Proof. eexists. split; [vm_compute; reflexivity|]. vm_compute. by repeat split. Qed.

(** The same eleventh activation when the oldest wallet's eviction
    callback throws: the exception escapes [activateWallet], the oldest
    wallet stays, and the new one is not subscribed. *)
Example throwing_eviction_callback_aborts :
  let cbs := Callbacks (Some 1) (Some 2) (Some 3) (Some 4) (Some 5) in
  let m := run 10 (λ _, false) (λ _ _, true)
             ((λ w, Activate w cbs) <$>
              ["0xA0"; "0xA1"; "0xA2"; "0xA3"; "0xA4";
               "0xA5"; "0xA6"; "0xA7"; "0xA8"; "0xA9"]%string) in
  ∃ m', activateWallet 10 (λ _, false) (λ _ _, true) "0xB0"%string cbs m = Thrown m' ∧
  activeWallets m' = activeWallets m ∧ unsubscribeFns m' = unsubscribeFns m ∧
  effects m' = effects m ++ [EvictionNotified 5 "0xa0"%string].
Proof. eexists. split; [vm_compute; reflexivity|]. vm_compute. by repeat split. Qed.

(** Claim C4, at the input where the code departs from it.  The wallet
    activated first has the empty string as its address; nine more bring
    the manager to the limit of ten.  Activating an eleventh wallet finds
    [oldestResult.value] falsy, evicts nobody, calls no eviction callback
    and no teardown closure, and leaves eleven wallets active. *)
Theorem empty_address_blocks_eviction :
  let cbs := Callbacks (Some 1) (Some 2) (Some 3) (Some 4) (Some 5) in
  let m := run 10 (λ _, false) (λ _ _, false)
             ((λ w, Activate w cbs) <$>
              [""; "0xA1"; "0xA2"; "0xA3"; "0xA4";
               "0xA5"; "0xA6"; "0xA7"; "0xA8"; "0xA9"]%string) in
  let m' := after_activate 10 (λ _, false) (λ _ _, false) "0xB0"%string cbs m in
  activateWallet 10 (λ _, false) (λ _ _, false) "0xB0"%string cbs m = Returned m' ∧
  getActiveWalletCount m = 10 ∧
  isWalletActive "0xB0"%string m = false ∧
  getActiveWalletCount m' = 11 ∧
  activeWallets m' = activeWallets m ++ ["0xb0"%string] ∧
  effects m' =
    effects m ++
    [Subscribed Transactions "0xb0"%string (Some 1) (Some 2) (Some 4);
     Subscribed Deposits "0xb0"%string (Some 3) None (Some 4)].
Proof. vm_compute. by repeat split. Qed.
End SubscriptionManagerFacts.


(** ** Change detection *)
Module NotificationsFacts.
Import Transactions Notifications JSMap JSMapFacts LRUMapFacts.

Lemma count_of_app f ns1 ns2 :
  count_of f (ns1 ++ ns2) = count_of f ns1 + count_of f ns2.
Proof. unfold count_of. by rewrite filter_app, length_app. Qed.

(** *** Balance *)

(** The rule of the balance effect, read off its one run. *)
Lemma balanceEffect_rule w cur s :
  ∃ ns, notifications (balanceEffect w cur s) = notifications s ++ ns ∧
        (ns = [] ∨ ∃ prev, ns = [VaultReceived w (cur - prev) cur]) ∧
        (ns ≠ [] ↔
           truthy w = true ∧
           ∃ prev, JSMap.get w (prevBalancesRef s) = Some prev ∧ (prev < cur)%Z ∧
                   JSMap.get w (lastNotifiedBalances s) ≠ Some cur).
Proof.
unfold balanceEffect. destruct (truthy w) eqn:Hw.
2:{ exists []. rewrite app_nil_r. split_and!; [done|by left|]. split; [done|by intros [? _]]. }
destruct (LRUMap.get w (lastNotifiedBalances s)) as [last tracker] eqn:Hget.
assert (last = JSMap.get w (lastNotifiedBalances s)) as ->.
{ by rewrite <-get_value, Hget. }
destruct (JSMap.get w (prevBalancesRef s)) as [prev|].
2:{ exists []. cbn. rewrite app_nil_r. split_and!; [done|by left|].
    split; [done|]. by intros [_ (? & ? & _)]. }
destruct (prev <? cur)%Z eqn:Hinc; cbn [andb].
2:{ exists []. cbn. rewrite app_nil_r. split_and!; [done|by left|].
    split; [done|]. intros [_ (p & [= <-] & Hlt & _)]. apply Z.ltb_ge in Hinc. lia. }
apply Z.ltb_lt in Hinc.
destruct (JSMap.get w (lastNotifiedBalances s)) as [l|] eqn:Hl; cbn [negb].
- case_bool_decide as Heq; cbn [negb].
  + exists []. cbn. rewrite app_nil_r. split_and!; [done|by left|].
    split; [done|]. intros [_ (p & _ & _ & Hne)]. by subst.
  + eexists. cbn. split_and!; [done|right; by eexists|].
    split; [intros _|done]. split; [done|]. exists prev. split_and!; try done.
    intros [= ->]. done.
- eexists. cbn. split_and!; [done|right; by eexists|].
  split; [intros _|done]. split; [done|]. by exists prev.
Qed.

Lemma pendingEffect_balances connected w txs s :
  lastNotifiedBalances (pendingEffect connected w txs s) = lastNotifiedBalances s ∧
  prevBalancesRef (pendingEffect connected w txs s) = prevBalancesRef s.
Proof.
unfold pendingEffect. destruct (truthy w); [|done].
by destruct (foldl _ _ _) as [cur t].
Qed.

Lemma balanceEffect_closed w cur s :
  truthy w = true →
  balanceEffect w cur s =
  let inc := balance_increase (JSMap.get w (prevBalancesRef s))
               (JSMap.get w (lastNotifiedBalances s)) cur in
  let tracker := (LRUMap.get w (lastNotifiedBalances s)).2 in
  State (match inc with
         | Some _ => LRUMap.set MAX_TRACKED_WALLETS w cur tracker
         | None => tracker
         end)
    (notifiedReadyTxs s) (notifiedProposedTxs s) (notifiedApprovals s)
    (JSMap.set w cur (prevBalancesRef s)) (prevPendingTxsRef s)
    (notifications s ++
     match inc with Some i => [VaultReceived w i cur] | None => [] end).
Proof.
intros Hw. unfold balanceEffect, balance_increase. rewrite Hw.
rewrite (surjective_pairing (LRUMap.get w (lastNotifiedBalances s))), get_value.
cbv zeta. destruct (JSMap.get w (prevBalancesRef s)) as [prev|]; [|done].
destruct (prev <? cur)%Z; [|done]. cbn [andb].
destruct (JSMap.get w (lastNotifiedBalances s)) as [l|].
- case_bool_decide as H1; case_bool_decide as H2; try done; congruence.
- by rewrite bool_decide_eq_false_2.
Qed.

Lemma balances_tracked_balanceEffect w cur s :
  balances_tracked s → balances_tracked (balanceEffect w cur s).
Proof.
intros [Hwf Hinv]. destruct (truthy w) eqn:Hw.
2:{ unfold balanceEffect. by rewrite Hw. }
rewrite balanceEffect_closed by done. cbv zeta.
set (tracker := (LRUMap.get w (lastNotifiedBalances s)).2).
assert (wf tracker) as Hwft by (by apply wf_get).
assert (∀ w', JSMap.get w' tracker = JSMap.get w' (lastNotifiedBalances s)) as Hsame.
{ intros w'. by apply lookup_after_get. }
destruct (balance_increase _ _ cur) as [inc|] eqn:Hinc;
  split; cbn [lastNotifiedBalances prevBalancesRef]; try done.
- by apply wf_set.
- intros w' X HX. destruct (decide (w' = w)) as [->|Hne].
  + exists cur. rewrite get_set_eq. split; [done|].
    rewrite get_after_set in HX by (done || (unfold MAX_TRACKED_WALLETS; lia)).
    injection HX as <-. lia.
  + rewrite get_set_ne by done. apply Hinv.
    destruct (lookup_after_set_other MAX_TRACKED_WALLETS w w' cur tracker Hwft Hne)
      as [Hnone|Hkeep]; [congruence|].
    by rewrite <-Hsame, <-Hkeep.
- intros w' X HX. rewrite Hsame in HX. destruct (decide (w' = w)) as [->|Hne].
  + exists cur. rewrite get_set_eq. split; [done|].
    destruct (Hinv w X HX) as (P & HP & HPX).
    unfold balance_increase in Hinc. rewrite HP, HX in Hinc.
    destruct (P <? cur)%Z eqn:Hlt; cbn [andb] in Hinc.
    * case_bool_decide as Heq; [|done]. injection Heq as ->. lia.
    * apply Z.ltb_ge in Hlt. lia.
  + rewrite get_set_ne by done. by apply Hinv.
Qed.

(** Every state a hook instance reaches tracks balances this way. *)
Lemma balances_tracked_run us : balances_tracked (run us).
Proof.
unfold run. induction us as [|u us IH] using rev_ind.
- split; [apply NoDup_nil_2|done].
- rewrite foldl_snoc. destruct u as [w balance|connected w txs]; cbn [apply_update].
  + by apply balances_tracked_balanceEffect.
  + unfold balances_tracked.
    destruct (pendingEffect_balances connected w txs (foldl apply_update init us))
      as [-> ->]. exact IH.
Qed.

(** A wallet with a last notified balance has a non-empty address, in
    every state one instance reaches from empty trackers. *)
Lemma tracked_balance_truthy us w X :
  JSMap.get w (lastNotifiedBalances (run us)) = Some X → truthy w = true.
Proof.
intros HX. destruct (balances_tracked_run us) as [_ Hinv].
destruct (Hinv w X HX) as (P & HP & _). clear X HX Hinv.
destruct (truthy w) eqn:Hw; [done|]. exfalso. revert P HP.
induction us as [|u us IH] using rev_ind; [done|].
unfold run. rewrite foldl_snoc. fold (run us).
destruct u as [w' b|c w' txs]; cbn [apply_update].
- unfold balanceEffect. destruct (truthy w') eqn:Hw'; [|apply IH].
  destruct (LRUMap.get w' _) as [? ?].
  destruct (match JSMap.get w' _ with Some _ => _ | None => _ end) as [? ?].
  cbn [prevBalancesRef]. intros P. rewrite get_set_ne by congruence. apply IH.
- rewrite (proj2 (pendingEffect_balances c w' txs (run us))). apply IH.
Qed.

(** Claim C6, as amended.  One run of the balance effect adds at most one
    notification, and adds it exactly when the wallet has a previous
    balance, the current balance is above it, and the current balance is
    not the last notified one.  Where the wallet's last notified balance
    is [X] and its previous balance is at most [X], a balance [Y > X]
    adds exactly one notification, and observing [Y] once more adds none.
    The previous balance is at most the last notified one in every state
    one instance of the hook reaches from empty trackers. *)
Theorem balance_increase_notified_once (s : state) w cur X P Y :
  (∃ ns, notifications (balanceEffect w cur s) = notifications s ++ ns ∧
         (ns = [] ∨ ∃ prev, ns = [VaultReceived w (cur - prev) cur]) ∧
         (ns ≠ [] ↔
            truthy w = true ∧
            ∃ prev, JSMap.get w (prevBalancesRef s) = Some prev ∧ (prev < cur)%Z ∧
                    JSMap.get w (lastNotifiedBalances s) ≠ Some cur)) ∧
  (truthy w = true →
   JSMap.get w (lastNotifiedBalances s) = Some X →
   JSMap.get w (prevBalancesRef s) = Some P → (P ≤ X)%Z → (X < Y)%Z →
     let s1 := balanceEffect w Y s in
     let s2 := balanceEffect w Y s1 in
     notifications s1 = notifications s ++ [VaultReceived w (Y - P) Y] ∧
     notifications s2 = notifications s1) ∧
  (∀ us, s = run us → JSMap.get w (lastNotifiedBalances s) = Some X →
     truthy w = true ∧
     ∃ P', JSMap.get w (prevBalancesRef s) = Some P' ∧ (P' ≤ X)%Z).
Proof.
split; [apply balanceEffect_rule|]. split.
- intros Hw HX HP HPX HXY s1 s2.
  assert (notifications s1 = notifications s ++ [VaultReceived w (Y - P) Y]) as Hs1.
  { unfold s1. rewrite balanceEffect_closed by done. cbv zeta. cbn [notifications].
    unfold balance_increase. rewrite HP, HX.
    rewrite (proj2 (Z.ltb_lt P Y)) by lia.
    rewrite bool_decide_eq_false_2 by (intros [= ->]; lia). done. }
  split; [done|].
  destruct (balanceEffect_rule w Y s1) as (ns2 & Hns2 & _ & Hfires2).
  fold s2 in Hns2. rewrite Hns2.
  destruct (decide (ns2 = [])) as [->|Hne2]; [by rewrite app_nil_r|].
  apply Hfires2 in Hne2 as (_ & prev & Hprev & Hlt & _).
  assert (JSMap.get w (prevBalancesRef s1) = Some Y) as HY.
  { unfold s1. rewrite balanceEffect_closed by done. cbv zeta.
    cbn [prevBalancesRef]. apply get_set_eq. }
  rewrite HY in Hprev. injection Hprev as <-. lia.
- intros us -> HX. split; [by eapply tracked_balance_truthy|].
  destruct (balances_tracked_run us) as [_ Hinv]. by apply Hinv.
Qed.

(** *** Pending transactions *)

Lemma MAX_TRACKED_WALLETS_pos : 0 < MAX_TRACKED_WALLETS.
Proof. unfold MAX_TRACKED_WALLETS. lia. Qed.

Lemma notified_set_after_get w tracker :
  wf tracker →
  notified_set w (LRUMap.get (toLowerCase w) tracker).2 = notified_set w tracker.
Proof. intros. unfold notified_set. by rewrite lookup_after_get. Qed.

Lemma notified_set_after_set w set tracker :
  wf tracker →
  notified_set w (LRUMap.set MAX_TRACKED_WALLETS (toLowerCase w) set tracker) = set.
Proof.
intros. unfold notified_set.
by rewrite get_after_set by (done || apply MAX_TRACKED_WALLETS_pos).
Qed.

Lemma newTransaction_spec w prevTxsMap tx t :
  wf (proposed t) →
  let t' := newTransaction w prevTxsMap tx t in
  let h := toLowerCase (hash tx) in
  ready t' = ready t ∧ approved t' = approved t ∧ wf (proposed t') ∧
  if bool_decide (0 < size prevTxsMap) && negb (JSSet.has h (notified_set w (proposed t)))
  then fired t' = fired t ++ [TransactionProposed (hash tx)] ∧
       notified_set w (proposed t') = JSSet.add h (notified_set w (proposed t))
  else fired t' = fired t ∧
       notified_set w (proposed t') = notified_set w (proposed t).
Proof.
intros Hwf. cbv zeta. unfold newTransaction.
rewrite (surjective_pairing (LRUMap.get (toLowerCase w) (proposed t))), get_value.
fold (notified_set w (proposed t)).
destruct (_ && _); cbn [ready approved proposed fired]; split_and!; try done.
- by apply wf_set, wf_get.
- by rewrite notified_set_after_set by (by apply wf_get).
- by apply wf_get.
- by apply notified_set_after_get.
Qed.

Lemma readyToExecute_spec w prevTx tx t :
  wf (ready t) →
  let t' := readyToExecute w prevTx tx t in
  let h := toLowerCase (hash tx) in
  proposed t' = proposed t ∧ approved t' = approved t ∧ wf (ready t') ∧
  if negb (threshold prevTx <=? numApprovals prevTx)%Z &&
     (threshold tx <=? numApprovals tx)%Z &&
     negb (JSSet.has h (notified_set w (ready t)))
  then fired t' = fired t ++ [TransactionReady (hash tx)] ∧
       notified_set w (ready t') = JSSet.add h (notified_set w (ready t))
  else fired t' = fired t ∧
       notified_set w (ready t') = notified_set w (ready t).
Proof.
intros Hwf. cbv zeta. unfold readyToExecute.
rewrite (surjective_pairing (LRUMap.get (toLowerCase w) (ready t))), get_value.
fold (notified_set w (ready t)).
destruct (_ && _); cbn [ready approved proposed fired]; split_and!; try done.
- by apply wf_set, wf_get.
- by rewrite notified_set_after_set by (by apply wf_get).
- by apply wf_get.
- by apply notified_set_after_get.
Qed.

Lemma approvals_loop_only_approvals (txHash : string) newApprovers set out :
  Forall approval_notice out →
  Forall approval_notice
    (foldl (λ '(set, out) approver,
              if JSSet.has (toLowerCase approver) set then (set, out)
              else (JSSet.add (toLowerCase approver) set,
                    out ++ [TransactionApproved approver txHash]))
       (set, out) newApprovers).2.
Proof.
revert set out. induction newApprovers as [|a l IH]; intros set out Hout; [done|].
cbn [foldl]. destruct (JSSet.has _ set); apply IH; [done|].
apply Forall_app. split; [done|]. by repeat constructor.
Qed.

Lemma approvalChanges_spec connected w prevTx tx t :
  let t' := approvalChanges connected w prevTx tx t in
  ready t' = ready t ∧ proposed t' = proposed t ∧
  ∃ extra, fired t' = fired t ++ extra ∧ Forall approval_notice extra.
Proof.
cbv zeta. unfold approvalChanges.
destruct connected as [c|]; [|split_and!; try done; exists []; by rewrite app_nil_r].
destruct (truthy c); [|split_and!; try done; exists []; by rewrite app_nil_r].
set (revoked := (λ revoker, ApprovalRevoked revoker (hash tx)) <$> _).
assert (Forall approval_notice revoked) as Hrev.
{ apply Forall_fmap, Forall_forall. by intros. }
destruct (filter _ (approvers (approvals tx))) as [|a l] eqn:Hnew.
{ cbn [ready proposed approved fired]. split_and!; try done. by exists revoked. }
rewrite <-Hnew. clear Hnew.
destruct (LRUMap.get _ (approved t)) as [found tracker].
destruct (match found with Some _ => _ | None => _ end) as [walletApprovals tracker1].
pose proof (approvals_loop_only_approvals (hash tx)
  (filter (λ addr, (addr ∉ approvers (approvals prevTx)) ∧
                   toLowerCase addr ≠ toLowerCase c) (approvers (approvals tx)))
  (default [] (JSMap.get (toLowerCase (hash tx)) walletApprovals)) [] (Forall_nil_2 _))
  as Hloop.
destruct (foldl _ _ _) as [notifiedSet' new]. cbn [snd] in Hloop.
cbn [ready proposed approved fired]. split_and!; try done.
exists (new ++ revoked). rewrite app_assoc. split; [done|]. by apply Forall_app.
Qed.

Lemma observe_spec connected w prevTxsMap cur t tx :
  wf (ready t) → wf (proposed t) →
  let t' := (observe connected w prevTxsMap (cur, t) tx).2 in
  let h := toLowerCase (hash tx) in
  wf (ready t') ∧ wf (proposed t') ∧
  match JSMap.get h prevTxsMap with
  | None =>
      ready t' = ready t ∧
      if bool_decide (0 < size prevTxsMap) &&
         negb (JSSet.has h (notified_set w (proposed t)))
      then fired t' = fired t ++ [TransactionProposed (hash tx)] ∧
           notified_set w (proposed t') = JSSet.add h (notified_set w (proposed t))
      else fired t' = fired t ∧
           notified_set w (proposed t') = notified_set w (proposed t)
  | Some prevTx =>
      proposed t' = proposed t ∧
      ∃ extra, Forall approval_notice extra ∧
        if negb (is_ready prevTx) && is_ready tx &&
           negb (JSSet.has h (notified_set w (ready t)))
        then fired t' = fired t ++ [TransactionReady (hash tx)] ++ extra ∧
             notified_set w (ready t') = JSSet.add h (notified_set w (ready t))
        else fired t' = fired t ++ extra ∧
             notified_set w (ready t') = notified_set w (ready t)
  end.
Proof.
intros Hr Hp. cbv zeta. unfold observe. cbn [snd].
destruct (JSMap.get _ prevTxsMap) as [prevTx|].
- destruct (readyToExecute_spec w prevTx tx t Hr) as (Hp1 & _ & Hr1 & Hfired).
  destruct (approvalChanges_spec connected w prevTx tx (readyToExecute w prevTx tx t))
    as (Hr2 & Hp2 & extra & Hextra & Hnotice).
  rewrite Hr2, Hp2, Hp1, Hextra. split_and!; try done.
  exists extra. split; [done|]. unfold is_ready.
  destruct (_ && _); destruct Hfired as [-> ->]; by rewrite <-?app_assoc.
- destruct (newTransaction_spec w prevTxsMap tx t Hp) as (Hr1 & _ & Hp1 & Hfired).
  rewrite Hr1. by split_and!.
Qed.

Lemma loop_index connected w prevTxsMap txs cur t :
  (foldl (observe connected w prevTxsMap) (cur, t) txs).1 = index_by_hash txs cur.
Proof.
revert cur t. induction txs as [|tx txs IH]; intros cur t; [done|].
cbn [foldl index_by_hash]. unfold observe at 2. by rewrite IH.
Qed.

(** A property of the trackers that every round of the loop keeps holds
    when the loop ends. *)
Lemma loop_invariant (P : tracking → Prop) connected w prevTxsMap txs cur t :
  P t →
  (∀ cur t tx, tx ∈ txs → P t → P (observe connected w prevTxsMap (cur, t) tx).2) →
  P (foldl (observe connected w prevTxsMap) (cur, t) txs).2.
Proof.
revert cur t. induction txs as [|tx txs IH]; intros cur t Ht Hstep; [done|].
cbn [foldl].
destruct (observe connected w prevTxsMap (cur, t) tx) as [cur1 t1] eqn:Hobs.
apply IH.
- specialize (Hstep cur t tx). rewrite Hobs in Hstep. apply Hstep; [|done].
  apply list_elem_of_here.
- intros cur' t' tx' Hin. apply Hstep. by apply list_elem_of_further.
Qed.

Lemma count_approval_notices f extra :
  (∀ n, approval_notice n → f n = false) →
  Forall approval_notice extra → count_of f extra = 0.
Proof.
intros Hf Hextra. unfold count_of. induction Hextra as [|n extra Hn _ IH]; [done|].
rewrite filter_cons_False; [done|]. rewrite Hf by done. done.
Qed.


Lemma ready_not_approval h n : approval_notice n → is_ready_for h n = false.
Proof. by destruct n. Qed.

Lemma pendingEffect_closed connected w txs s :
  truthy w = true →
  pendingEffect connected w txs s =
  let prevTxsMap := default [] (JSMap.get w (prevPendingTxsRef s)) in
  let t := (foldl (observe connected w prevTxsMap)
              ([], Tracking (notifiedReadyTxs s) (notifiedProposedTxs s)
                     (notifiedApprovals s) []) txs).2 in
  State (lastNotifiedBalances s) (ready t) (proposed t) (approved t)
    (prevBalancesRef s)
    (JSMap.set w (index_by_hash txs []) (prevPendingTxsRef s))
    (notifications s ++ fired t).
Proof.
intros Hw. unfold pendingEffect. rewrite Hw. cbv zeta.
rewrite (surjective_pairing (foldl _ _ txs)), loop_index. done.
Qed.


(** The loop keeps the two trackers well formed. *)
Lemma loop_wf connected w prevTxsMap txs cur t :
  wf (ready t) ∧ wf (proposed t) →
  let t' := (foldl (observe connected w prevTxsMap) (cur, t) txs).2 in
  wf (ready t') ∧ wf (proposed t').
Proof.
intros Ht. apply (loop_invariant (λ t, wf (ready t) ∧ wf (proposed t))); [done|].
intros cur' t' tx _ [Hr Hp].
destruct (observe_spec connected w prevTxsMap cur' t' tx Hr Hp) as (? & ? & _). done.
Qed.







Lemma trackers_wf_pendingEffect connected w txs s :
  trackers_wf s → trackers_wf (pendingEffect connected w txs s).
Proof.
intros Hwf. destruct (truthy w) eqn:Hw.
2:{ unfold pendingEffect. by rewrite Hw. }
rewrite pendingEffect_closed by done. cbv zeta. unfold trackers_wf.
cbn [notifiedReadyTxs notifiedProposedTxs]. by apply loop_wf.
Qed.

Lemma trackers_wf_balanceEffect w cur s :
  trackers_wf s → trackers_wf (balanceEffect w cur s).
Proof.
intros Hwf. destruct (truthy w) eqn:Hw.
2:{ unfold balanceEffect. by rewrite Hw. }
by rewrite balanceEffect_closed.
Qed.

Lemma trackers_wf_run us : trackers_wf (run us).
Proof.
unfold run. induction us as [|u us IH] using rev_ind.
- split; apply NoDup_nil_2.
- rewrite foldl_snoc. destruct u; cbn [apply_update].
  + by apply trackers_wf_balanceEffect.
  + by apply trackers_wf_pendingEffect.
Qed.




(** *** Ready to execute *)

Lemma recorded_add h x set :
  x ∉ set →
  recorded h (JSSet.add x set) = recorded h set + (if decide (x = h) then 1 else 0).
Proof.
intros Hx. unfold recorded, JSSet.add, JSSet.has.
rewrite (bool_decide_eq_false_2 (x ∈ set)) by done.
case_decide as Hxh.
- subst x. rewrite bool_decide_eq_true_2, bool_decide_eq_false_2; [done|done|].
  apply elem_of_app. right. apply list_elem_of_here.
- destruct (decide (h ∈ set)) as [Hin|Hout].
  + rewrite !bool_decide_eq_true_2; [done|done|]. apply elem_of_app. by left.
  + rewrite !bool_decide_eq_false_2; [done|done|].
    intros [?| ->%list_elem_of_singleton]%elem_of_app; done.
Qed.

Lemma add_mono (h x : string) set : h ∈ set → h ∈ JSSet.add x set.
Proof.
intros Hin. unfold JSSet.add. destruct (JSSet.has x set); [done|].
apply elem_of_app. by left.
Qed.

Lemma count_of_ready_one h txHash :
  count_of (is_ready_for h) [TransactionReady txHash] =
  if decide (toLowerCase txHash = h) then 1 else 0.
Proof.
unfold count_of. rewrite filter_cons, filter_nil. cbn [is_ready_for].
case_decide as Hb; case_decide as Hd; try done.
Qed.

(** One round of the loop: the ready notifications of [h] it adds are
    those by which the record of [h] grows, and a recorded hash stays
    recorded. *)
Lemma observe_ready connected w prevTxsMap cur t tx h :
  wf (ready t) → wf (proposed t) →
  let t' := (observe connected w prevTxsMap (cur, t) tx).2 in
  count_of (is_ready_for h) (fired t') + recorded h (notified_set w (ready t)) =
  count_of (is_ready_for h) (fired t) + recorded h (notified_set w (ready t')) ∧
  (h ∈ notified_set w (ready t) → h ∈ notified_set w (ready t')).
Proof.
intros Hr Hp. cbv zeta.
destruct (observe_spec connected w prevTxsMap cur t tx Hr Hp) as (_ & _ & Hstep).
destruct (JSMap.get _ prevTxsMap) as [prevTx|].
- destruct Hstep as (_ & extra & Hextra & Hfired).
  pose proof (count_approval_notices (is_ready_for h) extra (ready_not_approval h) Hextra)
    as Hzero.
  destruct (negb (is_ready prevTx) && is_ready tx) eqn:Hcross; cbn [andb] in Hfired.
  + destruct (JSSet.has _ _) eqn:Hhas; cbn [negb] in Hfired; destruct Hfired as [-> ->].
    * rewrite count_of_app, Hzero. split; [lia|done].
    * rewrite !count_of_app, Hzero, count_of_ready_one.
      apply bool_decide_eq_false in Hhas.
      rewrite recorded_add by done. split; [lia|apply add_mono].
  + destruct Hfired as [-> ->]. rewrite count_of_app, Hzero. split; [lia|done].
- destruct Hstep as (-> & Hfired).
  destruct (_ && _); destruct Hfired as [-> _]; [|done].
  rewrite count_of_app.
  replace (count_of (is_ready_for h) [TransactionProposed (hash tx)]) with 0 by done.
  split; [lia|done].
Qed.

Lemma loop_ready connected w prevTxsMap txs cur t h :
  wf (ready t) ∧ wf (proposed t) →
  let t' := (foldl (observe connected w prevTxsMap) (cur, t) txs).2 in
  count_of (is_ready_for h) (fired t') + recorded h (notified_set w (ready t)) =
  count_of (is_ready_for h) (fired t) + recorded h (notified_set w (ready t')) ∧
  (h ∈ notified_set w (ready t) → h ∈ notified_set w (ready t')).
Proof.
intros Ht.
apply (loop_invariant (λ t', (wf (ready t') ∧ wf (proposed t')) ∧
   count_of (is_ready_for h) (fired t') + recorded h (notified_set w (ready t)) =
   count_of (is_ready_for h) (fired t) + recorded h (notified_set w (ready t')) ∧
   (h ∈ notified_set w (ready t) → h ∈ notified_set w (ready t')))); [done|].
intros cur' t' tx _ ([Hr Hp] & Hcount & Hmono).
destruct (observe_spec connected w prevTxsMap cur' t' tx Hr Hp) as (Hr' & Hp' & _).
destruct (observe_ready connected w prevTxsMap cur' t' tx h Hr Hp) as [Hc Hm].
split_and!; try done; [lia|auto].
Qed.

(** A crossing met by the loop leaves the hash recorded. *)
Lemma loop_ready_crossing connected w prevTxsMap txs cur t h prevTx tx :
  wf (ready t) ∧ wf (proposed t) →
  tx ∈ txs → toLowerCase (hash tx) = h →
  JSMap.get h prevTxsMap = Some prevTx → is_ready prevTx = false → is_ready tx = true →
  h ∈ notified_set w (ready (foldl (observe connected w prevTxsMap) (cur, t) txs).2).
Proof.
intros Ht Hin Hh Hprev Hbelow Hat. revert cur t Ht.
induction txs as [|a txs IH]; intros cur t [Hr Hp]; [by apply elem_of_nil in Hin|].
cbn [foldl].
destruct (observe_spec connected w prevTxsMap cur t a Hr Hp) as (Hr' & Hp' & Hstep).
rewrite (surjective_pairing (observe connected w prevTxsMap (cur, t) a)).
apply elem_of_cons in Hin as [<-|Hin]; [|by apply IH].
apply loop_ready; [done|].
rewrite Hh, Hprev in Hstep. destruct Hstep as (_ & extra & _ & Hfired).
rewrite Hbelow, Hat in Hfired. cbn [negb andb] in Hfired.
destruct (JSSet.has h _) eqn:Hhas; cbn [negb] in Hfired; destruct Hfired as [_ ->].
- by apply bool_decide_eq_true in Hhas.
- unfold JSSet.add. rewrite Hhas. apply elem_of_app. right. apply list_elem_of_here.
Qed.

(** The same for one run of the effect. *)
Lemma pendingEffect_ready connected w txs s h :
  truthy w = true → trackers_wf s →
  let s' := pendingEffect connected w txs s in
  count_of (is_ready_for h) (notifications s') +
    recorded h (notified_set w (notifiedReadyTxs s)) =
  count_of (is_ready_for h) (notifications s) +
    recorded h (notified_set w (notifiedReadyTxs s')) ∧
  (h ∈ notified_set w (notifiedReadyTxs s) →
   h ∈ notified_set w (notifiedReadyTxs s')) ∧
  JSMap.get w (prevPendingTxsRef s') = Some (index_by_hash txs []) ∧
  (∀ prevTx tx, tx ∈ txs → toLowerCase (hash tx) = h →
     JSMap.get h (default [] (JSMap.get w (prevPendingTxsRef s))) = Some prevTx →
     is_ready prevTx = false → is_ready tx = true →
     h ∈ notified_set w (notifiedReadyTxs s')).
Proof.
intros Hw Hwf. cbv zeta. rewrite pendingEffect_closed by done. cbv zeta.
cbn [notifications notifiedReadyTxs prevPendingTxsRef].
set (prev := default [] (JSMap.get w (prevPendingTxsRef s))).
set (t0 := Tracking (notifiedReadyTxs s) (notifiedProposedTxs s) (notifiedApprovals s) []).
destruct (loop_ready connected w prev txs [] t0 h Hwf) as [Hcount Hmono].
split_and!.
- rewrite count_of_app. cbn [fired ready t0] in Hcount.
  unfold count_of at 2 in Hcount. cbn [filter list_filter length] in Hcount. lia.
- exact Hmono.
- apply get_set_eq.
- intros prevTx tx Hin Hh Hprev Hbelow Hat.
  by apply (loop_ready_crossing connected w prev txs [] t0 h prevTx tx).
Qed.

Lemma run_app us1 us2 : run (us1 ++ us2) = foldl apply_update (run us1) us2.
Proof. unfold run. by rewrite foldl_app. Qed.

Lemma ready_count_run w loads h :
  truthy w = true →
  let s := run (pending_updates w loads) in
  count_of (is_ready_for h) (notifications s) =
  recorded h (notified_set w (notifiedReadyTxs s)).
Proof.
intros Hw. cbv zeta. induction loads as [|l loads IH] using rev_ind; [done|].
unfold pending_updates in *. rewrite fmap_app, run_app. cbn [fmap list_fmap foldl apply_update].
destruct (pendingEffect_ready l.1 w l.2 (run ((λ l, PendingLoaded l.1 w l.2) <$> loads)) h Hw)
  as (Hcount & _); [apply trackers_wf_run|]. lia.
Qed.

Lemma ready_recorded_stays w loads more h :
  truthy w = true →
  h ∈ notified_set w (notifiedReadyTxs (run (pending_updates w loads))) →
  h ∈ notified_set w (notifiedReadyTxs (run (pending_updates w (loads ++ more)))).
Proof.
intros Hw Hin. induction more as [|l more IH] using rev_ind; [by rewrite app_nil_r|].
rewrite app_assoc. unfold pending_updates in *.
rewrite fmap_app, run_app. cbn [fmap list_fmap foldl apply_update].
by apply pendingEffect_ready; [|apply trackers_wf_run|].
Qed.

(** Over any sequence of runs of the pending effect of one wallet,
    starting from empty trackers, at most one ready notification is ever
    added for a transaction, and exactly one when somewhere in the
    sequence its approval count is stored below its threshold by one run
    and met at or above it by the next: the crossing is notified once, and
    later runs, on the same state or on any other, do not repeat it. *)
Lemma ready_once_for_one_wallet w (loads : list (option string * list PendingTransaction)) h :
  let s := run (pending_updates w loads) in
  count_of (is_ready_for h) (notifications s) ≤ 1 ∧
  (truthy w = true → crosses h loads →
   count_of (is_ready_for h) (notifications s) = 1 ∧
   ∀ more, count_of (is_ready_for h)
             (notifications (run (pending_updates w (loads ++ more)))) = 1).
Proof.
intros s. split.
- destruct (truthy w) eqn:Hw.
  + unfold s. rewrite ready_count_run by done. unfold recorded.
    destruct (JSSet.has _ _); lia.
  + assert (s = init) as ->; [|cbn; lia].
    unfold s. clear s. induction loads as [|l loads IH] using rev_ind; [done|].
    unfold pending_updates in *. rewrite fmap_app, run_app, IH. cbn.
    unfold pendingEffect. by rewrite Hw.
- intros Hw (i & l1 & l2 & prevTx & tx & Hl1 & Hl2 & Hprev & Hbelow & Hin & Hh & Hat).
  assert (h ∈ notified_set w (notifiedReadyTxs
            (run (pending_updates w (take (S (S i)) loads))))) as Hrec.
  { rewrite (take_S_r _ _ _ Hl2), (take_S_r _ _ _ Hl1).
    unfold pending_updates. rewrite !fmap_app, !run_app.
    cbn [fmap list_fmap foldl apply_update].
    set (s_a := run _).
    destruct (pendingEffect_ready l1.1 w l1.2 s_a h Hw) as (_ & _ & Hstored & _);
      [apply trackers_wf_run|].
    eapply pendingEffect_ready; try done.
    - replace (pendingEffect l1.1 w l1.2 s_a)
        with (run (pending_updates w (take i loads ++ [l1]))).
      + apply trackers_wf_run.
      + unfold pending_updates. by rewrite fmap_app, run_app.
    - by rewrite Hstored. }
  assert (∀ more, count_of (is_ready_for h)
            (notifications (run (pending_updates w (loads ++ more)))) = 1) as Hall.
  { intros more. rewrite ready_count_run by done. unfold recorded, JSSet.has.
    rewrite <-(take_drop (S (S i)) loads), <-app_assoc.
    rewrite (proj2 (bool_decide_eq_true _)); [done|].
    by apply ready_recorded_stays. }
  split; [|done]. specialize (Hall []). by rewrite app_nil_r in Hall.
Qed.

(** Without a crossing of [h] in the list, the record of [h] is as it
    was. *)
Lemma loop_ready_no_crossing connected w prevTxsMap txs cur t h :
  wf (ready t) ∧ wf (proposed t) →
  (∀ prevTx tx, tx ∈ txs → toLowerCase (hash tx) = h →
     JSMap.get h prevTxsMap = Some prevTx →
     ¬ (is_ready prevTx = false ∧ is_ready tx = true)) →
  recorded h (notified_set w (ready (foldl (observe connected w prevTxsMap) (cur, t) txs).2))
  = recorded h (notified_set w (ready t)).
Proof.
intros Ht Hnone.
apply (loop_invariant (λ t', (wf (ready t') ∧ wf (proposed t')) ∧
   recorded h (notified_set w (ready t')) = recorded h (notified_set w (ready t))));
  [done|].
intros cur' t' tx Hin ([Hr Hp] & Hrec).
destruct (observe_spec connected w prevTxsMap cur' t' tx Hr Hp) as (Hr' & Hp' & Hstep).
split; [done|]. rewrite <-Hrec.
destruct (JSMap.get (toLowerCase (hash tx)) prevTxsMap) as [prevTx|] eqn:Hprev.
- destruct Hstep as (_ & extra & _ & Hfired).
  destruct (negb (is_ready prevTx) && is_ready tx) eqn:Hcross; cbn [andb] in Hfired.
  + destruct (JSSet.has _ _) eqn:Hhas; cbn [negb] in Hfired; destruct Hfired as [_ ->];
      [done|].
    apply bool_decide_eq_false in Hhas. rewrite recorded_add by done.
    case_decide as Heq; [|lia]. exfalso.
    apply (Hnone prevTx tx Hin Heq); [by rewrite <-Heq|].
    apply andb_true_iff in Hcross as [Hb%negb_true_iff Ha]. done.
  + by destruct Hfired as [_ ->].
- by destruct Hstep as (-> & _).
Qed.

(** Claim C8, as amended.  When the approval count of a transaction of
    the list is at or above its threshold and the version the instance
    stored at its previous observation of the wallet was below, one run
    of the pending effect adds one ready notification for it if its hash
    is not recorded as notified for the wallet, and records the hash; if
    the hash is recorded it adds none.  Without such a crossing it adds
    none.  Once the hash is recorded the next observation of the wallet,
    of the same state or of any other, adds none.  Over the observations
    of one wallet from empty trackers the record is never lost: a
    transaction that crosses is notified once in total, whatever
    follows. *)
Theorem ready_notified_exactly_once us connected w txs h :
  truthy w = true →
  let s := run us in
  let s' := pendingEffect connected w txs s in
  let ready_notifications (s : state) := count_of (is_ready_for h) (notifications s) in
  let before := notified_set w (notifiedReadyTxs s) in
  let stored := default [] (JSMap.get w (prevPendingTxsRef s)) in
  let crossing :=
    ∃ prevTx tx, tx ∈ txs ∧ toLowerCase (hash tx) = h ∧
      JSMap.get h stored = Some prevTx ∧ is_ready prevTx = false ∧ is_ready tx = true in
  (crossing → h ∉ before → ready_notifications s' = ready_notifications s + 1) ∧
  (h ∈ before → ready_notifications s' = ready_notifications s) ∧
  (¬ crossing → ready_notifications s' = ready_notifications s) ∧
  (crossing ∨ h ∈ before →
     h ∈ notified_set w (notifiedReadyTxs s') ∧
     ∀ connected' txs',
       ready_notifications (pendingEffect connected' w txs' s') = ready_notifications s') ∧
  (∀ loads, us = pending_updates w loads →
     ready_notifications s ≤ 1 ∧
     (crosses h loads →
        ready_notifications s = 1 ∧
        ∀ more, ready_notifications (run (pending_updates w (loads ++ more))) = 1)).
Proof.
intros Hw s s' ready_notifications before stored crossing.
assert (∀ x (l : list string), recorded x l = if decide (x ∈ l) then 1 else 0) as Hrecorded.
{ intros x l. unfold recorded, JSSet.has. by case_bool_decide; case_decide. }
destruct (pendingEffect_ready connected w txs s h Hw (trackers_wf_run us))
  as (Hcount & Hmono & _ & Hcross). fold s' in Hcount, Hmono, Hcross.
fold before in Hcount, Hmono. rewrite !Hrecorded in Hcount.
assert (crossing → h ∈ notified_set w (notifiedReadyTxs s')) as Hafter.
{ intros (prevTx & tx & Hin & Hh & Hprev & Hbelow & Hat). by eapply Hcross. }
assert (h ∈ notified_set w (notifiedReadyTxs s') →
        ∀ connected' txs',
          ready_notifications (pendingEffect connected' w txs' s') = ready_notifications s')
  as Hsilent.
{ intros Hin connected' txs'.
  destruct (pendingEffect_ready connected' w txs' s' h Hw) as (Hcount' & Hmono' & _).
  { replace s' with (run (us ++ [PendingLoaded connected w txs]));
      [apply trackers_wf_run|]. by rewrite run_app. }
  rewrite !Hrecorded in Hcount'. rewrite decide_True in Hcount' by done.
  rewrite decide_True in Hcount' by auto. unfold ready_notifications. lia. }
unfold ready_notifications in *. split_and!.
- intros Hc Hnot. rewrite decide_False in Hcount by done.
  rewrite decide_True in Hcount by auto. lia.
- intros Hin. rewrite decide_True in Hcount by done.
  rewrite decide_True in Hcount by auto. lia.
- intros Hnone.
  assert (recorded h (notified_set w (notifiedReadyTxs s')) = recorded h before) as Hsame.
  { unfold s'. rewrite pendingEffect_closed by done. cbv zeta. cbn [notifiedReadyTxs].
    apply loop_ready_no_crossing; [apply trackers_wf_run|].
    intros prevTx tx Hin Hh Hprev [Hbelow Hat]. apply Hnone.
    by exists prevTx, tx. }
  rewrite !Hrecorded in Hsame. lia.
- intros [Hc|Hin]; (split; [auto|apply Hsilent; auto]).
- intros loads ->. destruct (ready_once_for_one_wallet w loads h) as [Hle Hone].
  split; [done|]. intros Hc. by apply Hone.
Qed.

Lemma ready_notified_exactly_once_witness :
  let tx n := PendingTx "0xAA"%string "0x5aAeb6053F3E94C9b9A09f33669435E7Ef1BeAed"%string
                "0"%string "0x"%string n 2 false false 0%Q
                "0xfB6916095ca1df60bB79Ce92cE3Ea74c37c5d359"%string [] false in
  let w := "0xdbF03B407c01E7cD3CBea99509d93f8DDDC8C6FB"%string in
  let s := run [PendingLoaded None w [tx 1%Z]] in
  let s' := pendingEffect None w [tx 2%Z] s in
  count_of (is_ready_for "0xaa"%string) (notifications s') = 1 ∧
  count_of (is_ready_for "0xaa"%string)
    (notifications (pendingEffect None w [tx 2%Z] s')) = 1.
Proof.
intros tx w s s'.
destruct (ready_notified_exactly_once [PendingLoaded None w [tx 1%Z]] None w [tx 2%Z]
            "0xaa"%string eq_refl) as (Hone & _ & _ & Hnext & _).
assert (∃ prevTx t, t ∈ [tx 2%Z] ∧ toLowerCase (hash t) = "0xaa"%string ∧
          JSMap.get "0xaa"%string (default [] (JSMap.get w (prevPendingTxsRef s)))
            = Some prevTx ∧ is_ready prevTx = false ∧ is_ready t = true) as Hcrossing.
{ exists (tx 1%Z), (tx 2%Z). split_and!; try reflexivity. apply list_elem_of_here. }
assert (count_of (is_ready_for "0xaa"%string) (notifications s') = 1) as Hfirst.
{ etransitivity; [apply (Hone Hcrossing)|reflexivity]. by intros ?%elem_of_nil. }
split; [exact Hfirst|].
destruct (Hnext (or_introl Hcrossing)) as [_ Hsilent].
etransitivity; [apply Hsilent|exact Hfirst].
Defined.

(** Claim C8 as the spec words it, at the inputs where the code departs
    from it.  A transaction of one wallet crosses its threshold and is
    notified.  When it falls below the threshold and crosses it again at
    once, the second crossing is not notified: the hash is recorded.
    When fifty other wallets have a crossing of their own notified in
    between, which fills the tracker of [MAX_TRACKED_WALLETS] records and
    drops the record of the first wallet, the second crossing is notified:
    the transaction has two ready notifications. *)
Lemma evicted_record_notifies_again :
  let tx n := PendingTx "0xAA"%string "0x5aAeb6053F3E94C9b9A09f33669435E7Ef1BeAed"%string
                "0"%string "0x"%string n 2 false false 0%Q
                "0xfB6916095ca1df60bB79Ce92cE3Ea74c37c5d359"%string [] false in
  let w := "0xdbF03B407c01E7cD3CBea99509d93f8DDDC8C6FB"%string in
  let other (i : nat) :=
    String "0" (String "x" (String (ascii_of_nat (48 + i / 10))
                              (String (ascii_of_nat (48 + i mod 10)) EmptyString))) in
  let tx' n := PendingTx "0xBB"%string "0x5aAeb6053F3E94C9b9A09f33669435E7Ef1BeAed"%string
                 "0"%string "0x"%string n 2 false false 0%Q
                 "0xfB6916095ca1df60bB79Ce92cE3Ea74c37c5d359"%string [] false in
  let crossing := [PendingLoaded None w [tx 1%Z]; PendingLoaded None w [tx 2%Z]] in
  let others :=
    seq 0 50 ≫= λ i, [PendingLoaded None (other i) [tx' 1%Z];
                      PendingLoaded None (other i) [tx' 2%Z]] in
  let first := run crossing in
  let twice := run (crossing ++ crossing) in
  let later := run (crossing ++ others) in
  let again := run (crossing ++ others ++ crossing) in
  count_of (is_ready_for "0xaa"%string) (notifications first) = 1 ∧
  count_of (is_ready_for "0xaa"%string) (notifications twice) = 1 ∧
  count_of (is_ready_for "0xaa"%string) (notifications later) = 1 ∧
  notified_set w (notifiedReadyTxs later) = [] ∧
  count_of (is_ready_for "0xaa"%string) (notifications again) = 2.
Proof. vm_compute. by repeat split. Qed.

Lemma balance_increase_notified_once_witness :
  let w := "0x5aAeb6053F3E94C9b9A09f33669435E7Ef1BeAed"%string in
  let s := run [WalletInfoLoaded w 5; WalletInfoLoaded w 10; WalletInfoLoaded w 7] in
  let s1 := balanceEffect w 25 s in
  let s2 := balanceEffect w 25 s1 in
  notifications s1 = notifications s ++ [VaultReceived w 18 25] ∧
  notifications s2 = notifications s1.
Proof.
intros w s.
destruct (balance_increase_notified_once s w 0 10 7 25) as (_ & Hone & _).
apply Hone; [reflexivity|reflexivity|reflexivity|lia|lia].
Defined.
End NotificationsFacts.


(** ** Cache reconciliation *)
Module ReconciliationFacts.
Import Transactions Reconciliation.

Lemma take_cap {A} (x : A) l n :
  take n (x :: l) `prefix_of` x :: l ∧
  length (take n (x :: l)) = S (length l) `min` n ∧
  (0 < n → head (take n (x :: l)) = Some x).
Proof.
split_and!.
- apply prefix_take.
- rewrite length_take. cbn [length]. lia.
- intros Hn. destruct n; [lia|done].
Qed.

Section merge.
Variable getAddress : string → option string.
Variable Date_getTime : string → Z.

Local Abbreviation convert := (convertIndexerTransaction getAddress Date_getTime).

Lemma MAX_CACHE_TRANSACTIONS_pos : 0 < MAX_CACHE_TRANSACTIONS.
Proof. unfold MAX_CACHE_TRANSACTIONS. lia. Qed.

(** What the record returned is made of. *)
Lemma convert_Some tx threshold confirmations converted :
  convert tx threshold confirmations = Some converted →
  ∃ approvals to proposer,
    checksummedOwners getAddress (filter (λ c, is_active c = true) confirmations)
      = Some approvals ∧
    getAddress (to_address tx) = Some to ∧
    getAddress (submitted_by tx) = Some proposer ∧
    converted =
      PendingTx (tx_hash tx) to (tx_value tx)
        (default "0x"%string (tx_data tx)) (confirmation_count tx) threshold
        (bool_decide (status tx = "executed"%string))
        (bool_decide (status tx = "cancelled"%string))
        (Qmake (Date_getTime (created_at tx)) 1000) proposer approvals false.
Proof.
unfold convertIndexerTransaction. intros Hconv.
destruct (checksummedOwners _ _) as [approvals|]; [|done]. cbn in Hconv.
destruct (getAddress (to_address tx)) as [to|]; [|done]. cbn in Hconv.
destruct (getAddress (submitted_by tx)) as [proposer|]; [|done]. cbn in Hconv.
injection Hconv as <-. by exists approvals, to, proposer.
Qed.

Lemma converted_hash tx threshold confirmations converted :
  convert tx threshold confirmations = Some converted →
  hash converted = tx_hash tx ∧ _optimistic converted = false.
Proof. by intros (? & ? & ? & _ & _ & _ & ->)%convert_Some. Qed.

(** The insert merge. *)
Lemma insert_merge_spec tx converted old :
  _optimistic converted = false →
  let new := insert_merge tx converted old in
  let kept := filter (λ t, _optimistic t = false ∨ hash t ≠ tx_hash tx) old in
  new `prefix_of` converted :: kept ∧
  length new = S (length kept) `min` MAX_CACHE_TRANSACTIONS ∧
  head new = Some converted ∧
  Forall (λ t, _optimistic t = true → hash t ≠ tx_hash tx) new.
Proof.
intros Hconv. cbv zeta. unfold insert_merge.
destruct (take_cap converted
            (filter (λ t, _optimistic t = false ∨ hash t ≠ tx_hash tx) old)
            MAX_CACHE_TRANSACTIONS) as (Hprefix & Hlen & Hhead).
split_and!; [done|done|apply Hhead, MAX_CACHE_TRANSACTIONS_pos|].
apply Forall_forall. intros t Hin Hopt.
assert (t ∈ converted :: filter (λ t, _optimistic t = false ∨ hash t ≠ tx_hash tx) old)
  as Hin'.
{ destruct Hprefix as [rest Hrest]. rewrite Hrest. apply elem_of_app. by left. }
apply elem_of_cons in Hin' as [->|Hin']; [congruence|].
apply list_elem_of_filter in Hin' as [[Hfalse|Hne] _]; [congruence|done].
Qed.

(** Claim C10.  With the wallet found and the effect still active, when
    [convertIndexerTransaction] returns the canonical record, the insert
    processor stores as pending list that record followed by the old
    entries, less the optimistic ones with the event's hash, cut to the
    first [MAX_CACHE_TRANSACTIONS]; the histories stay.  The update
    processor on a status of executed (or cancelled) stores the old
    pending list without the entries of that hash, and as executed (or
    cancelled) history the converted record followed by the old history,
    cut to the first [MAX_CACHE_TRANSACTIONS]: what falls off a full list
    is its end, the entries put in longest ago.  When the conversion
    throws there is no canonical record: both processors are rejected
    before their first write. *)
Theorem merge_prepends_and_caps tx threshold confirmations c :
  let old := default [] (pendingTransactions c) in
  let kept := filter (λ t, _optimistic t = false ∨ hash t ≠ tx_hash tx) old in
  let onInsert := onInsert getAddress Date_getTime tx (Some threshold) true true confirmations in
  let onUpdate := onUpdate getAddress Date_getTime tx (Some threshold) true true confirmations in
  (∀ converted, convert tx threshold confirmations = Some converted →
     ∃ inserted updated,
       onInsert c = Some inserted ∧ onUpdate c = Some updated ∧
       let moved (history : cache → option (list PendingTransaction)) :=
         pendingTransactions updated = Some (filter (λ t, hash t ≠ tx_hash tx) old) ∧
         ∃ new, history updated = Some new ∧
           new `prefix_of` converted :: default [] (history c) ∧
           length new = S (length (default [] (history c))) `min` MAX_CACHE_TRANSACTIONS ∧
           head new = Some converted in
       (∃ new, pendingTransactions inserted = Some new ∧
          new `prefix_of` converted :: kept ∧
          length new = S (length kept) `min` MAX_CACHE_TRANSACTIONS ∧
          head new = Some converted ∧
          Forall (λ t, _optimistic t = true → hash t ≠ tx_hash tx) new ∧
          executedTransactions inserted = executedTransactions c ∧
          cancelledTransactions inserted = cancelledTransactions c) ∧
       (status tx = "executed"%string →
          moved executedTransactions ∧
          cancelledTransactions updated = cancelledTransactions c) ∧
       (status tx = "cancelled"%string →
          moved cancelledTransactions ∧
          executedTransactions updated = executedTransactions c)) ∧
  (convert tx threshold confirmations = None → onInsert c = None ∧ onUpdate c = None).
Proof.
cbv zeta. split; [|unfold onInsert, onUpdate; cbn [andb]; by intros ->].
intros converted Hconv.
destruct (converted_hash _ _ _ _ Hconv) as [_ Hopt].
unfold onInsert, onUpdate. cbn [andb]. rewrite Hconv. cbn [mbind option_bind].
eexists _, _. split; [done|]. split; [done|]. split_and!.
- eexists. cbn [pendingTransactions executedTransactions cancelledTransactions updater].
  split; [done|].
  destruct (insert_merge_spec tx converted (default [] (pendingTransactions c)) Hopt)
    as (? & ? & ? & ?).
  by split_and!.
- intros Hstatus. rewrite bool_decide_eq_true_2 by done.
  cbn [pendingTransactions executedTransactions cancelledTransactions updater].
  split_and!; try done. eexists. split; [done|]. unfold history_merge.
  destruct (take_cap converted (default [] (executedTransactions c))
              MAX_CACHE_TRANSACTIONS) as (? & ? & Hhead).
  split_and!; [done|done|apply Hhead, MAX_CACHE_TRANSACTIONS_pos].
- intros Hstatus.
  rewrite bool_decide_eq_false_2 by (rewrite Hstatus; done).
  rewrite bool_decide_eq_true_2 by done.
  cbn [pendingTransactions executedTransactions cancelledTransactions updater].
  split_and!; try done. eexists. split; [done|]. unfold history_merge.
  destruct (take_cap converted (default [] (cancelledTransactions c))
              MAX_CACHE_TRANSACTIONS) as (? & ? & Hhead).
  split_and!; [done|done|apply Hhead, MAX_CACHE_TRANSACTIONS_pos].
Qed.
End merge.

Lemma merge_prepends_and_caps_witness :
  let tx := IndexerTx "0xAA"%string "0x5aaeb6053f3e94c9b9a09f33669435e7ef1beaed"%string
              "5"%string None 2 "executed"%string "2026-01-01"%string
              "0xfb6916095ca1df60bb79ce92ce3ea74c37c5d359"%string in
  let confirmations :=
    [Confirm "0xdbf03b407c01e7cd3cbea99509d93f8dddc8c6fb"%string true] in
  let placeholder := PendingTx "0xAA"%string
                       "0x5aAeb6053F3E94C9b9A09f33669435E7Ef1BeAed"%string "5"%string
                       "0x"%string 1 2 false false 0%Q
                       "0xfB6916095ca1df60bB79Ce92cE3Ea74c37c5d359"%string [] true in
  let c := Cache (Some [placeholder]) None None in
  ∃ converted updated,
    convertIndexerTransaction sample_getAddress (λ _, 0%Z) tx 2 confirmations
      = Some converted ∧
    to converted = "0x5aAeb6053F3E94C9b9A09f33669435E7Ef1BeAed"%string ∧
    onUpdate sample_getAddress (λ _, 0%Z) tx (Some 2%Z) true true confirmations c
      = Some updated ∧
    pendingTransactions updated = Some [] ∧
    ∃ new, executedTransactions updated = Some new ∧ head new = Some converted.
Proof.
intros tx confirmations placeholder c.
destruct (merge_prepends_and_caps sample_getAddress (λ _, 0%Z) tx 2%Z confirmations c)
  as [Hmerge _].
destruct (Hmerge _ eq_refl) as (inserted & updated & _ & Hupdated & _ & Hexecuted & _).
destruct Hexecuted as [[Hpending (new & Hnew & _ & _ & Hhead)] _]; [reflexivity|].
eexists _, updated. split; [reflexivity|]. split; [reflexivity|].
split; [exact Hupdated|]. split; [exact Hpending|]. exists new. by split.
Defined.
End ReconciliationFacts.


(** ** Reconnection *)
Module SubscriptionServiceFacts.
Import SubscriptionService.

Lemma retry_delay_mono a b : a < b → (retry_delay a < retry_delay b)%Z.
Proof.
unfold retry_delay, reconnectDelayMs. intros Hab.
apply Z.mul_lt_mono_pos_l; [lia|]. apply Z.pow_lt_mono_r; lia.
Qed.

Lemma retry_delay_le a b : a ≤ b → (retry_delay a ≤ retry_delay b)%Z.
Proof.
intros Hab. destruct (decide (a = b)) as [->|]; [done|].
apply Z.lt_le_incl, retry_delay_mono. lia.
Qed.

(** A failure below the limit sets one timer and counts the attempt. *)
Lemma failure_below_limit channelName onError st s a :
  failure st → reconnectAttempts s !! channelName = Some a →
  a < maxReconnectAttempts →
  on_status channelName onError st s =
  Service (channels s) (channelNames s) (<[channelName := a + 1]> (reconnectAttempts s))
    (timers s ++ [(channelName, retry_delay a)]) (opened s) (effects s).
Proof.
intros [-> | ->] Ha Hlt; cbn [on_status]; unfold handleReconnect;
  rewrite Ha; cbn [default from_option id]; by rewrite decide_False by lia.
Qed.

(** A failure at the limit sets no timer and reports the error. *)
Lemma failure_at_limit channelName onError st s a :
  failure st → reconnectAttempts s !! channelName = Some a →
  maxReconnectAttempts ≤ a →
  on_status channelName onError st s =
  match onError with
  | Some callback =>
      Service (channels s) (channelNames s) (reconnectAttempts s) (timers s) (opened s)
        (effects s ++ [ErrorReported callback a])
  | None => s
  end.
Proof.
intros [-> | ->] Ha Hge; cbn [on_status]; unfold handleReconnect;
  rewrite Ha; cbn [default from_option id]; by rewrite decide_True by lia.
Qed.

Lemma errors_snoc es e :
  errors (es ++ [e]) = errors es ++ if is_error e then [e] else [].
Proof.
unfold errors. rewrite filter_app. f_equal.
destruct (is_error e) eqn:He.
- by rewrite filter_cons_True.
- rewrite filter_cons_False; [done|]. by rewrite He.
Qed.

Lemma failures_snoc es e :
  failures (es ++ [e]) = failures es + if is_status e then 1 else 0.
Proof.
unfold failures. rewrite filter_app, length_app. f_equal.
destruct (is_status e) eqn:He.
- by rewrite filter_cons_True.
- rewrite filter_cons_False; [done|]. by rewrite He.
Qed.

(** A timer that fires touches neither the counters, nor the timers, nor
    the errors reported. *)
Lemma timer_fires_keeps channelName s :
  let s' := timer_fires channelName s in
  reconnectAttempts s' = reconnectAttempts s ∧ timers s' = timers s ∧
  errors (effects s') = errors (effects s).
Proof.
cbv zeta. unfold timer_fires, subscribe. destruct (channels s !! channelName);
  cbn [reconnectAttempts timers effects]; rewrite ?errors_snoc; cbn [is_error];
  by rewrite ?app_nil_r.
Qed.

Lemma consecutive_failures channelName onError s (es : list event) :
  Forall (is_retry channelName onError) es →
  reconnectAttempts s !! channelName = Some 0 →
  let s' := foldl handle s es in
  let n := failures es `min` maxReconnectAttempts in
  reconnectAttempts s' !! channelName = Some n ∧
  timers s' = timers s ++ ((λ a, (channelName, retry_delay a)) <$> seq 0 n) ∧
  errors (effects s') =
    errors (effects s) ++
    match onError with
    | Some callback =>
        replicate (failures es - maxReconnectAttempts)
          (ErrorReported callback maxReconnectAttempts)
    | None => []
    end.
Proof.
intros Hretry Hzero. cbv zeta.
induction es as [|e es IH] using rev_ind.
{ cbn. rewrite !app_nil_r. split_and!; try done. destruct onError; by rewrite ?app_nil_r. }
apply Forall_app in Hretry as [Hretry He]. apply Forall_cons in He as [He _].
destruct (IH Hretry) as (Hattempts & Htimers & Herrors). clear IH.
rewrite foldl_snoc, failures_snoc.
set (s1 := foldl handle s es) in *. set (k := failures es) in *.
destruct e as [?|name callback st|name|?|]; try done; cbn [is_retry] in He;
  cbn [handle is_status].
2:{ subst name. rewrite Nat.add_0_r.
    destruct (timer_fires_keeps channelName s1) as (-> & -> & ->). done. }
destruct He as (-> & -> & Hst).
destruct (decide (k < maxReconnectAttempts)) as [Hlt|Hge].
- rewrite (failure_below_limit channelName onError st s1 k);
    [|done|by rewrite Hattempts, Nat.min_l by lia|done].
  cbn [reconnectAttempts timers effects].
  replace ((k + 1) `min` maxReconnectAttempts) with (k + 1) by lia.
  rewrite Nat.min_l in Htimers by lia.
  split_and!.
  + by rewrite lookup_insert_eq.
  + rewrite Htimers, <-app_assoc. f_equal.
    by rewrite Nat.add_1_r, seq_S, fmap_app.
  + rewrite Herrors.
    replace (k + 1 - maxReconnectAttempts) with 0 by lia.
    by replace (k - maxReconnectAttempts) with 0 by lia.
- rewrite (failure_at_limit channelName onError st s1 maxReconnectAttempts);
    [|done|by rewrite Hattempts, Nat.min_r by lia|done].
  replace ((k + 1) `min` maxReconnectAttempts) with maxReconnectAttempts by lia.
  rewrite Nat.min_r in Hattempts, Htimers by lia.
  destruct onError as [callback|]; cbn [reconnectAttempts timers effects];
    split_and!; try done.
  rewrite errors_snoc, Herrors, <-app_assoc. f_equal. cbn [is_error].
  replace (k + 1 - maxReconnectAttempts) with (S (k - maxReconnectAttempts)) by lia.
  by rewrite replicate_S_end.
Qed.

Lemma delays_sorted n :
  StronglySorted Z.lt (retry_delay <$> seq 0 n) ∧
  Forall (λ d, n ≤ maxReconnectAttempts →
               (d ≤ retry_delay (maxReconnectAttempts - 1))%Z)
    (retry_delay <$> seq 0 n).
Proof.
split.
- induction n as [|n IH]; [constructor|].
  rewrite seq_S, fmap_app. apply StronglySorted_app_2; [|done|repeat constructor].
  intros x1 x2 (a & -> & Ha%elem_of_seq)%list_elem_of_fmap Hx2.
  cbn in Hx2. apply list_elem_of_singleton in Hx2 as ->. apply retry_delay_mono. lia.
- apply Forall_fmap, Forall_forall. intros a Ha%elem_of_seq Hn.
  apply retry_delay_le. lia.
Qed.

(** Claim C9, as amended.  A channel that reports [SUBSCRIBED] sets the
    attempt counter of its name to zero.  In what follows until the next
    [SUBSCRIBED], with channels of the name reporting failures
    ([CHANNEL_ERROR], [TIMED_OUT]) and the timers set for it firing, the
    first [maxReconnectAttempts] failures each set one timer, the [a]-th
    attempt with the delay [reconnectDelayMs * 2 ^ a] and no clamp: these
    delays increase strictly, and none exceeds
    [reconnectDelayMs * 2 ^ (maxReconnectAttempts - 1)], the ceiling the
    attempt limit imposes.  Every failure after that sets no timer, leaves
    the counter at the limit and calls [onError], when one was given, with
    the error that names the attempt count, once per failure.  Nothing is
    final about it: the next [SUBSCRIBED] sets the counter to zero
    again. *)
Theorem backoff_doubles_until_the_attempt_limit channelName onError s
    (es : list event) :
  Forall (is_retry channelName onError) es →
  let s0 := on_status channelName onError SUBSCRIBED s in
  let s' := foldl handle s0 es in
  let n := failures es `min` maxReconnectAttempts in
  reconnectAttempts s0 !! channelName = Some 0 ∧
  reconnectAttempts s' !! channelName = Some n ∧
  delays_since s0 s' = retry_delay <$> seq 0 n ∧
  StronglySorted Z.lt (delays_since s0 s') ∧
  Forall (λ d, (d ≤ retry_delay (maxReconnectAttempts - 1))%Z) (delays_since s0 s') ∧
  errors (effects s') =
    errors (effects s) ++
    match onError with
    | Some callback =>
        replicate (failures es - maxReconnectAttempts)
          (ErrorReported callback maxReconnectAttempts)
    | None => []
    end ∧
  reconnectAttempts (on_status channelName onError SUBSCRIBED s') !! channelName = Some 0.
Proof.
intros Hretry s0 s' n.
assert (∀ s, reconnectAttempts (on_status channelName onError SUBSCRIBED s) !! channelName
             = Some 0) as Hzero by (intros; apply lookup_insert_eq).
destruct (consecutive_failures channelName onError s0 es Hretry (Hzero s))
  as (Hattempts & Htimers & Herrors). fold s' n in Hattempts, Htimers, Herrors.
assert (delays_since s0 s' = retry_delay <$> seq 0 n) as Hdelays.
{ unfold delays_since. rewrite Htimers, drop_app_length, <-list_fmap_compose.
  by apply list_fmap_ext. }
destruct (delays_sorted n) as [Hsorted Hbound].
split_and!; [apply Hzero|done|done| | |done|apply Hzero].
- by rewrite Hdelays.
- rewrite Hdelays. eapply Forall_impl; [exact Hbound|]. cbn. intros d Hd. apply Hd.
  unfold n. lia.
Qed.

Lemma backoff_doubles_until_the_attempt_limit_witness :
  let name := "transactions:0xw"%string in
  let es := [Status name (Some 9) CHANNEL_ERROR; TimerFires name;
             Status name (Some 9) TIMED_OUT; TimerFires name;
             Status name (Some 9) CHANNEL_ERROR; Status name (Some 9) CHANNEL_ERROR;
             TimerFires name; TimerFires name;
             Status name (Some 9) TIMED_OUT; TimerFires name;
             Status name (Some 9) CHANNEL_ERROR; Status name (Some 9) TIMED_OUT] in
  let s0 := on_status name (Some 9) SUBSCRIBED (subscribe name create) in
  let s' := foldl handle s0 es in
  delays_since s0 s' = [1000; 2000; 4000; 8000; 16000]%Z ∧
  errors (effects s') = [ErrorReported 9 5; ErrorReported 9 5].
Proof.
intros name es s0 s'.
destruct (backoff_doubles_until_the_attempt_limit name (Some 9) (subscribe name create) es)
  as (_ & _ & Hdelays & _ & _ & Herrors & _).
- repeat constructor; first [by left|by right].
- split; [exact Hdelays|exact Herrors].
Defined.

(** Claim C9 as the spec words it, at the input where the listing departs
    from it.  A channel name fails until the attempt limit is reached and
    the error is reported.  The service has no failed state to be in: when
    a channel of the name then reports [SUBSCRIBED] and fails once more,
    the counter is back at one and a retry is scheduled at the base delay.
    And where the consumer gave no [onError], reaching the limit calls
    nothing. *)
Lemma no_failed_state_after_the_limit :
  let name := "transactions:0xw"%string in
  let retry := [Status name (Some 9) CHANNEL_ERROR; TimerFires name] in
  let s := run ([Subscribe name; Status name (Some 9) SUBSCRIBED] ++
                retry ++ retry ++ retry ++ retry ++ retry ++
                [Status name (Some 9) CHANNEL_ERROR]) in
  let s' := handle (handle s (Status name (Some 9) SUBSCRIBED))
              (Status name (Some 9) CHANNEL_ERROR) in
  reconnectAttempts s !! name = Some maxReconnectAttempts ∧
  errors (effects s) = [ErrorReported 9 5] ∧
  reconnectAttempts s' !! name = Some 1 ∧
  delays_since s s' = [reconnectDelayMs] ∧
  handle s (Status name None CHANNEL_ERROR) = s.
Proof. vm_compute. by repeat split. Qed.
End SubscriptionServiceFacts.


(** ** [SubscriptionManager]: the life of a subscription *)
Module SubscriptionManagerLifecycle.
Import SubscriptionManager JSMap JSMapFacts SubscriptionManagerFacts.
Section lifecycle.
Variable MAX_SUBSCRIPTIONS : nat.
Variable throws : unsubscriber → bool.
Variable evicted_throws : nat → string → bool.
Implicit Types (m : manager) (w : string) (callbacks : WalletSubscriptionCallbacks).

Local Abbreviation activateWallet := (activateWallet MAX_SUBSCRIPTIONS throws evicted_throws).
Local Abbreviation evict_oldest := (evict_oldest MAX_SUBSCRIPTIONS throws evicted_throws).
Local Abbreviation activate := (after_activate MAX_SUBSCRIPTIONS throws evicted_throws).
Local Abbreviation deactivate := (deactivateWallet throws).
Local Abbreviation reach :=
  (SubscriptionManager.run MAX_SUBSCRIPTIONS throws evicted_throws).

Lemma truthy_toLowerCase w : truthy (toLowerCase w) = truthy w.
Proof. by destruct w. Qed.

Lemma length_filter_ne {A} `{EqDecision A} (x : A) l :
  NoDup l → x ∈ l → S (length (filter (λ y, y ≠ x) l)) = length l.
Proof.
induction 1 as [|y l Hy Hnd IH]; [by intros ?%elem_of_nil|].
intros [->|Hin]%elem_of_cons.
- rewrite filter_cons_False by (by intros ?). cbn. f_equal.
  f_equal. clear IH Hnd. induction l as [|z l IH]; [done|].
  apply not_elem_of_cons in Hy as [? ?].
  rewrite filter_cons_True by done. by rewrite IH.
- rewrite filter_cons_True by (by intros ->). cbn. by rewrite IH.
Qed.

Lemma keys_set k' k (v : nat) (m : list (string * nat)) :
  k' ∈ keys (JSMap.set k v m) ↔ k' = k ∨ k' ∈ keys m.
Proof.
unfold keys. induction m as [|[k0 v0] m IH]; cbn.
- rewrite list_elem_of_singleton. split; [by left|]. by intros [?|?%elem_of_nil].
- destruct (decide (k0 = k)) as [->|Hne]; cbn; rewrite !elem_of_cons.
  + tauto.
  + rewrite IH. tauto.
Qed.

Lemma keys_delete_subset {V} k' k (m : list (string * V)) :
  k' ∈ keys (JSMap.delete k m) → k' ∈ keys m.
Proof.
unfold keys. induction m as [|[k0 v0] m IH]; cbn; [done|].
destruct (decide (k0 = k)); cbn; rewrite ?elem_of_cons; [by right|].
intros [?|?]; [by left|right; auto].
Qed.

Lemma held_delete k (fns : list (string * list unsubscriber)) us :
  JSMap.get k fns = Some us →
  fns ≫= snd ≡ₚ us ++ (JSMap.delete k fns ≫= snd).
Proof.
induction fns as [|[k0 v0] fns IH]; cbn; [done|].
destruct (decide (k0 = k)) as [->|Hne].
- by intros [= ->].
- intros Hget. cbn. rewrite (IH Hget).
  rewrite !app_assoc. f_equiv. apply Permutation_app_comm.
Qed.

Lemma log_call_unsubscribers warning us :
  opened_channels [warning] = [] → closed_channels [warning] = [] →
  evictions [warning] = [] →
  opened_channels (call_unsubscribers throws warning us) = [] ∧
  closed_channels (call_unsubscribers throws warning us) = us ∧
  evictions (call_unsubscribers throws warning us) = [].
Proof.
intros Ho Hc He. unfold call_unsubscribers.
induction us as [|u us (IHo & IHc & IHe)]; [done|].
cbn [mbind list_bind]. unfold opened_channels, closed_channels, evictions in *.
change (Unsubscribed u :: ?l) with ([Unsubscribed u] ++ l).
rewrite !omap_app, IHo, IHc, IHe.
destruct (throws u); rewrite ?Ho, ?Hc, ?He; done.
Qed.

Lemma log_subscribe a callbacks :
  opened_channels (subscribe callbacks <$> channels a callbacks) = channels a callbacks ∧
  closed_channels (subscribe callbacks <$> channels a callbacks) = [] ∧
  evictions (subscribe callbacks <$> channels a callbacks) = [].
Proof.
unfold channels. do 2 case_bool_decide; done.
Qed.


Lemma invariant_create : invariant create.
Proof.
split; [apply consistent_create|]. split; [|exact (perm_nil _)].
split; [constructor|]. by intros w ?%elem_of_nil.
Qed.

Lemma invariant_log m es :
  opened_channels es = [] → closed_channels es = [] → invariant m →
  invariant (Manager (activeWallets m) (unsubscribeFns m) (evictionCallbacks m)
               (effects m ++ es)).
Proof.
intros Ho Hc (? & ? & Hacc). split; [done|]. split; [done|].
unfold accounted, held, opened_channels, closed_channels in *. cbn [effects unsubscribeFns].
by rewrite !omap_app, Ho, Hc, !app_nil_r.
Qed.

Lemma invariant_deactivate w m : invariant m → invariant (deactivate w m).
Proof.
intros (Hc & (Hnd & Hsub) & Hacc).
split; [by apply consistent_deactivate|].
unfold deactivateWallet. destruct (JSMap.get _ _) as [us|] eqn:Hget; [|done].
split.
- split; cbn [evictionCallbacks activeWallets]; rewrite delete_filter by exact Hnd;
    rewrite keys_filter_other.
  + by apply NoDup_filter.
  + intros w' [Hne Hin]%list_elem_of_filter. unfold JSSet.delete.
    apply list_elem_of_filter. split; [done|auto].
- unfold accounted, held in *. cbn [effects unsubscribeFns].
  destruct (log_call_unsubscribers (Warned (toLowerCase w)) us) as (Ho & Hcl & _);
    [done..|].
  unfold opened_channels, closed_channels in *.
  rewrite !omap_app, Ho, Hcl, app_nil_r, Hacc, (held_delete _ _ _ Hget).
  by rewrite app_assoc.
Qed.

Lemma invariant_evict_oldest m :
  invariant m → invariant (state_after (evict_oldest m)).
Proof.
intros Hm.
destruct (evict_oldest_cases MAX_SUBSCRIPTIONS throws evicted_throws m)
  as [->|[(w0 & cb & _ & _ & _ & _ & ->)|(w0 & es & _ & _ & _ & -> & _ & ->)]];
  cbn [state_after]; [done|by apply invariant_log|].
apply invariant_deactivate. destruct (JSMap.get w0 _); [by apply invariant_log|].
rewrite app_nil_r. by destruct m.
Qed.

Lemma invariant_activate w callbacks m : invariant m → invariant (activate w callbacks m).
Proof.
intros Hinv. split; [apply consistent_activate, Hinv|].
unfold after_activate, SubscriptionManager.activateWallet.
destruct (JSSet.has _ (activeWallets m)) eqn:Hhas; [apply Hinv|].
apply set_has_false in Hhas.
pose proof (invariant_evict_oldest m Hinv) as Hinv1.
pose proof (evict_oldest_subset MAX_SUBSCRIPTIONS throws evicted_throws m (toLowerCase w))
  as Hsubset.
destruct (evict_oldest m) as [m1|m1]; cbn [state_after] in *; [|apply Hinv1].
destruct Hinv1 as ((Hnd & Hkeys & Hlow) & (Hcb & Hsub) & Hacc).
assert (toLowerCase w ∉ activeWallets m1) as Hfresh.
{ intros Hin. by apply Hhas, Hsubset. }
split.
- cbn [evictionCallbacks activeWallets]. unfold JSSet.add.
  rewrite (proj2 (set_has_false _ _) Hfresh).
  destruct (onEvicted callbacks) as [cb|]; split.
  + by apply wf_set_map.
  + intros w' [->|Hin]%keys_set; apply elem_of_app; [right|left; auto].
    apply list_elem_of_here.
  + done.
  + intros w' Hin. apply elem_of_app. left. auto.
- unfold accounted, held in *. cbn [effects unsubscribeFns].
  rewrite set_absent by (by rewrite Hkeys).
  destruct (log_subscribe (toLowerCase w) callbacks) as (Ho & Hcl & _).
  unfold opened_channels, closed_channels in *.
  rewrite !omap_app, Ho, Hcl, app_nil_r, Hacc, bind_app. cbn.
  by rewrite app_nil_r, app_assoc.
Qed.

Lemma log_cleanup (fns : list (string * list unsubscriber)) :
  let es := fns ≫= λ kv, call_unsubscribers throws WarnedCleanup kv.2 in
  opened_channels es = [] ∧ closed_channels es = fns ≫= snd ∧ evictions es = [].
Proof.
induction fns as [|[k us] fns (IHo & IHc & IHe)]; [done|].
cbn [mbind list_bind snd] in *. unfold opened_channels, closed_channels, evictions in *.
destruct (log_call_unsubscribers WarnedCleanup us) as (Ho & Hcl & He); [done..|].
unfold opened_channels, closed_channels, evictions in *.
rewrite !omap_app, IHo, IHc, IHe, Ho, Hcl, He. done.
Qed.

Lemma invariant_cleanup m : invariant m → invariant (cleanup throws m).
Proof.
intros (_ & _ & Hacc). split; [apply consistent_create|]. split.
- split; [constructor|]. by intros w ?%elem_of_nil.
- unfold accounted, held, cleanup in *. cbn [effects unsubscribeFns].
  destruct (log_cleanup (unsubscribeFns m)) as (Ho & Hcl & _).
  unfold opened_channels, closed_channels in *.
  rewrite !omap_app, Ho, Hcl. cbn. by rewrite !app_nil_r.
Qed.

Lemma invariant_run calls : invariant (reach calls).
Proof.
unfold SubscriptionManager.run.
induction calls as [|c calls IH] using rev_ind; [apply invariant_create|].
rewrite foldl_snoc. destruct c; cbn [perform].
- by apply invariant_activate.
- by apply invariant_deactivate.
- by apply invariant_cleanup.
Qed.

Lemma active_iff_held w m :
  consistent m →
  isWalletActive w m = true ↔ is_Some (JSMap.get (toLowerCase w) (unsubscribeFns m)).
Proof.
intros (_ & Hkeys & _). unfold isWalletActive. rewrite set_has_true, <-Hkeys.
rewrite <-has_true. unfold JSMap.has. apply bool_decide_eq_true.
Qed.

(** X1.  In every state the consumer can reach, the active set holds each
    wallet once and in lower case, the teardown map lists the same wallets
    in the same order, a wallet is active exactly when teardown closures
    are held for it, and an eviction callback is kept for active wallets
    only. *)
Theorem collections_stay_in_step calls w :
  let m := reach calls in
  NoDup (activeWallets m) ∧
  Forall (λ a, toLowerCase a = a) (activeWallets m) ∧
  JSMap.keys (unsubscribeFns m) = activeWallets m ∧
  (isWalletActive w m = true ↔
     is_Some (JSMap.get (toLowerCase w) (unsubscribeFns m))) ∧
  (is_Some (JSMap.get (toLowerCase w) (evictionCallbacks m)) →
     isWalletActive w m = true).
Proof.
intros m. destruct (invariant_run calls) as (Hc & (_ & Hsub) & _). fold m in Hc, Hsub.
pose proof Hc as (Hnd & Hkeys & Hlow).
split_and!; [done|done|done|by apply active_iff_held|].
intros Hsome. unfold isWalletActive. apply set_has_true, Hsub.
destruct (decide (toLowerCase w ∈ keys (evictionCallbacks m))) as [|Hn]; [done|].
apply get_None in Hn. rewrite Hn in Hsome. by destruct Hsome.
Qed.

(** The active count stays within the limit as long as no address is
    empty. *)
Lemma bounded_run calls :
  0 < MAX_SUBSCRIPTIONS →
  Forall (λ a, truthy a = true) (activated calls) →
  Forall (λ a, truthy a = true) (activeWallets (reach calls)) ∧
  getActiveWalletCount (reach calls) ≤ MAX_SUBSCRIPTIONS.
Proof.
intros Hmax. unfold SubscriptionManager.run, activated.
induction calls as [|c calls IH] using rev_ind; [cbn; split; [constructor|lia]|].
rewrite omap_app, foldl_snoc. intros [Hcalls Hc]%Forall_app.
destruct (IH Hcalls) as [Htruthy Hcount]. clear IH.
pose proof (consistent_run MAX_SUBSCRIPTIONS throws evicted_throws calls) as Hcons.
unfold SubscriptionManager.run in Hcons.
set (m := foldl _ _ calls) in *. destruct c as [w callbacks|w|]; cbn [perform].
- cbn in Hc. apply Forall_cons in Hc as [Hw _].
  destruct (isWalletActive w m) eqn:Hactive.
  { unfold after_activate, SubscriptionManager.activateWallet.
    unfold isWalletActive in Hactive. by rewrite Hactive. }
  unfold getActiveWalletCount, JSSet.size in *.
  destruct (decide (length (activeWallets m) = MAX_SUBSCRIPTIONS)) as [Hfull|Hroom].
  + destruct (activeWallets m) as [|w0 rest] eqn:Hact; [cbn in Hfull; lia|].
    assert (truthy w0 = true) as Hw0 by (by apply Forall_cons in Htruthy as [? ?]).
    assert (getActiveWalletCount m = MAX_SUBSCRIPTIONS) as Hcount0.
    { unfold getActiveWalletCount, JSSet.size. by rewrite Hact. }
    assert (head (activeWallets m) = Some w0) as Hhead by (by rewrite Hact).
    destruct (activate_at_limit_aborts_or_returns MAX_SUBSCRIPTIONS throws evicted_throws
                w callbacks m w0 Hcount0 Hactive Hhead Hw0)
      as [(cb & _ & _ & Hthrown)|Hreturns].
    { unfold after_activate. rewrite Hthrown. cbn [state_after activeWallets].
      rewrite Hact. split; [done|lia]. }
    destruct (activate_at_limit_evicts_oldest MAX_SUBSCRIPTIONS throws evicted_throws
                w callbacks m w0 Hcons Hmax Hcount0 Hactive Hhead Hw0 Hreturns)
      as (m' & Hm' & Hact' & Hcount' & _).
    unfold after_activate. rewrite Hm'. cbn [state_after].
    unfold getActiveWalletCount, JSSet.size in Hcount'.
    split; [|by rewrite Hcount'].
    rewrite Hact', Hact. cbn [tail]. apply Forall_cons in Htruthy as [_ Hrest].
    apply Forall_app. split; [done|]. repeat constructor.
    by rewrite truthy_toLowerCase.
  + unfold after_activate, SubscriptionManager.activateWallet.
    unfold isWalletActive in Hactive. rewrite Hactive.
    unfold SubscriptionManager.evict_oldest, JSSet.size. rewrite decide_False by lia.
    cbn [state_after activeWallets]. unfold JSSet.add. rewrite Hactive. split.
    * apply Forall_app. split; [done|]. repeat constructor.
      by rewrite truthy_toLowerCase.
    * rewrite length_app. cbn. lia.
- unfold deactivateWallet. destruct (JSMap.get _ _); [|done].
  unfold getActiveWalletCount, JSSet.size, JSSet.delete in *. cbn [activeWallets]. split.
  + apply Forall_forall. intros x [_ Hx]%list_elem_of_filter.
    by apply (proj1 (Forall_forall _ _) Htruthy).
  + pose proof (length_filter (λ y, y ≠ toLowerCase w) (activeWallets m)). lia.
- cbn. split; [constructor|lia].
Qed.

(** X2.  With a positive limit and no empty address among the activated
    ones, the number of active wallets never exceeds
    [MAX_SUBSCRIPTIONS], whatever the consumer calls. *)
Theorem limit_respected calls :
  0 < MAX_SUBSCRIPTIONS →
  Forall (λ a, truthy a = true) (activated calls) →
  getActiveWalletCount (reach calls) ≤ MAX_SUBSCRIPTIONS.
Proof. intros Hmax Hcalls. by apply bounded_run. Qed.

Lemma tail_lastn {A} n (l : list A) :
  0 < n → n ≤ length l → tail (lastn n l) = lastn (n - 1) l.
Proof.
intros Hn Hle. unfold lastn.
replace (length l - (n - 1)) with (length l - n + 1) by lia.
rewrite <-drop_drop. by destruct (drop (length l - n) l).
Qed.

(** X29.  Eviction follows the order of activation.  When no eviction
    callback throws and wallets with non-empty addresses that differ also
    in lower case are activated one after the other on a fresh manager,
    the active set is made of the last [MAX_SUBSCRIPTIONS] of them, in
    lower case and in the order they were activated in: each activation
    beyond the limit has evicted the wallet activated longest ago. *)
Theorem eviction_follows_activation_order
    (acts : list (string * WalletSubscriptionCallbacks)) :
  0 < MAX_SUBSCRIPTIONS →
  (∀ cb w, evicted_throws cb w = false) →
  Forall (λ a, truthy a.1 = true) acts →
  NoDup (toLowerCase <$> acts.*1) →
  activeWallets (reach ((λ a, Activate a.1 a.2) <$> acts)) =
  lastn MAX_SUBSCRIPTIONS (toLowerCase <$> acts.*1).
Proof.
intros Hmax Hreturns. unfold SubscriptionManager.run.
induction acts as [|[w callbacks] acts IH] using rev_ind; [done|].
rewrite !fmap_app. cbn [fmap list_fmap fst snd]. rewrite foldl_snoc. cbn [perform].
intros [Htruthy _]%Forall_app (Hnd & Hfresh & _)%NoDup_app.
specialize (IH Htruthy Hnd).
pose proof (consistent_run MAX_SUBSCRIPTIONS throws evicted_throws
              ((λ a, Activate a.1 a.2) <$> acts)) as Hcons.
unfold SubscriptionManager.run in Hcons.
set (m := foldl _ _ _) in *. set (L := toLowerCase <$> acts.*1) in *.
assert (∀ x, x ∈ lastn MAX_SUBSCRIPTIONS L → x ∈ L) as Hsub.
{ intros x Hx. rewrite (lastn_split MAX_SUBSCRIPTIONS L). apply elem_of_app. by right. }
assert (toLowerCase w ∉ L) as Hw.
{ intros Hin. apply (Hfresh _ Hin), list_elem_of_here. }
assert (isWalletActive w m = false) as Hinactive.
{ unfold isWalletActive. apply set_has_false. rewrite IH. intros Hin. by apply Hw, Hsub. }
destruct (decide (MAX_SUBSCRIPTIONS ≤ length L)) as [Hfull|Hroom].
- assert (getActiveWalletCount m = MAX_SUBSCRIPTIONS) as Hcount.
  { unfold getActiveWalletCount, JSSet.size. rewrite IH, lastn_length. lia. }
  destruct (activeWallets m) as [|w0 rest] eqn:Hact.
  { unfold getActiveWalletCount, JSSet.size in Hcount. rewrite Hact in Hcount.
    cbn in Hcount. lia. }
  assert (truthy w0 = true) as Hw0.
  { assert (w0 ∈ L) as Hin by (apply Hsub; rewrite <-IH; apply list_elem_of_here).
    apply list_elem_of_fmap in Hin as (x & -> & Hx).
    apply list_elem_of_fmap in Hx as (a & -> & Ha). rewrite truthy_toLowerCase.
    by apply (proj1 (Forall_forall _ _) Htruthy). }
  assert (head (activeWallets m) = Some w0) as Hhead by (by rewrite Hact).
  destruct (activate_at_limit_evicts_oldest MAX_SUBSCRIPTIONS throws evicted_throws
              w callbacks m w0 Hcons Hmax Hcount Hinactive Hhead Hw0)
    as (m' & Hm' & Hact' & _); [by intros|].
  unfold after_activate. rewrite Hm'. cbn [state_after].
  rewrite Hact', Hact, IH, LRUMapFacts.lastn_snoc by done. f_equal. by apply tail_lastn.
- unfold after_activate, SubscriptionManager.activateWallet.
  unfold isWalletActive in Hinactive. rewrite Hinactive.
  unfold SubscriptionManager.evict_oldest, JSSet.size. rewrite IH, lastn_length.
  rewrite decide_False by lia. cbn [state_after activeWallets]. unfold JSSet.add.
  rewrite Hinactive, IH. rewrite !lastn_all; [done| |lia].
  rewrite length_app. cbn [length]. lia.
Qed.

Lemma delete_absent {V} k (m : list (string * V)) :
  k ∉ keys m → JSMap.delete k m = m.
Proof.
unfold keys. induction m as [|[k0 v0] m IH]; cbn; [done|].
intros [Hne Hm]%not_elem_of_cons. rewrite decide_False by done. by rewrite IH.
Qed.

Lemma delete_snoc_absent {V} k (v : V) (m : list (string * V)) :
  k ∉ keys m → JSMap.delete k (m ++ [(k, v)]) = m.
Proof.
unfold keys. induction m as [|[k0 v0] m IH]; cbn.
- intros _. by rewrite decide_True.
- intros [Hne Hm]%not_elem_of_cons. rewrite decide_False by done. by rewrite IH.
Qed.

Lemma filter_ne_absent (x : string) (l : list string) :
  x ∉ l → filter (λ y, y ≠ x) l = l.
Proof.
induction l as [|z l IH]; [done|]. intros [Hne Hl]%not_elem_of_cons.
rewrite filter_cons_True by done. by rewrite IH.
Qed.

(** X3.  [deactivateWallet] on a wallet that is not active changes
    nothing.  On an active wallet it calls each of the wallet's teardown
    closures once, in order and also after one of them threw, opens no
    channel and calls no eviction callback; afterwards the wallet is
    inactive, its teardown closures and its eviction callback are
    forgotten, the active count is one less and every other wallet is as
    active as before. *)
Theorem deactivate_releases_the_wallet calls w :
  let m := reach calls in
  let m' := deactivate w m in
  (isWalletActive w m = false → m' = m) ∧
  (isWalletActive w m = true →
     ∃ us, JSMap.get (toLowerCase w) (unsubscribeFns m) = Some us ∧
       isWalletActive w m' = false ∧
       S (getActiveWalletCount m') = getActiveWalletCount m ∧
       (∀ w', toLowerCase w' ≠ toLowerCase w →
              isWalletActive w' m' = isWalletActive w' m) ∧
       JSMap.get (toLowerCase w) (unsubscribeFns m') = None ∧
       JSMap.get (toLowerCase w) (evictionCallbacks m') = None ∧
       closed_channels (effects m') = closed_channels (effects m) ++ us ∧
       opened_channels (effects m') = opened_channels (effects m) ∧
       evictions (effects m') = evictions (effects m)).
Proof.
intros m m'. destruct (invariant_run calls) as (Hc & (Hcb & _) & _). fold m in Hc, Hcb.
pose proof Hc as (Hnd & Hkeys & Hlow). split.
- intros Hinactive. unfold isWalletActive in Hinactive.
  apply set_has_false in Hinactive. rewrite <-Hkeys in Hinactive.
  apply get_None in Hinactive. unfold m', deactivateWallet. by rewrite Hinactive.
- intros Hactive. unfold isWalletActive in Hactive. apply set_has_true in Hactive.
  destruct (JSMap.get (toLowerCase w) (unsubscribeFns m)) as [us|] eqn:Hget.
  2:{ apply get_None in Hget. by rewrite Hkeys in Hget. }
  exists us. split; [done|]. unfold m', deactivateWallet. rewrite Hget.
  unfold isWalletActive, getActiveWalletCount, JSSet.size, JSSet.delete.
  cbn [activeWallets unsubscribeFns evictionCallbacks effects].
  destruct (log_call_unsubscribers (Warned (toLowerCase w)) us) as (Ho & Hcl & He);
    [done..|].
  unfold opened_channels, closed_channels, evictions in *.
  rewrite !omap_app, Ho, Hcl, He, !app_nil_r. split_and!; try done.
  + apply set_has_false. by intros [? _]%list_elem_of_filter.
  + by apply length_filter_ne.
  + intros w' Hne. unfold JSSet.has. apply bool_decide_ext.
    rewrite list_elem_of_filter. tauto.
  + rewrite delete_filter by (unfold wf; by rewrite Hkeys).
    apply get_filter_other_same.
  + rewrite delete_filter by exact Hcb. apply get_filter_other_same.
Qed.

(** X4.  Below the limit, activating a wallet that is not active and
    deactivating it again leaves the three collections as they were; the
    channels the activation opened are the ones the deactivation closed. *)
Theorem activate_then_deactivate_restores calls w callbacks :
  let m := reach calls in
  let m' := deactivate w (activate w callbacks m) in
  isWalletActive w m = false →
  getActiveWalletCount m < MAX_SUBSCRIPTIONS →
  activeWallets m' = activeWallets m ∧
  unsubscribeFns m' = unsubscribeFns m ∧
  evictionCallbacks m' = evictionCallbacks m ∧
  opened_channels (effects m') =
    opened_channels (effects m) ++ channels (toLowerCase w) callbacks ∧
  closed_channels (effects m') =
    closed_channels (effects m) ++ channels (toLowerCase w) callbacks.
Proof.
intros m m' Hinactive Hroom.
destruct (invariant_run calls) as ((Hnd & Hkeys & Hlow) & (Hcb & Hsub) & _).
fold m in Hnd, Hkeys, Hlow, Hcb, Hsub.
unfold isWalletActive in Hinactive. unfold getActiveWalletCount in Hroom.
pose proof Hinactive as Hfresh. apply set_has_false in Hfresh.
set (a := toLowerCase w) in *.
assert (a ∉ keys (unsubscribeFns m)) as Hfns by (by rewrite Hkeys).
assert (a ∉ keys (evictionCallbacks m)) as Hev by (intros Hin; by apply Hfresh, Hsub).
unfold m', after_activate, SubscriptionManager.activateWallet. fold a. rewrite Hinactive.
unfold SubscriptionManager.evict_oldest. rewrite decide_False by lia.
cbn [state_after]. unfold deactivateWallet. cbn [activeWallets unsubscribeFns evictionCallbacks effects].
fold a.
rewrite set_absent by done. rewrite LRUMapFacts.get_snoc_absent by done.
cbn [activeWallets unsubscribeFns evictionCallbacks effects].
unfold JSSet.add, JSSet.delete. rewrite Hinactive.
destruct (log_call_unsubscribers (Warned a) (channels a callbacks)) as (Ho & Hcl & _);
  [done..|].
destruct (log_subscribe a callbacks) as (Ho' & Hcl' & _).
unfold opened_channels, closed_channels in *.
rewrite !omap_app, Ho, Hcl, Ho', Hcl', !app_nil_r.
split_and!; try done.
- rewrite filter_app, filter_ne_absent by done.
  rewrite filter_cons_False by (by intros ?). apply app_nil_r.
- by apply delete_snoc_absent.
- destruct (onEvicted callbacks) as [cb|].
  + rewrite set_absent by done. by apply delete_snoc_absent.
  + by apply delete_absent.
Qed.

(** X5.  [cleanup] calls every teardown closure the manager holds, each
    once and in the order of the teardown map, and no eviction callback;
    afterwards no wallet is active, nothing is held, every channel ever
    opened has been closed, and a second [cleanup] does nothing. *)
Theorem cleanup_releases_everything calls :
  let m := reach calls in
  let m' := cleanup throws m in
  getActiveWalletCount m' = 0 ∧ unsubscribeFns m' = [] ∧ evictionCallbacks m' = [] ∧
  closed_channels (effects m') = closed_channels (effects m) ++ held m ∧
  opened_channels (effects m') ≡ₚ closed_channels (effects m') ∧
  evictions (effects m') = evictions (effects m) ∧
  cleanup throws m' = m'.
Proof.
intros m m'. destruct (invariant_run calls) as (_ & _ & Hacc). fold m in Hacc.
unfold accounted in Hacc. unfold m', cleanup.
cbn [activeWallets unsubscribeFns evictionCallbacks effects].
destruct (log_cleanup (unsubscribeFns m)) as (Ho & Hcl & He).
unfold opened_channels, closed_channels, evictions, held in *.
rewrite !omap_app, Ho, Hcl, He, !app_nil_r. split_and!; try done.
Qed.

(** X6.  No channel is lost: in every state the consumer can reach, the
    channels opened so far are, counted with multiplicity, the channels
    closed so far together with the ones whose teardown closure the
    manager still holds. *)
Theorem every_channel_closed_or_held calls :
  let m := reach calls in
  opened_channels (effects m) ≡ₚ closed_channels (effects m) ++ held m ∧
  length (opened_channels (effects m)) =
    length (closed_channels (effects m)) + length (held m).
Proof.
intros m. destruct (invariant_run calls) as (_ & _ & Hacc). fold m in Hacc.
split; [done|]. unfold accounted in Hacc. by rewrite Hacc, length_app.
Qed.

End lifecycle.

Lemma eviction_follows_activation_order_witness :
  activeWallets
    (run 2 (λ _, false) (λ _ _, false)
       [Activate "0xA"%string (Callbacks (Some 1) None None None (Some 9));
        Activate "0xB"%string (Callbacks (Some 1) None None None (Some 9));
        Activate "0xC"%string (Callbacks None None (Some 1) None None);
        Activate "0xD"%string (Callbacks None None (Some 1) None None)]) =
  ["0xc"%string; "0xd"%string].
Proof.
apply (eviction_follows_activation_order 2 (λ _, false) (λ _ _, false)
         [("0xA"%string, Callbacks (Some 1) None None None (Some 9));
          ("0xB"%string, Callbacks (Some 1) None None None (Some 9));
          ("0xC"%string, Callbacks None None (Some 1) None None);
          ("0xD"%string, Callbacks None None (Some 1) None None)]).
- lia.
- done.
- repeat constructor.
- compute_done.
Defined.

Lemma limit_respected_witness :
  getActiveWalletCount
    (run 2 (λ _, false) (λ _ _, false)
       [Activate "0xA"%string (Callbacks (Some 1) None None None None);
        Activate "0xB"%string (Callbacks (Some 1) None None None None);
        Deactivate "0xA"%string;
        Activate "0xC"%string (Callbacks (Some 1) None None None None);
        Activate "0xD"%string (Callbacks (Some 1) None None None (Some 2))]) ≤ 2.
Proof. apply limit_respected; [lia|]. repeat constructor. Defined.

Lemma deactivate_releases_the_wallet_witness :
  let m := run 2 (λ u, bool_decide (u.1 = Transactions)) (λ _ _, false)
             [Activate "0xA"%string (Callbacks (Some 1) None (Some 2) None None)] in
  ∃ us, JSMap.get "0xa"%string (unsubscribeFns m) = Some us ∧
        isWalletActive "0xA"%string
          (deactivateWallet (λ u, bool_decide (u.1 = Transactions)) "0xA"%string m) = false.
Proof.
intros m.
destruct (proj2 (deactivate_releases_the_wallet 2 (λ u, bool_decide (u.1 = Transactions))
                   (λ _ _, false)
                   [Activate "0xA"%string (Callbacks (Some 1) None (Some 2) None None)]
                   "0xA"%string)) as (us & Hget & Hinactive & _).
- vm_compute. reflexivity.
- exists us. split; [exact Hget|exact Hinactive].
Defined.

Lemma activate_then_deactivate_restores_witness :
  let m := run 2 (λ _, false) (λ _ _, false)
             [Activate "0xA"%string (Callbacks (Some 1) None (Some 2) None None)] in
  let m' := deactivateWallet (λ _, false) "0xb"%string
              (after_activate 2 (λ _, false) (λ _ _, false) "0xb"%string
                 (Callbacks None (Some 3) None None (Some 4)) m) in
  activeWallets m' = activeWallets m ∧ unsubscribeFns m' = unsubscribeFns m ∧
  evictionCallbacks m' = evictionCallbacks m.
Proof.
intros m m'.
destruct (activate_then_deactivate_restores 2 (λ _, false) (λ _ _, false)
            [Activate "0xA"%string (Callbacks (Some 1) None (Some 2) None None)]
            "0xb"%string (Callbacks None (Some 3) None None (Some 4)))
  as (H1 & H2 & H3 & _).
- vm_compute. reflexivity.
- vm_compute. lia.
- split; [exact H1|]. split; [exact H2|exact H3].
Defined.
End SubscriptionManagerLifecycle.


(** ** The ordered update queue: depth and effect clean-up *)
Module UpdateQueueAccounting.
Import UpdateQueue UpdateQueueFacts.

Lemma started_snoc t e :
  started (t ++ [e]) = started t ++ match e with EvStart c => [c] | _ => [] end.
Proof. unfold started. rewrite omap_app. by destruct e. Qed.

Lemma settle_observed p o s :
  trace (settle p o s) = trace s ∧ calls (settle p o s) = calls s ∧
  inactive (settle p o s) = inactive s.
Proof. unfold settle. by destruct (heap s !! p) as [[]|]. Qed.

Lemma register_observed p mk s :
  trace (register p mk s).2 = trace s ∧ calls (register p mk s).2 = calls s ∧
  inactive (register p mk s).2 = inactive s.
Proof. unfold register. by destruct (heap s !! p) as [[]|]. Qed.

(** What one input does to the call counter, to the cleaned-up effect
    runs and to the processors started. *)
Lemma step_observed s i links k st :
  chain s links k st →
  calls (step s i) = calls s + length (scopes [i]) ∧
  inactive s ⊆ inactive (step s i) ∧
  ∃ new, started (trace (step s i)) = started (trace s) ++ new ∧
    ∀ c, c ∈ new → ∃ sc, (c, sc) ∈ links ∧ sc ∉ inactive s.
Proof.
intros Hchain. destruct i as [scope| |call o|scope]; cbn [step scopes omap list_omap length].
- unfold queueCacheUpdate. case_decide.
  + cbn [calls inactive trace]. split; [lia|]. split; [done|].
    exists []. rewrite started_snoc, app_nil_r. split; [done|]. by intros c ?%elem_of_nil.
  + destruct (register _ _ s) as [a s1]. destruct (register a _ s1) as [b s2].
    destruct (register b _ s2) as [c s3]. destruct (register c _ s3) as [d s4].
    cbn [calls inactive trace]. split; [lia|]. split; [done|].
    exists []. rewrite started_snoc, app_nil_r. split; [done|]. by intros ? ?%elem_of_nil.
- rewrite Nat.add_0_r. unfold promise_job.
  destruct (jobs s) as [|[r o] rest] eqn:Hjobs.
  { split; [done|]. split; [done|]. exists []. rewrite app_nil_r.
    split; [done|]. by intros ? ?%elem_of_nil. }
  set (s0 := with_promises (heap s) (next s) rest s).
  assert (trace s0 = trace s ∧ calls s0 = calls s ∧ inactive s0 = inactive s)
    as (Ht0 & Hc0 & Hi0) by done.
  destruct r as [q|call scope q|q|q].
  + cbn [fire]. destruct (settle_observed q Fulfilled s0) as (-> & -> & ->).
    rewrite Ht0, Hc0, Hi0. split; [done|]. split; [done|]. exists [].
    rewrite app_nil_r. split; [done|]. by intros ? ?%elem_of_nil.
  + destruct o; cbn [fire].
    * destruct (decide (scope ∈ inactive s0)) as [Hin|Hout].
      -- destruct (settle_observed q Fulfilled (log (EvSkipped call) s0)) as (-> & -> & ->).
         cbn [log trace calls inactive]. rewrite Ht0, Hc0, Hi0, started_snoc, app_nil_r.
         split; [done|]. split; [done|]. exists []. rewrite app_nil_r.
         split; [done|]. by intros ? ?%elem_of_nil.
      -- cbn [log trace calls inactive]. rewrite Ht0, Hc0, Hi0, started_snoc.
         split; [done|]. split; [done|]. exists [call]. split; [done|].
         intros c ->%list_elem_of_singleton. exists scope. rewrite Hi0 in Hout.
         split; [|done].
         destruct Hchain as [_ _ _ _ Hcur _ _ _ _ _ _ _].
         destruct st; cbn [current] in Hcur.
         ++ destruct Hcur as (_ & _ & Hj & _). congruence.
         ++ destruct Hcur as (? & ? & _ & Hj & _). rewrite Hjobs in Hj. by injection Hj.
         ++ destruct Hcur as (c' & sc' & Hlink & Hj & _). rewrite Hjobs in Hj.
            injection Hj as -> -> _ _. by eapply list_elem_of_lookup_2.
         ++ destruct Hcur as (? & ? & _ & Hj & _). congruence.
         ++ destruct Hcur as (_ & Hj & _). rewrite Hjobs in Hj. by injection Hj.
         ++ destruct Hcur as (_ & Hj & _). rewrite Hjobs in Hj. by injection Hj.
    * destruct (settle_observed q Rejected s0) as (-> & -> & ->).
      rewrite Ht0, Hc0, Hi0. split; [done|]. split; [done|]. exists [].
      rewrite app_nil_r. split; [done|]. by intros ? ?%elem_of_nil.
  + destruct o; cbn [fire].
    * destruct (settle_observed q Fulfilled s0) as (-> & -> & ->).
      rewrite Ht0, Hc0, Hi0. split; [done|]. split; [done|]. exists [].
      rewrite app_nil_r. split; [done|]. by intros ? ?%elem_of_nil.
    * destruct (settle_observed q Fulfilled (log EvWarnFailed s0)) as (-> & -> & ->).
      cbn [log trace calls inactive]. rewrite Ht0, Hc0, Hi0, started_snoc, app_nil_r.
      split; [done|]. split; [done|]. exists []. rewrite app_nil_r.
      split; [done|]. by intros ? ?%elem_of_nil.
  + cbn [fire].
    match goal with |- context [settle q o ?s1] =>
      destruct (settle_observed q o s1) as (-> & -> & ->) end.
    cbn [trace calls inactive]. rewrite Ht0, Hc0, Hi0.
    split; [done|]. split; [done|]. exists [].
    rewrite app_nil_r. split; [done|]. by intros ? ?%elem_of_nil.
- rewrite Nat.add_0_r. unfold processor_settles.
  destruct (list_find _ _) as [[j [c q]]|].
  + match goal with |- context [settle q o ?s1] =>
      destruct (settle_observed q o s1) as (-> & -> & ->) end.
    cbn [trace calls inactive]. rewrite started_snoc, app_nil_r.
    split; [done|]. split; [done|]. exists []. rewrite app_nil_r.
    split; [done|]. by intros ? ?%elem_of_nil.
  + split; [done|]. split; [done|]. exists []. rewrite app_nil_r.
    split; [done|]. by intros ? ?%elem_of_nil.
- rewrite Nat.add_0_r. cbn [teardown trace calls inactive].
  split; [done|]. split; [set_solver|]. exists []. rewrite app_nil_r.
  split; [done|]. by intros ? ?%elem_of_nil.
Qed.

(** One promise job brings the oldest unfinished link a stage further. *)
Lemma promise_job_progress s links k st :
  chain s links k st → jobs s ≠ [] →
  ∃ k' st', chain (promise_job s) links k' st' ∧
            remaining links k' st' < remaining links k st.
Proof.
  intros Hchain Hbusy.
  pose proof Hchain as [Hnext Href Hsize Hle Hcur Hlink Hwait Hend Hacc Hhan Hexc Hcalls].
  unfold promise_job.
  destruct st; cbn [current] in Hcur; cbn [turn_taken running_call] in Hhan, Hexc.
  - (* Quiet *)
    by destruct Hcur as (_ & _ & Hjobs & _).
  - (* AtIgnore *)
    destruct Hcur as (c & sc & Hk & Hjobs & Hfl & Ha & Hb & Hc).
    rewrite Hjobs. cbn [fire r_ignore].
    erewrite settle_pending by (cbn; exact Ha).
    exists k, AtProcess. split; [|unfold remaining; cbn [stage_rank]; lia]. constructor; sel; try done.
    + exists c, sc. split_and!; try done; by heap_lookup.
    + intros j Hj. heap_lookup. by apply Hlink.
    + intros j c' sc' Hj Hl. destruct (Hwait j c' sc' Hj Hl) as (?&?&?).
      split_and!; by heap_lookup.
    + intros Hlt. heap_lookup. by apply Hend.
  - (* AtProcess *)
    destruct Hcur as (c & sc & Hk & Hjobs & Hfl & Hb & Hc).
    rewrite Hjobs. cbn [fire r_process].
    assert (take (k + 1) links = take k links ++ [(c, sc)]) as Htake
      by (by apply take_S_lookup).
    case_decide as Hdead; cbn [inactive with_promises] in Hdead.
    + erewrite settle_pending by (cbn; exact Hb).
      exists k, (AtWarn Fulfilled). split; [|unfold remaining; cbn [stage_rank]; lia]. constructor; sel; try done.
      * split_and!; try done; [by eapply lookup_lt_Some|by heap_lookup].
      * intros j Hj. heap_lookup. by apply Hlink.
      * intros j c' sc' Hj Hl. destruct (Hwait j c' sc' Hj Hl) as (?&?&?).
        split_and!; by heap_lookup.
      * intros Hlt. heap_lookup. by apply Hend.
      * by rewrite accepted_snoc, app_nil_r.
      * by rewrite handled_snoc, Hhan, Nat.add_0_r, Htake, fmap_app.
      * by rewrite exclusive_snoc, Hexc.
    + exists k, Running. split; [|unfold remaining; cbn [stage_rank]; lia]. constructor; sel; try done.
      * exists c, sc. by rewrite Hfl.
      * by rewrite accepted_snoc, app_nil_r.
      * by rewrite handled_snoc, Hhan, Nat.add_0_r, Htake, fmap_app.
      * by rewrite exclusive_snoc, Hexc, Hk.
  - (* Running *)
    destruct Hcur as (c & sc & Hk & Hjobs & Hfl & Hb & Hc).
    done.
  - (* AtWarn *)
    destruct Hcur as (Hlt & Hjobs & Hfl & Hc).
    rewrite Hjobs. cbn [fire r_warn].
    exists k, AtRelease. split; [|unfold remaining; cbn [stage_rank]; lia]. destruct o.
    + erewrite settle_pending by (cbn; exact Hc).
      constructor; sel; try done.
      * intros j Hj. heap_lookup. by apply Hlink.
      * intros j c' sc' Hj Hl. destruct (Hwait j c' sc' Hj Hl) as (?&?&?).
        split_and!; by heap_lookup.
      * intros _. heap_lookup. by apply Hend.
    + erewrite settle_pending by (cbn; exact Hc).
      constructor; sel; try done.
      * intros j Hj. heap_lookup. by apply Hlink.
      * intros j c' sc' Hj Hl. destruct (Hwait j c' sc' Hj Hl) as (?&?&?).
        split_and!; by heap_lookup.
      * intros _. heap_lookup. by apply Hend.
      * by rewrite accepted_snoc, app_nil_r.
      * by rewrite handled_snoc, app_nil_r.
      * by rewrite exclusive_snoc, Hexc.
  - (* AtRelease *)
    destruct Hcur as (Hlt & Hjobs & Hfl).
    rewrite Hjobs. cbn [fire r_release].
    destruct (decide (S k < length links)) as [Hmore|Hlast].
    + destruct (lookup_lt_is_Some_2 links (S k) Hmore) as [[c sc] Hl].
      assert (heap s !! (4 * k + 4) = Some (Pending [r_ignore (S k)])) as Hd.
      { replace (4 * k + 4) with (4 * S k) by lia. apply Hlink. lia. }
      erewrite settle_pending by (cbn; exact Hd).
      exists (S k), AtIgnore. split; [|unfold remaining; cbn [stage_rank]; lia]. constructor; sel; try done; try lia.
      * exists c, sc. split_and!; try done.
        destruct (Hwait (S k) c sc) as (?&?&?); [lia|done|].
        split_and!; by heap_lookup.
      * intros j Hj. heap_lookup. apply Hlink. lia.
      * intros j c' sc' Hj Hl'.
        destruct (Hwait j c' sc') as (?&?&?); [lia|done|].
        split_and!; by heap_lookup.
      * intros _. heap_lookup. by apply Hend.
      * rewrite Hhan. do 2 f_equal. lia.
    + assert (S k = length links) as HL by lia.
      assert (heap s !! (4 * k + 4) = Some (Pending [])) as Hd.
      { replace (4 * k + 4) with (4 * length links) by lia. by apply Hend. }
      erewrite settle_pending by (cbn; exact Hd).
      exists (S k), Quiet. split; [|unfold remaining; cbn [stage_rank]; lia]. constructor; sel; try done; try lia.
      * split_and!; try done. by heap_lookup.
      * intros j c' sc' Hj Hl'. apply lookup_lt_Some in Hl'. lia.
      * rewrite Hhan. do 2 f_equal. lia.
Qed.

(** So does the settlement of the processor that is running. *)
Lemma processor_settles_progress call q o s links k st :
  chain s links k st → jobs s = [] → inflight s = [(call, q)] →
  ∃ st', chain (processor_settles call o s) links k st' ∧
         remaining links k st' < remaining links k st.
Proof.
  intros Hchain Hidle Hflight.
  pose proof Hchain as [Hnext Href Hsize Hle Hcur Hlink Hwait Hend Hacc Hhan Hexc Hcalls].
  unfold processor_settles.
  destruct st; cbn [current] in Hcur;
    try (destruct Hcur as (_ & _ & _ & Hfl); congruence);
    try (destruct Hcur as (? & ? & _ & _ & Hfl & _); congruence);
    try (destruct Hcur as (_ & _ & Hfl & _); congruence);
    try (destruct Hcur as (_ & _ & Hfl); congruence).
  destruct Hcur as (c & sc & Hk & Hjobs & Hfl & Hb & Hc).
  rewrite Hfl in Hflight. injection Hflight as -> <-.
  rewrite Hfl. cbn [list_find fst]. rewrite decide_True by done.
  cbn [fmap option_fmap option_map].
  erewrite settle_pending by (sel; exact Hb).
  exists (AtWarn o). split; [|unfold remaining; cbn [stage_rank]; lia].
  constructor; sel; try done.
  - split_and!; try done; [by eapply lookup_lt_Some|by rewrite Hjobs|by heap_lookup].
  - intros j Hj. heap_lookup. by apply Hlink.
  - intros j c' sc' Hj Hl. destruct (Hwait j c' sc' Hj Hl) as (?&?&?).
    split_and!; by heap_lookup.
  - intros Hlt. heap_lookup. by apply Hend.
  - by rewrite accepted_snoc, app_nil_r.
  - by rewrite handled_snoc, app_nil_r.
  - rewrite exclusive_snoc, Hexc. cbn [running_call]. rewrite Hk. cbn.
    by rewrite decide_True.
Qed.

Lemma queue_run_snoc inputs i : run (inputs ++ [i]) = step (run inputs) i.
Proof. unfold run. by rewrite foldl_snoc. Qed.

Lemma scopes_snoc inputs i : scopes (inputs ++ [i]) = scopes inputs ++ scopes [i].
Proof. unfold scopes. by rewrite omap_app. Qed.

(** The accepted calls are known with the effect run that made them. *)
Lemma tracked_run inputs :
  ∃ links k st, chain (run inputs) links k st ∧
    calls (run inputs) = length (scopes inputs) ∧
    ∀ c sc, (c, sc) ∈ links → scopes inputs !! c = Some sc.
Proof.
induction inputs as [|i inputs IH] using rev_ind.
{ exists [], 0, Quiet. split; [apply chain_init|]. split; [done|].
  by intros ? ? ?%elem_of_nil. }
destruct IH as (links & k & st & Hchain & Hcalls & Hsc).
rewrite queue_run_snoc, scopes_snoc, length_app. set (s := run inputs) in *.
destruct (step_observed s i links k st Hchain) as (Hc & _ & _).
assert (∀ c sc, (c, sc) ∈ links → (scopes inputs ++ scopes [i]) !! c = Some sc) as Hold.
{ intros c sc Hin. apply lookup_app_l_Some. auto. }
destruct i as [scope| |call o|scope].
- destruct (decide (MAX_QUEUE_SIZE ≤ cacheUpdateQueueSizeRef s)) as [Hfull|Hroom].
  + exists links, k, st. split; [|split; [lia|done]].
    cbn [step]. rewrite queueCacheUpdate_full by done. by apply chain_dropped.
  + destruct (chain_accepted_call scope s links k st) as (s' & st' & Heq & Hs');
      [lia|done|].
    exists (links ++ [(calls s, scope)]), k, st'. cbn [step] in *. rewrite Heq in *.
    split; [done|]. split; [lia|].
    intros c sc [Hin|Hin]%elem_of_app; [auto|].
    apply list_elem_of_singleton in Hin. injection Hin as -> ->.
    rewrite Hcalls. change (scopes [Enqueue scope]) with [scope].
    by rewrite list_lookup_middle.
- destruct (chain_promise_job s links k st Hchain) as (k' & st' & Hs').
  exists links, k', st'. split; [done|]. split; [lia|done].
- destruct (chain_processor_settles call o s links k st Hchain) as (st' & Hs').
  exists links, k, st'. split; [done|]. split; [lia|done].
- exists links, k, st. split; [by apply chain_teardown|]. split; [lia|done].
Qed.

(** A processor whose turn comes is called, unless the effect run that
    submitted it has been cleaned up. *)
Lemma step_skipped s i links k st :
  chain s links k st →
  ∃ new, handled (trace (step s i)) = handled (trace s) ++ new ∧
    ∀ c, c ∈ new →
      c ∈ started (trace (step s i)) ∨ ∃ sc, (c, sc) ∈ links ∧ sc ∈ inactive s.
Proof.
intros Hchain.
assert (∀ s', trace s' = trace s →
          ∃ new, handled (trace s') = handled (trace s) ++ new ∧
            ∀ c, c ∈ new →
              c ∈ started (trace s') ∨ ∃ sc, (c, sc) ∈ links ∧ sc ∈ inactive s) as Hsame.
{ intros s' ->. exists []. rewrite app_nil_r. split; [done|]. by intros ? ?%elem_of_nil. }
assert (∀ s' e, trace s' = trace s ++ [e] →
          match e with EvStart _ | EvSkipped _ => False | _ => True end →
          ∃ new, handled (trace s') = handled (trace s) ++ new ∧
            ∀ c, c ∈ new →
              c ∈ started (trace s') ∨ ∃ sc, (c, sc) ∈ links ∧ sc ∈ inactive s) as Hother.
{ intros s' e -> He. exists []. rewrite handled_snoc.
  split; [by destruct e|]. by intros ? ?%elem_of_nil. }
destruct i as [scope| |call o|scope]; cbn [step].
- unfold queueCacheUpdate. case_decide.
  + by apply (Hother _ (EvDropped (calls s))).
  + destruct (register _ _ s) as [a s1]. destruct (register a _ s1) as [b s2].
    destruct (register b _ s2) as [c s3]. destruct (register c _ s3) as [d s4].
    by apply (Hother _ (EvEnqueued (calls s))).
- unfold promise_job. destruct (jobs s) as [|[r o] rest] eqn:Hjobs; [by apply Hsame|].
  set (s0 := with_promises (heap s) (next s) rest s).
  assert (trace s0 = trace s ∧ inactive s0 = inactive s) as (Ht0 & Hi0) by done.
  assert (∀ call scope q, r = ThenProcess call scope q → o = Fulfilled →
            (call, scope) ∈ links) as Hlink.
  { intros call scope q -> ->. destruct Hchain as [_ _ _ _ Hcur _ _ _ _ _ _ _].
    destruct st; cbn [current] in Hcur.
    - destruct Hcur as (_ & _ & Hj & _). congruence.
    - destruct Hcur as (? & ? & _ & Hj & _). rewrite Hjobs in Hj. by injection Hj.
    - destruct Hcur as (c' & sc' & Hl & Hj & _). rewrite Hjobs in Hj.
      injection Hj as -> -> _ _. by eapply list_elem_of_lookup_2.
    - destruct Hcur as (? & ? & _ & Hj & _). congruence.
    - destruct Hcur as (_ & Hj & _). rewrite Hjobs in Hj. by injection Hj.
    - destruct Hcur as (_ & Hj & _). rewrite Hjobs in Hj. by injection Hj. }
  destruct r as [q|call scope q|q|q].
  + cbn [fire]. apply Hsame. by destruct (settle_observed q Fulfilled s0) as (-> & _).
  + destruct o; cbn [fire].
    * destruct (decide (scope ∈ inactive s0)) as [Hin|Hout].
      -- destruct (settle_observed q Fulfilled (log (EvSkipped call) s0)) as (-> & _).
         cbn [log trace]. rewrite Ht0, handled_snoc. exists [call]. split; [done|].
         intros c ->%list_elem_of_singleton. right. exists scope.
         rewrite Hi0 in Hin. split; [by eapply Hlink|done].
      -- cbn [log trace]. rewrite Ht0, handled_snoc. exists [call]. split; [done|].
         intros c ->%list_elem_of_singleton. left. rewrite started_snoc.
         apply elem_of_app. right. apply list_elem_of_here.
    * apply Hsame. by destruct (settle_observed q Rejected s0) as (-> & _).
  + destruct o; cbn [fire].
    * apply Hsame. by destruct (settle_observed q Fulfilled s0) as (-> & _).
    * apply (Hother _ EvWarnFailed); [|done].
      by destruct (settle_observed q Fulfilled (log EvWarnFailed s0)) as (-> & _).
  + cbn [fire]. apply Hsame.
    match goal with |- context [settle q o ?s1] =>
      by destruct (settle_observed q o s1) as (-> & _) end.
- unfold processor_settles. destruct (list_find _ _) as [[j [c q]]|]; [|by apply Hsame].
  apply (Hother _ (EvSettle call o)); [|done].
  match goal with |- context [settle q o ?s1] =>
    by destruct (settle_observed q o s1) as (-> & _) end.
- by apply Hsame.
Qed.

Lemma skipped_only_when_cleaned_up inputs c :
  c ∈ handled (trace (run inputs)) →
  c ∈ started (trace (run inputs)) ∨
  ∃ sc, scopes inputs !! c = Some sc ∧ sc ∈ inactive (run inputs).
Proof.
induction inputs as [|i inputs IH] using rev_ind; [by intros ?%elem_of_nil|].
rewrite queue_run_snoc, scopes_snoc.
destruct (tracked_run inputs) as (links & k & st & Hchain & _ & Hlinks).
destruct (step_observed (run inputs) i links k st Hchain) as (_ & Hmono & more & Hmore & _).
destruct (step_skipped (run inputs) i links k st Hchain) as (new & -> & Hnew).
intros [Hold|Hin]%elem_of_app.
- destruct (IH Hold) as [Hst|(sc & Hsc & Hin)].
  + left. rewrite Hmore. apply elem_of_app. by left.
  + right. exists sc. split; [by apply lookup_app_l_Some|by apply Hmono].
- destruct (Hnew c Hin) as [?|(sc & Hl & Hsc)]; [by left|right].
  exists sc. split; [apply lookup_app_l_Some; auto|by apply Hmono].
Qed.

Lemma sorted_lt_NoDup (l : list nat) : StronglySorted lt l → NoDup l.
Proof.
induction 1 as [|x l _ IH Hx]; constructor; [|done].
intros Hin. apply (proj1 (Forall_forall _ _) Hx) in Hin. lia.
Qed.

Lemma sublist_full {A} (l1 l2 : list A) :
  l1 `sublist_of` l2 → length l2 ≤ length l1 → l1 = l2.
Proof.
induction 1 as [|x l1 l2 _ IH|x l1 l2 Hsub _]; cbn; intros Hlen; [done| |].
- f_equal. apply IH. lia.
- apply sublist_length in Hsub. lia.
Qed.

(** The order of the turns, the exclusion of overlaps, and what a turn
    amounts to. *)
Lemma order_and_exclusion (inputs : list input) :
  let s := run inputs in
  let t := trace s in
  handled t `prefix_of` accepted t ∧
  started t `sublist_of` accepted t ∧
  StronglySorted lt (accepted t) ∧
  is_Some (exclusive t) ∧
  (∀ c sc, c ∈ handled t → scopes inputs !! c = Some sc → sc ∉ inactive s →
           c ∈ started t) ∧
  (inactive s = [] → started t = handled t) ∧
  (jobs s = [] → inflight s = [] →
     handled t = accepted t ∧ exclusive t = Some None ∧
     (inactive s = [] → started t = accepted t)).
Proof.
intros s t. destruct (chain_run inputs) as (links & k & st & Hchain).
destruct Hchain as [_ _ _ _ Hcur _ _ _ Hacc Hhan Hexc [Hsorted _]].
fold s in Hcur, Hacc, Hhan, Hexc. fold t in Hacc, Hhan, Hexc.
assert (handled t `prefix_of` accepted t) as Hprefix.
{ rewrite Hacc, Hhan, fmap_take. apply prefix_take. }
assert (inactive s = [] → started t = handled t) as Hall.
{ intros Hnone. apply sublist_full; [apply started_sublist_handled|].
  apply submseteq_length, NoDup_submseteq.
  - destruct Hprefix as [rest Hrest]. rewrite <-Hacc, Hrest in Hsorted.
    by apply sorted_lt_NoDup, NoDup_app in Hsorted as (? & _).
  - intros c Hc. destruct (skipped_only_when_cleaned_up inputs c Hc)
      as [?|(sc & _ & Hin)]; [done|].
    fold s in Hin. rewrite Hnone in Hin. by apply elem_of_nil in Hin. }
split_and!; [done| |by rewrite Hacc|by rewrite Hexc| |done|].
- transitivity (handled t); [apply started_sublist_handled|].
  destruct Hprefix as [rest ->]. by apply sublist_inserts_r.
- intros c sc Hc Hsc Hlive.
  destruct (skipped_only_when_cleaned_up inputs c Hc) as [?|(sc' & Hsc' & Hin)]; [done|].
  rewrite Hsc in Hsc'. injection Hsc' as <-. by destruct Hlive.
- intros Hjobs Hfl.
  assert (handled t = accepted t) as Hdone.
  { rewrite Hacc, Hhan.
    destruct st; cbn [current] in Hcur;
      try (destruct Hcur as (? & ? & _ & ? & ? & _); congruence);
      try (destruct Hcur as (_ & ? & _); congruence).
    destruct Hcur as (-> & _). cbn. by rewrite Nat.add_0_r, firstn_all. }
  split; [done|]. split.
  + rewrite Hexc.
    destruct st; cbn [current] in Hcur;
      try (destruct Hcur as (? & ? & _ & ? & ? & _); congruence);
      try (destruct Hcur as (_ & ? & _); congruence).
    done.
  + intros Hnone. rewrite <-Hdone. by apply Hall.
Qed.


(** X7.  The tracked depth counts the accepted updates whose turn has not
    come, plus at most the one whose turn it is; it never exceeds
    [MAX_QUEUE_SIZE]; and it is back at zero whenever no promise job is
    queued and no processor is running, also after processors failed or
    were skipped. *)
Theorem depth_counts_unfinished_updates inputs :
  let s := run inputs in
  let t := trace s in
  let waiting := length (accepted t) - length (handled t) in
  waiting ≤ cacheUpdateQueueSizeRef s ≤ S waiting ∧
  cacheUpdateQueueSizeRef s ≤ MAX_QUEUE_SIZE ∧
  (jobs s = [] → inflight s = [] → cacheUpdateQueueSizeRef s = 0).
Proof.
intros s t waiting. destruct (chain_run inputs) as (links & k & st & Hchain).
destruct Hchain as [_ _ Hsize Hle Hcur _ _ _ Hacc Hhan _ _].
fold s in Hsize, Hcur, Hacc, Hhan. fold t in Hacc, Hhan.
assert (k + turn_taken st ≤ length links) as Hturn.
{ destruct st; cbn [turn_taken current] in *; try lia.
  destruct Hcur as (c & sc & Hlink%lookup_lt_Some & _). lia. }
assert (waiting = length links - (k + turn_taken st)) as ->.
{ unfold waiting. rewrite Hacc, Hhan, !length_fmap, length_take. lia. }
split_and!.
- lia.
- destruct st; cbn [turn_taken] in *; lia.
- apply depth_bounded.
- intros Hjobs Hfl. rewrite Hsize.
  destruct st; cbn [current] in Hcur;
    try (destruct Hcur as (? & ? & _ & ? & ? & _); congruence);
    try (destruct Hcur as (_ & ? & _); congruence).
  destruct Hcur as (-> & _). lia.
Qed.

Lemma drain outcome_of n s links k st :
  remaining links k st ≤ n → chain s links k st →
  ∃ more, Forall (moves_on outcome_of) more ∧
          chain (foldl step s more) links (length links) Quiet.
Proof.
revert s k st. induction n as [|n IH]; intros s k st Hn Hchain.
- exists []. split; [constructor|]. cbn [foldl].
  pose proof Hchain as [_ _ _ Hle Hcur _ _ _ _ _ _ _].
  unfold remaining in Hn. destruct st; cbn [stage_rank] in Hn; try lia.
  cbn [current] in Hcur. destruct Hcur as (-> & _). done.
- destruct (jobs s) as [|j js] eqn:Hjobs.
  + pose proof Hchain as [_ _ _ Hle Hcur _ _ _ _ _ _ _].
    destruct st; cbn [current] in Hcur;
      try (destruct Hcur as (? & ? & _ & ? & _); congruence);
      try (destruct Hcur as (_ & ? & _); congruence).
    * exists []. split; [constructor|]. destruct Hcur as (-> & _). done.
    * destruct Hcur as (c & sc & _ & _ & Hfl & _).
      destruct (processor_settles_progress c (4 * k + 2) (outcome_of c) s links k Running
                  Hchain Hjobs Hfl) as (st' & Hchain' & Hlt).
      destruct (IH _ k st' ltac:(lia) Hchain') as (more & Hmore & Hdone).
      exists (ProcessorSettles c (outcome_of c) :: more).
      split; [by constructor|done].
  + destruct (promise_job_progress s links k st Hchain) as (k' & st' & Hchain' & Hlt).
    { by rewrite Hjobs. }
    destruct (IH _ k' st' ltac:(lia) Hchain') as (more & Hmore & Hdone).
    exists (PromiseJob :: more). split; [by constructor|done].
Qed.

(** Promise jobs and settlements clean up no effect run. *)
Lemma progress_keeps_scopes outcome_of more s :
  Forall (moves_on outcome_of) more → inactive (foldl step s more) = inactive s.
Proof.
revert s. induction more as [|i more IH]; intros s; [done|].
intros [Hi Hmore]%Forall_cons. cbn [foldl]. rewrite IH by done. clear IH Hmore.
destruct i as [?| |call o|?]; try done; cbn [step].
- unfold promise_job. destruct (jobs s) as [|[r o] rest]; [done|].
  set (s0 := with_promises (heap s) (next s) rest s).
  destruct r as [q|call scope q|q|q]; destruct o; cbn [fire]; try case_decide;
    try done;
    match goal with |- context [settle ?q ?o ?s1] =>
      by destruct (settle_observed q o s1) as (_ & _ & ->) end.
- unfold processor_settles. destruct (list_find _ _) as [[j [c q]]|]; [|done].
  match goal with |- context [settle q o ?s1] =>
    by destruct (settle_observed q o s1) as (_ & _ & ->) end.
Qed.

(** Claim C1.  Whatever the interleaving of [queueCacheUpdate] calls,
    promise jobs, processor settlements and effect clean-ups, the
    processors whose turn has come are, in order, the first of the
    accepted calls: none is passed over and none runs before an earlier
    one.  A processor whose turn has come has been called, unless the
    effect run that submitted it had been cleaned up.  A processor is
    only ever called while no other one is running, and the one running
    is the only one that settles, fulfilled or rejected: the trace of
    starts and settlements is a sequence of start/settle pairs, possibly
    ending in a start.  Accepted calls are logged in call order.  Once
    nothing is queued or running every accepted call has had its turn;
    when no effect run was cleaned up, the processors called are then
    exactly the accepted ones, in the order of their calls.  Such a state
    is reached from every state by letting the promise jobs run and the
    processors settle, however they settle. *)
Theorem processors_run_in_order_one_at_a_time (inputs : list input) :
  let s := run inputs in
  let t := trace s in
  handled t `prefix_of` accepted t ∧
  started t `sublist_of` accepted t ∧
  StronglySorted lt (accepted t) ∧
  is_Some (exclusive t) ∧
  (∀ c sc, c ∈ handled t → scopes inputs !! c = Some sc → sc ∉ inactive s →
           c ∈ started t) ∧
  (inactive s = [] → started t = handled t) ∧
  (jobs s = [] → inflight s = [] →
     handled t = accepted t ∧ exclusive t = Some None ∧
     (inactive s = [] → started t = accepted t)) ∧
  (∀ outcome_of : nat → outcome, ∃ more,
     Forall (moves_on outcome_of) more ∧
     let s' := run (inputs ++ more) in
     jobs s' = [] ∧ inflight s' = [] ∧
     accepted (trace s') = accepted t ∧
     exclusive (trace s') = Some None ∧
     (inactive s = [] → started (trace s') = accepted t)).
Proof.
intros s t.
destruct (order_and_exclusion inputs) as (H1 & H2 & H3 & H4 & H5 & H6 & H7).
split_and!; try done. intros outcome_of.
destruct (chain_run inputs) as (links & k & st & Hchain).
destruct (drain outcome_of _ _ links k st (le_n _) Hchain) as (more & Hmore & Hdone).
exists more. split; [done|]. cbv zeta.
assert (run (inputs ++ more) = foldl step (run inputs) more) as Hrun
  by (unfold run; by rewrite foldl_app).
destruct (order_and_exclusion (inputs ++ more)) as (_ & _ & _ & _ & _ & _ & Hquiet).
rewrite Hrun in *.
destruct Hchain as [_ _ _ _ _ _ _ _ Hacc _ _ _].
pose proof Hdone as [_ _ _ _ Hcur _ _ _ Hacc' _ _ _].
cbn [current] in Hcur. destruct Hcur as (_ & _ & Hjobs & Hfl).
destruct (Hquiet Hjobs Hfl) as (_ & Hexclusive & Hstarted).
assert (accepted (trace (foldl step (run inputs) more)) = accepted t) as Hsame.
{ unfold t, s. by rewrite Hacc, Hacc'. }
split_and!; [done|done|done|done|].
intros Hnone. rewrite <-Hsame. apply Hstarted.
by rewrite (progress_keeps_scopes outcome_of).
Qed.

Lemma processors_run_in_order_one_at_a_time_witness :
  let s := run ([Enqueue 0; Enqueue 0] ++ replicate 5 PromiseJob ++
                [ProcessorSettles 0 Rejected] ++ replicate 5 PromiseJob ++
                [ProcessorSettles 1 Fulfilled] ++ replicate 5 PromiseJob) in
  started (trace s) = [0; 1] ∧ exclusive (trace s) = Some None.
Proof.
intros s.
destruct (processors_run_in_order_one_at_a_time
            ([Enqueue 0; Enqueue 0] ++ replicate 5 PromiseJob ++
             [ProcessorSettles 0 Rejected] ++ replicate 5 PromiseJob ++
             [ProcessorSettles 1 Fulfilled] ++ replicate 5 PromiseJob))
  as (_ & _ & _ & _ & _ & _ & Hquiet & _).
destruct Hquiet as (_ & Hexclusive & Hstarted); [reflexivity|reflexivity|].
split; [|exact Hexclusive]. etransitivity; [apply Hstarted|]; reflexivity.
Defined.

(** X27.  The queue cannot get stuck: from every state the pipeline can
    reach, and however each processor's promise settles, letting the
    promise jobs run and the running processors settle leads to a state
    with no job queued and no processor running, in which every accepted
    update has had its turn, none has been added, and the tracked depth
    is zero. *)
Theorem accepted_updates_all_get_their_turn inputs (outcome_of : nat → outcome) :
  ∃ more,
    Forall (moves_on outcome_of) more ∧
    let s := run (inputs ++ more) in
    jobs s = [] ∧ inflight s = [] ∧
    accepted (trace s) = accepted (trace (run inputs)) ∧
    handled (trace s) = accepted (trace s) ∧
    cacheUpdateQueueSizeRef s = 0.
Proof.
destruct (chain_run inputs) as (links & k & st & Hchain).
destruct (drain outcome_of _ _ links k st (le_n _) Hchain) as (more & Hmore & Hdone).
exists more. split; [done|]. cbv zeta. unfold run in *. rewrite foldl_app.
destruct Hchain as [_ _ _ _ _ _ _ _ Hacc _ _ _].
destruct Hdone as [_ _ Hsize _ Hcur _ _ _ Hacc' Hhan _ _].
cbn [current turn_taken] in Hcur, Hhan. destruct Hcur as (_ & _ & Hjobs & Hfl).
split_and!; [done|done|by rewrite Hacc, Hacc'| |lia].
by rewrite Hhan, Hacc', Nat.add_0_r, firstn_all.
Qed.

(** X8.  Once the clean-up of an effect run has set its [isActive] to
    false, no processor submitted under that run is called any more,
    whether it was queued before the clean-up or after it: such a
    processor has been called before the clean-up or is never called. *)
Theorem no_processor_starts_after_teardown pre post c sc :
  sc ∈ inactive (run pre) →
  scopes (pre ++ post) !! c = Some sc →
  c ∈ started (trace (run (pre ++ post))) →
  c ∈ started (trace (run pre)).
Proof.
intros Hsc.
assert (inactive (run pre) ⊆ inactive (run (pre ++ post)) ∧
        ∀ c, c ∈ started (trace (run (pre ++ post))) →
             c ∈ started (trace (run pre)) ∨
             ∃ sc', scopes (pre ++ post) !! c = Some sc' ∧ sc' ∉ inactive (run pre))
  as [_ Hstarted].
{ clear c. induction post as [|i post [IHm IHs]] using rev_ind.
  { rewrite app_nil_r. split; [done|]. by left. }
  rewrite app_assoc, queue_run_snoc, scopes_snoc.
  destruct (tracked_run (pre ++ post)) as (links & k & st & Hchain & _ & Hlinks).
  destruct (step_observed (run (pre ++ post)) i links k st Hchain)
    as (_ & Hmono & new & -> & Hnew).
  split; [by etransitivity|].
  intros c [Hold|Hin]%elem_of_app.
  - destruct (IHs c Hold) as [?|(sc' & Hlook & Hact)]; [by left|right].
    exists sc'. split; [|done]. by apply lookup_app_l_Some.
  - right. destruct (Hnew c Hin) as (sc' & Hlink & Hact). exists sc'. split.
    + apply lookup_app_l_Some. auto.
    + intros Hin'. by apply Hact, IHm. }
intros Hlook Hin. destruct (Hstarted c Hin) as [?|(sc' & Hlook' & Hact)]; [done|].
rewrite Hlook in Hlook'. by injection Hlook' as <-.
Qed.

Lemma no_processor_starts_after_teardown_witness :
  let pre := [Enqueue 0; Enqueue 0] ++ replicate 2 PromiseJob ++ [Teardown 0] in
  let post := [ProcessorSettles 0 Fulfilled; Enqueue 0] ++ replicate 12 PromiseJob in
  started (trace (run (pre ++ post))) = [0] ∧
  handled (trace (run (pre ++ post))) = [0; 1; 2] ∧
  0 ∈ started (trace (run pre)).
Proof.
intros pre post. split; [reflexivity|]. split; [reflexivity|].
apply (no_processor_starts_after_teardown pre post 0 0).
- vm_compute. apply list_elem_of_here.
- reflexivity.
- vm_compute. apply list_elem_of_here.
Defined.

End UpdateQueueAccounting.


(** ** [IndexerSubscriptionService]: channels over time *)
Module SubscriptionServiceLifecycle.
Import SubscriptionService SubscriptionServiceFacts.

Lemma retry_delay_base : retry_delay 0 = reconnectDelayMs.
Proof. done. Qed.

Lemma retry_delay_range a :
  a < maxReconnectAttempts →
  (reconnectDelayMs ≤ retry_delay a ≤ retry_delay (maxReconnectAttempts - 1))%Z.
Proof.
intros Ha. split.
- rewrite <-retry_delay_base. apply retry_delay_le. lia.
- apply retry_delay_le. lia.
Qed.

Lemma within_limits_counter name a s :
  a ≤ maxReconnectAttempts → within_limits s →
  within_limits (Service (channels s) (channelNames s) (<[name := a]> (reconnectAttempts s))
                   (timers s) (opened s) (effects s)).
Proof.
intros Ha (Hatt & Htimers & Heff). split; [|done]. cbn. intros name' a'.
destruct (decide (name' = name)) as [->|Hne].
- rewrite lookup_insert_eq. by intros [= <-].
- rewrite lookup_insert_ne by done. apply Hatt.
Qed.

Lemma within_limits_log e s :
  is_last_attempt e → within_limits s →
  within_limits (Service (channels s) (channelNames s) (reconnectAttempts s) (timers s) (opened s)
                   (effects s ++ [e])).
Proof.
intros He (Hatt & Htimers & Heff). split; [done|]. split; [done|].
apply Forall_app. split; [done|]. by apply Forall_singleton.
Qed.

Lemma within_limits_handleReconnect name onError s :
  within_limits s → within_limits (handleReconnect name onError s).
Proof.
intros Hs. pose proof Hs as (Hatt & Htimers & Heff). unfold handleReconnect.
set (attempts := default 0 (reconnectAttempts s !! name)).
assert (attempts ≤ maxReconnectAttempts) as Hle.
{ unfold attempts. destruct (reconnectAttempts s !! name) as [a|] eqn:Hlook; cbn.
  - by eapply Hatt.
  - unfold maxReconnectAttempts. lia. }
case_decide.
- destruct onError as [callback|]; [|done]. apply within_limits_log; [|done]. cbn. lia.
- split; [|split; [|done]]; cbn.
  + intros name' a'. destruct (decide (name' = name)) as [->|Hne].
    * rewrite lookup_insert_eq. intros [= <-]. lia.
    * rewrite lookup_insert_ne by done. apply Hatt.
  + apply Forall_app. split; [done|]. apply Forall_singleton. cbn.
    pose proof (retry_delay_range attempts) as Hrange.
    change (retry_delay (maxReconnectAttempts - 1)) with (16 * reconnectDelayMs)%Z in Hrange.
    apply Hrange. lia.
Qed.

(** X9.  Whatever the consumers, the channels and the timers do, no
    reconnect counter ever exceeds [maxReconnectAttempts], every timer
    set waits between the base delay and sixteen times the base delay,
    and an error is reported only with the counter at the limit. *)
Theorem attempts_and_delays_bounded (es : list event) :
  let s := run es in
  (∀ channelName a,
     reconnectAttempts s !! channelName = Some a → a ≤ maxReconnectAttempts) ∧
  Forall (λ t, (reconnectDelayMs ≤ t.2 ≤ 16 * reconnectDelayMs)%Z) (timers s) ∧
  Forall is_last_attempt (effects s).
Proof.
change (within_limits (run es)). unfold run.
induction es as [|e es IH] using rev_ind.
{ split_and!; [|constructor..]. intros ? ?. cbn. by rewrite lookup_empty. }
rewrite foldl_snoc. set (s := foldl handle create es) in *.
destruct e as [name|name onError st|name|name|]; cbn [handle].
- by apply (within_limits_log (ChannelOpened name (opened s))) in IH.
- destruct st; cbn [on_status]; [|by apply within_limits_handleReconnect..|done].
  apply within_limits_counter; [lia|done].
- unfold timer_fires. destruct (channels s !! name) as [ch|].
  + apply (within_limits_log (ChannelRemoved ch)) in IH; [|done].
    by apply (within_limits_log (ChannelOpened name (opened s))) in IH.
  + by apply (within_limits_log (ChannelOpened name (opened s))) in IH.
- unfold unsubscribe. destruct (channels s !! name) as [ch|]; [|done].
  destruct IH as (Hatt & Htimers & Heff). split; [|split; [done|]]; cbn.
  + intros name' a [_ Hlook]%lookup_delete_Some. by eapply Hatt.
  + apply Forall_app. split; [done|]. by apply Forall_singleton.
- destruct IH as (Hatt & Htimers & Heff). split; [|split; [done|]]; cbn.
  + intros ? ?. by rewrite lookup_empty.
  + apply Forall_app. split; [done|]. by apply Forall_fmap, Forall_true.
Qed.

Lemma names_tracked_subscribe name s :
  names_tracked s → names_tracked (subscribe name s).
Proof.
intros [Hnd Hiff]. unfold subscribe, JSSet.add, JSSet.has. split; cbn.
- case_bool_decide; [done|]. apply NoDup_app. split; [done|].
  split; [|apply NoDup_singleton]. by intros x Hx ->%list_elem_of_singleton.
- intros n. rewrite lookup_insert_is_Some, <-Hiff.
  case_bool_decide; [|rewrite elem_of_app, list_elem_of_singleton]; split.
  + intros Hn. destruct (decide (name = n)); [by left|by right].
  + by intros [<- |[_ ?]].
  + intros [?| ->]; [|by left]. destruct (decide (name = n)); [by left|by right].
  + intros [<- |[_ ?]]; [by right|by left].
Qed.

(** The names listed are the keys of the [channels] map, each once, in
    every state the service reaches. *)
Lemma names_tracked_run es : names_tracked (run es).
Proof.
unfold run. induction es as [|e es IH] using rev_ind.
{ split; [constructor|]. intros n. cbn. rewrite lookup_empty, elem_of_nil.
  split; [done|]. by intros [? ?]. }
rewrite foldl_snoc. set (s := foldl handle create es) in *.
destruct e as [name|name onError st|name|name|]; cbn [handle].
- by apply names_tracked_subscribe.
- destruct st; cbn [on_status]; try done; unfold handleReconnect;
    case_decide; try done; by destruct onError.
- unfold timer_fires. destruct (channels s !! name); by apply names_tracked_subscribe.
- unfold unsubscribe. destruct (channels s !! name) as [ch|]; [|done].
  destruct IH as [Hnd Hiff]. split; cbn.
  + by apply NoDup_filter.
  + intros n. unfold JSSet.delete. rewrite list_elem_of_filter, lookup_delete_is_Some, Hiff.
    split; intros [? ?]; split; done.
- split; [constructor|]. intros n. cbn. rewrite lookup_empty, elem_of_nil.
  split; [done|]. by intros [? ?].
Qed.

Lemma removed_snoc es e :
  removed (es ++ [e]) = removed es ++ match e with ChannelRemoved ch => [ch] | _ => [] end.
Proof. unfold removed. rewrite omap_app. by destruct e. Qed.

(** X10.  The closure [subscribeToTransactions] returns does nothing when
    the name has no channel.  Otherwise it removes that channel and no
    other, forgets the name's reconnect counter and leaves every other
    name alone; a later subscription under the name therefore starts its
    backoff at the base delay again, whatever the counter had reached. *)
Theorem unsubscribe_forgets_the_channel channelName s :
  let s' := unsubscribe channelName s in
  (channels s !! channelName = None → s' = s) ∧
  (∀ ch, channels s !! channelName = Some ch →
     channels s' !! channelName = None ∧
     reconnectAttempts s' !! channelName = None ∧
     S (getActiveSubscriptionCount s') = getActiveSubscriptionCount s ∧
     removed (effects s') = removed (effects s) ++ [ch] ∧
     (∀ other, other ≠ channelName →
        channels s' !! other = channels s !! other ∧
        reconnectAttempts s' !! other = reconnectAttempts s !! other) ∧
     (∀ onError st, failure st →
        delays_since s' (on_status channelName onError st (subscribe channelName s')) =
        [reconnectDelayMs])).
Proof.
intros s'. unfold s', unsubscribe. split; [by intros ->|].
intros ch Hch. rewrite Hch. unfold getActiveSubscriptionCount.
cbn [channels reconnectAttempts effects]. split_and!.
- apply lookup_delete_eq.
- apply lookup_delete_eq.
- rewrite map_size_delete, Hch. cbn.
  assert (size (channels s) ≠ 0); [|lia].
  intros Hempty%map_size_empty_inv. by rewrite Hempty, lookup_empty in Hch.
- apply removed_snoc.
- intros other Hne. by rewrite !lookup_delete_ne.
- intros onError st Hfail. unfold delays_since, subscribe.
  destruct Hfail as [-> | ->]; cbn [on_status]; unfold handleReconnect;
    cbn [reconnectAttempts timers]; rewrite lookup_delete_eq; cbn [default from_option id];
    rewrite decide_False by (unfold maxReconnectAttempts; lia);
    cbn [timers]; by rewrite drop_app_length.
Qed.

Lemma unsubscribe_forgets_the_channel_witness :
  let s := foldl (λ s st, on_status "transactions:0xw"%string None st s)
             (subscribe "transactions:0xw"%string create)
             [CHANNEL_ERROR; CHANNEL_ERROR; TIMED_OUT] in
  let s' := unsubscribe "transactions:0xw"%string s in
  reconnectAttempts s !! "transactions:0xw"%string = Some 3 ∧
  delays_since s' (on_status "transactions:0xw"%string None TIMED_OUT
                     (subscribe "transactions:0xw"%string s')) = [1000%Z].
Proof.
intros s s'. split; [reflexivity|].
destruct (proj2 (unsubscribe_forgets_the_channel "transactions:0xw"%string s) 0)
  as (_ & _ & _ & _ & _ & Hdelay).
- reflexivity.
- apply Hdelay. by right.
Defined.

(** X11.  The closure returned to the consumer does not cancel a reconnect
    timer.  When a failure has set a timer and the consumer unsubscribes
    before it fires, the channel is removed and the name is forgotten;
    when the timer then fires, [subscribe] runs all the same, and a new
    channel is open under the name, as many channels as before the
    unsubscription. *)
Theorem reconnect_timer_outlives_unsubscribe channelName onError st s ch :
  failure st →
  channels s !! channelName = Some ch →
  default 0 (reconnectAttempts s !! channelName) < maxReconnectAttempts →
  let s1 := on_status channelName onError st s in
  let s2 := unsubscribe channelName s1 in
  let s3 := timer_fires channelName s2 in
  delays_since s s1 = [retry_delay (default 0 (reconnectAttempts s !! channelName))] ∧
  channels s2 !! channelName = None ∧
  channels s3 !! channelName = Some (opened s) ∧
  getActiveSubscriptionCount s3 = getActiveSubscriptionCount s ∧
  effects s3 = effects s ++ [ChannelRemoved ch; ChannelOpened channelName (opened s)].
Proof.
intros Hfail Hch Hlt s1 s2 s3.
assert (s1 = Service (channels s) (channelNames s)
               (<[channelName := default 0 (reconnectAttempts s !! channelName) + 1]>
                  (reconnectAttempts s))
               (timers s ++ [(channelName,
                              retry_delay (default 0 (reconnectAttempts s !! channelName)))])
               (opened s) (effects s)) as Hs1.
{ unfold s1. destruct Hfail as [-> | ->]; cbn [on_status]; unfold handleReconnect;
    by rewrite decide_False by lia. }
unfold s3, s2, timer_fires, unsubscribe. rewrite Hs1. cbn [channels]. rewrite Hch.
cbn [channels reconnectAttempts timers opened effects]. rewrite lookup_delete_eq.
unfold subscribe, delays_since, getActiveSubscriptionCount.
cbn [channels reconnectAttempts timers opened effects]. split_and!.
- by rewrite drop_app_length.
- done.
- apply lookup_insert_eq.
- rewrite insert_delete_eq. rewrite map_size_insert_Some; [done|by eexists].
- by rewrite <-app_assoc.
Qed.

Lemma reconnect_timer_outlives_unsubscribe_witness :
  let s := on_status "transactions:0xw"%string (Some 1) SUBSCRIBED
             (subscribe "transactions:0xw"%string create) in
  let s3 := timer_fires "transactions:0xw"%string
              (unsubscribe "transactions:0xw"%string
                 (on_status "transactions:0xw"%string (Some 1) CHANNEL_ERROR s)) in
  channels s3 !! "transactions:0xw"%string = Some 1 ∧
  getActiveSubscriptionCount s3 = getActiveSubscriptionCount s.
Proof.
intros s s3.
destruct (reconnect_timer_outlives_unsubscribe "transactions:0xw"%string (Some 1)
            CHANNEL_ERROR s 0) as (_ & _ & Hopen & Hcount & _).
- by left.
- reflexivity.
- vm_compute. lia.
- split; [exact Hopen|exact Hcount].
Defined.

End SubscriptionServiceLifecycle.


(** ** [convertIndexerTransaction] *)
Module TransactionsFacts.
Import Transactions JSMap JSMapFacts.
Section convert.
Variable getAddress : string → option string.
Variable Date_getTime : string → Z.

Lemma length_set_le {K V} `{EqDecision K} (k : K) (v : V) (m : list (K * V)) :
  length (JSMap.set k v m) ≤ S (length m).
Proof.
induction m as [|[k' v'] m IH]; cbn; [lia|]. destruct (decide (k' = k)); cbn; lia.
Qed.

(** Once [getAddress] has thrown the loop is over. *)
Lemma owners_loop_thrown (l : list Confirmation) :
  foldl (λ acc c, approvals ← acc;
                  owner ← getAddress (owner_address c);
                  Some (JSMap.set owner true approvals)) None l = None.
Proof. by induction l. Qed.

Lemma approvals_loop (l : list Confirmation) (acc r : list (string * bool)) :
  wf acc → (∀ a, JSMap.get a acc ≠ Some false) →
  foldl (λ acc c, approvals ← acc;
                  owner ← getAddress (owner_address c);
                  Some (JSMap.set owner true approvals)) (Some acc) l = Some r →
  wf r ∧ (∀ a, JSMap.get a r ≠ Some false) ∧
  (∀ a, is_Some (JSMap.get a r) ↔
        is_Some (JSMap.get a acc) ∨
        ∃ c, c ∈ l ∧ getAddress (owner_address c) = Some a) ∧
  length r ≤ length acc + length l.
Proof.
revert acc. induction l as [|c l IH]; intros acc Hwf Hacc; cbn [foldl].
{ intros [= <-]. split_and!; [done|done| |cbn; lia]. intros a. split; [by left|].
  by intros [?|(c & ?%elem_of_nil & _)]. }
cbn [mbind option_bind].
destruct (getAddress (owner_address c)) as [owner|] eqn:Howner;
  [|by rewrite owners_loop_thrown].
cbn [mbind option_bind]. intros Hr.
set (acc' := JSMap.set owner true acc) in *.
destruct (IH acc') as (Hwf' & Hfalse & Hiff & Hlen); [| |done|].
{ by apply wf_set_map. }
{ intros a. unfold acc'. destruct (decide (a = owner)) as [->|Hne].
  - by rewrite get_set_eq.
  - rewrite get_set_ne by done. apply Hacc. }
split_and!; [done|done| |].
- intros a. rewrite Hiff. unfold acc'.
  destruct (decide (a = owner)) as [->|Hne].
  + rewrite get_set_eq. split; [|by left].
    intros _. right. exists c. split; [apply list_elem_of_here|done].
  + rewrite get_set_ne by done. split.
    * intros [?|(c' & Hin & Heq)]; [by left|right].
      exists c'. split; [by apply list_elem_of_further|done].
    * intros [?|(c' & [->|Hin]%elem_of_cons & Heq)]; [by left|congruence|right].
      by exists c'.
- pose proof (length_set_le owner true acc). cbn. unfold acc' in *. lia.
Qed.

(** X12.  The record [convertIndexerTransaction] returns lists as
    approvers exactly the checksummed owners of the confirmations that are
    active, each once and each with the value [true]; a revoked
    confirmation leaves no entry.  The approval count is the indexer's
    [confirmation_count], whatever the confirmations passed; the record is
    never both executed and cancelled, its data defaults to ['0x'], and it
    is not optimistic. *)
Theorem converted_record_lists_active_confirmations tx walletThreshold confirmations p :
  convertIndexerTransaction getAddress Date_getTime tx walletThreshold confirmations
    = Some p →
  wf (approvals p) ∧
  (∀ a, JSMap.get a (approvals p) = Some true ↔
        ∃ c, c ∈ confirmations ∧ is_active c = true ∧
             getAddress (owner_address c) = Some a) ∧
  (∀ a, JSMap.get a (approvals p) ≠ Some false) ∧
  length (approvals p) ≤ length (filter (λ c, is_active c = true) confirmations) ∧
  hash p = tx_hash tx ∧
  numApprovals p = confirmation_count tx ∧ threshold p = walletThreshold ∧
  ¬ (executed p = true ∧ cancelled p = true) ∧
  (tx_data tx = None → data p = "0x"%string) ∧
  _optimistic p = false.
Proof.
intros (r & to & proposer & Hloop & _ & _ & ->)%ReconciliationFacts.convert_Some.
cbn [approvals hash numApprovals threshold executed cancelled data _optimistic].
destruct (approvals_loop (filter (λ c, is_active c = true) confirmations) [] r)
  as (Hwf & Hfalse & Hiff & Hlen); [constructor|done|done|].
split_and!; try done.
- intros a. split.
  + intros Hget. destruct (proj1 (Hiff a)) as [[? [=]]|(c & Hin & Heq)]; [by eexists|].
    apply list_elem_of_filter in Hin as [? ?]. by exists c.
  + intros (c & Hin & Hact & Heq).
    destruct (proj2 (Hiff a)) as [b Hb].
    { right. exists c. split; [|done]. by apply list_elem_of_filter. }
    destruct b; [done|]. by apply Hfalse in Hb.
- intros [Hex Hca]. apply bool_decide_eq_true in Hex, Hca. congruence.
- by intros ->.
Qed.

End convert.

Lemma converted_record_lists_active_confirmations_witness :
  let tx := IndexerTx "0xAA"%string "0x5aaeb6053f3e94c9b9a09f33669435e7ef1beaed"%string
              "5"%string None 1 "pending"%string "2026-01-01"%string
              "0xfb6916095ca1df60bb79ce92ce3ea74c37c5d359"%string in
  let confirmations :=
    [Confirm "0xdbf03b407c01e7cd3cbea99509d93f8dddc8c6fb"%string true;
     Confirm "0xfb6916095ca1df60bb79ce92ce3ea74c37c5d359"%string false] in
  ∃ p, convertIndexerTransaction sample_getAddress (λ _, 0%Z) tx 2 confirmations = Some p ∧
       approvals p = [("0xdbF03B407c01E7cD3CBea99509d93f8DDDC8C6FB"%string, true)] ∧
       numApprovals p = 1%Z ∧ _optimistic p = false.
Proof.
intros tx confirmations. eexists. split; [reflexivity|]. split; [reflexivity|].
destruct (converted_record_lists_active_confirmations sample_getAddress (λ _, 0%Z)
            tx 2%Z confirmations _ eq_refl) as (_ & _ & _ & _ & _ & Hn & _ & _ & _ & Hopt).
split; [exact Hn|exact Hopt].
Defined.
End TransactionsFacts.

(** ** Cache reconciliation: updates in place, sequences of events *)
Module ReconciliationEvents.
Import Transactions Reconciliation ReconciliationFacts.
Section events.
Variable getAddress : string → option string.
Variable Date_getTime : string → Z.

Local Abbreviation convert := (convertIndexerTransaction getAddress Date_getTime).

(** X13.  When the conversion returns a record, an update event whose
    status is neither executed nor cancelled rewrites the pending list in
    place: every entry with the event's hash becomes the converted
    record, every other entry stays where it is, the list keeps its
    length and its hashes, and the histories are not touched.  When no
    pending entry has the hash the list is unchanged: the update is not
    inserted. *)
Theorem update_replaces_in_place tx walletThreshold confirmations c converted :
  status tx ≠ "executed"%string → status tx ≠ "cancelled"%string →
  convert tx walletThreshold confirmations = Some converted →
  let old := default [] (pendingTransactions c) in
  ∃ updated new,
    onUpdate getAddress Date_getTime tx (Some walletThreshold) true true confirmations c
      = Some updated ∧
    pendingTransactions updated = Some new ∧
    length new = length old ∧
    (∀ i t, old !! i = Some t →
       new !! i = Some (if decide (hash t = tx_hash tx) then converted else t)) ∧
    hash <$> new = hash <$> old ∧
    (Forall (λ t, hash t ≠ tx_hash tx) old → new = old) ∧
    executedTransactions updated = executedTransactions c ∧
    cancelledTransactions updated = cancelledTransactions c.
Proof.
intros Hex Hca Hconv old. unfold onUpdate. cbn [andb].
rewrite Hconv. cbn [mbind option_bind]. rewrite !bool_decide_eq_false_2 by done.
eexists _, _. split; [done|].
cbn [pendingTransactions executedTransactions cancelledTransactions updater].
split; [done|]. fold old. split_and!; try done.
- apply length_fmap.
- intros i t Hi. by rewrite list_lookup_fmap, Hi.
- rewrite <-list_fmap_compose. apply list_fmap_ext. intros i t _. cbn.
  case_decide; [|done]. by destruct (converted_hash _ _ _ _ _ _ Hconv) as [-> _].
- intros Hnone. rewrite <-(list_fmap_id old) at 2. apply list_fmap_ext.
  intros i t Hi. cbn. rewrite decide_False; [done|].
  eapply (proj1 (Forall_forall _ _) Hnone), list_elem_of_lookup_2, Hi.
Qed.

Lemma within_cap_updater f old :
  (∀ l, length l ≤ MAX_CACHE_TRANSACTIONS → length (f l) ≤ MAX_CACHE_TRANSACTIONS) →
  length (default [] old) ≤ MAX_CACHE_TRANSACTIONS →
  length (default [] (updater f old)) ≤ MAX_CACHE_TRANSACTIONS.
Proof. intros Hf Hold. cbn. by apply Hf. Qed.

Lemma length_take_cap {A} (l : list A) : length (take MAX_CACHE_TRANSACTIONS l) ≤ MAX_CACHE_TRANSACTIONS.
Proof. rewrite length_take. lia. Qed.

Lemma within_cap_process c e :
  within_cap c → within_cap (process getAddress Date_getTime c e).
Proof.
intros (Hp & Hx & Hc).
destruct e as [tx [th|] a1 a2 confs|tx [th|] a1 a2 confs]; cbn [process]; try done.
- unfold onInsert. destruct (a1 && a2); [|done].
  destruct (convertIndexerTransaction _ _ _ _ _) as [converted|]; [|done].
  cbn [mbind option_bind default from_option id]. split_and!; try done.
  cbn [pendingTransactions updater default from_option id]. apply length_take_cap.
- unfold onUpdate. destruct (a1 && a2); [|done].
  destruct (convertIndexerTransaction _ _ _ _ _) as [converted|]; [|done].
  cbn [mbind option_bind default from_option id].
  assert (∀ l : list PendingTransaction, length l ≤ MAX_CACHE_TRANSACTIONS →
            length (filter (λ t, hash t ≠ tx_hash tx) l) ≤ MAX_CACHE_TRANSACTIONS) as Hfilter.
  { intros l Hl. pose proof (length_filter (λ t, hash t ≠ tx_hash tx) l). lia. }
  repeat case_bool_decide; split_and!;
    cbn [pendingTransactions executedTransactions cancelledTransactions updater
         default from_option id]; try done;
    try apply length_take_cap; try (by apply Hfilter).
  by rewrite length_fmap.
Qed.

(** X14.  Whatever insert and update events arrive, with whatever the
    fetches return, a cache whose three lists are within
    [MAX_CACHE_TRANSACTIONS] stays within it; starting from an empty
    cache, no list ever grows beyond it. *)
Theorem events_keep_the_cache_capped (es : list event) c :
  let c' := foldl (process getAddress Date_getTime) c es in
  (within_cap c → within_cap c') ∧
  (c = Cache None None None →
     length (default [] (pendingTransactions c')) ≤ MAX_CACHE_TRANSACTIONS ∧
     length (default [] (executedTransactions c')) ≤ MAX_CACHE_TRANSACTIONS ∧
     length (default [] (cancelledTransactions c')) ≤ MAX_CACHE_TRANSACTIONS).
Proof.
intros c'. assert (within_cap c → within_cap c') as Hcap.
{ unfold c'. clear c'. revert c. induction es as [|e es IH]; intros c Hc; [done|].
  cbn [foldl]. by apply IH, within_cap_process. }
split; [done|]. intros ->. apply Hcap. unfold within_cap, MAX_CACHE_TRANSACTIONS. cbn. lia.
Qed.

End events.

Lemma update_replaces_in_place_witness :
  let tx := IndexerTx "0xAA"%string "0x5aaeb6053f3e94c9b9a09f33669435e7ef1beaed"%string
              "5"%string None 2 "pending"%string "2026-01-01"%string
              "0xfb6916095ca1df60bb79ce92ce3ea74c37c5d359"%string in
  let stale := PendingTx "0xAA"%string
                 "0x5aAeb6053F3E94C9b9A09f33669435E7Ef1BeAed"%string "5"%string
                 "0x"%string 1 2 false false 0%Q
                 "0xfB6916095ca1df60bB79Ce92cE3Ea74c37c5d359"%string [] false in
  let other := PendingTx "0xBB"%string
                 "0x5aAeb6053F3E94C9b9A09f33669435E7Ef1BeAed"%string "7"%string
                 "0x"%string 1 2 false false 0%Q
                 "0xfB6916095ca1df60bB79Ce92cE3Ea74c37c5d359"%string [] false in
  let c := Cache (Some [other; stale]) None None in
  ∃ converted updated,
    convertIndexerTransaction sample_getAddress (λ _, 0%Z) tx 2 [] = Some converted ∧
    onUpdate sample_getAddress (λ _, 0%Z) tx (Some 2%Z) true true [] c = Some updated ∧
    pendingTransactions updated = Some [other; converted].
Proof.
intros tx stale other c.
destruct (update_replaces_in_place sample_getAddress (λ _, 0%Z) tx 2%Z [] c _
            ltac:(done) ltac:(done) eq_refl)
  as (updated & new & Hupdated & Hnew & Hlen & Hat & _).
eexists _, updated. split; [reflexivity|]. split; [exact Hupdated|].
rewrite Hnew. f_equal.
pose proof (Hat 0 other eq_refl) as H0. pose proof (Hat 1 stale eq_refl) as H1.
destruct new as [|n0 [|n1 [|n2 new]]]; cbn in Hlen; try discriminate.
cbn in H0, H1. by injection H0 as ->; injection H1 as ->.
Defined.

Lemma events_keep_the_cache_capped_witness :
  let tx := IndexerTx "0xAA"%string "0x5aaeb6053f3e94c9b9a09f33669435e7ef1beaed"%string
              "5"%string None 2 "executed"%string "2026-01-01"%string
              "0xfb6916095ca1df60bb79ce92ce3ea74c37c5d359"%string in
  within_cap (foldl (process sample_getAddress (λ _, 0%Z)) (Cache None None None)
                [Inserted tx (Some 2%Z) true true []; Updated tx (Some 2%Z) true true []]).
Proof.
intros tx.
apply (proj1 (events_keep_the_cache_capped sample_getAddress (λ _, 0%Z)
                [Inserted tx (Some 2%Z) true true []; Updated tx (Some 2%Z) true true []]
                (Cache None None None))).
unfold within_cap, MAX_CACHE_TRANSACTIONS. cbn. lia.
Defined.
End ReconciliationEvents.

(** ** Optimistic updates *)
Module OptimisticUpdatesFacts.
Import Transactions Reconciliation OptimisticUpdates JSMap JSMapFacts ReconciliationFacts.
Section updates.
Variable getAddress : string → option string.
Variable Date_getTime : string → Z.

Local Abbreviation convert := (convertIndexerTransaction getAddress Date_getTime).

Lemma filter_keeps_other_hashes h (l : list PendingTransaction) :
  Forall (λ t, hash t ≠ h) l →
  filter (λ t, _optimistic t = false ∨ hash t ≠ h) l = l.
Proof.
induction 1 as [|t l Ht Hl IH]; [done|].
rewrite filter_cons_True by (by right). by rewrite IH.
Qed.

Lemma placeholder_Some now ptx optimistic :
  placeholder getAddress now ptx = Some optimistic →
  hash optimistic = p_hash ptx ∧ _optimistic optimistic = true.
Proof.
unfold placeholder. intros Hp.
destruct (checksummed getAddress (p_to ptx)); [|done]. cbn in Hp.
destruct (checksummed getAddress (p_proposer ptx)); [|done]. cbn in Hp.
destruct (match p_approvals ptx with Some _ => _ | None => _ end); [|done].
cbn in Hp. by injection Hp as <-.
Qed.

(** X15.  An optimistic placeholder leaves no trace once the indexer's
    insert event for its hash is processed: when the addresses are valid,
    so that the placeholder was written and the event is converted, the
    pending list is what the insert alone would have produced, with the
    converted record at its head and no optimistic entry of that hash;
    when no older entry had the hash, the list is the converted record
    followed by the old entries, cut to the first
    [MAX_CACHE_TRANSACTIONS]. *)
Theorem insert_replaces_the_placeholder now ptx tx walletThreshold confirmations c
    optimistic converted :
  tx_hash tx = p_hash ptx →
  placeholder getAddress now ptx = Some optimistic →
  convert tx walletThreshold confirmations = Some converted →
  let old := default [] (pendingTransactions c) in
  let onInsert :=
    onInsert getAddress Date_getTime tx (Some walletThreshold) true true confirmations in
  ∃ c1 c2,
    addOptimisticTransaction getAddress now ptx c = Some c1 ∧
    onInsert c1 = Some c2 ∧
    pendingTransactions c1 = Some (optimistic :: old) ∧
    onInsert c = Some c2 ∧
    (∃ new, pendingTransactions c2 = Some new ∧ head new = Some converted ∧
            Forall (λ t, _optimistic t = true → hash t ≠ tx_hash tx) new) ∧
    (Forall (λ t, hash t ≠ tx_hash tx) old →
       pendingTransactions c2 = Some (take MAX_CACHE_TRANSACTIONS (converted :: old))).
Proof.
intros Hhash Hplace Hconv old.
destruct (placeholder_Some _ _ _ Hplace) as [Hh Hopt].
destruct (converted_hash _ _ _ _ _ _ Hconv) as [_ Hcopt].
cbv zeta. unfold addOptimisticTransaction, onInsert. rewrite Hplace, Hconv.
cbn [andb mbind option_bind pendingTransactions executedTransactions
     cancelledTransactions].
eexists _, _. split; [done|]. split; [done|].
cbn [pendingTransactions executedTransactions cancelledTransactions].
assert (insert_merge tx converted (optimistic :: old) = insert_merge tx converted old)
  as Hsame.
{ unfold insert_merge. rewrite filter_cons_False; [done|].
  intros [?|Hne]; [congruence|]. apply Hne. congruence. }
split_and!.
- done.
- unfold updater. cbn [default from_option id]. fold old. by rewrite Hsame.
- unfold updater. cbn [default from_option id]. fold old. rewrite Hsame.
  eexists. split; [done|].
  by destruct (insert_merge_spec tx converted old Hcopt) as (_ & _ & Hhead & Hnone).
- intros Hnone. unfold updater. cbn [default from_option id]. fold old.
  rewrite Hsame. unfold insert_merge.
  by rewrite (filter_keeps_other_hashes (tx_hash tx) old Hnone).
Qed.

Lemma revoke_after_approve a (tx : PendingTransaction) :
  (0 ≤ numApprovals tx)%Z → a ∉ keys (approvals tx) →
  without_approval a (with_approval a tx) = flagged tx.
Proof.
intros Hn Ha. unfold without_approval, with_approval, flagged.
cbn [hash to value data numApprovals threshold executed cancelled timestamp proposer
     approvals]. f_equal; [lia|].
rewrite set_absent by done. rewrite filter_app, filter_cons_False by (by intros ?).
rewrite filter_nil, app_nil_r. by apply (filter_other_absent a).
Qed.

(** X16.  When [getAddress] accepts the owner's address, an optimistic
    approval followed by the optimistic revocation of the same owner gives
    every matching entry its approval count and its approvals back,
    provided the count was not negative and the owner's checksummed
    address was not listed; the entry stays flagged as optimistic, and
    entries of other hashes are not touched.  Whatever the cache holds, a
    revocation leaves no matching entry with a negative count or with the
    revoker among its approvals. *)
Theorem approval_then_revocation_restores txHash owner c checksummedOwner :
  getAddress owner = Some checksummedOwner →
  let old := default [] (pendingTransactions c) in
  ∃ approved revoked after,
    updateOptimisticApproval getAddress txHash owner c = Some approved ∧
    updateOptimisticRevocation getAddress txHash owner approved = Some revoked ∧
    updateOptimisticRevocation getAddress txHash owner c = Some after ∧
    (Forall (λ tx, hash tx = txHash →
                   (0 ≤ numApprovals tx)%Z ∧ checksummedOwner ∉ keys (approvals tx)) old →
     pendingTransactions revoked =
       Some ((λ tx, if decide (hash tx = txHash) then flagged tx else tx) <$> old)) ∧
    (∀ new, pendingTransactions after = Some new →
       Forall (λ tx, hash tx = txHash →
                     (0 ≤ numApprovals tx)%Z ∧ checksummedOwner ∉ keys (approvals tx)) new) ∧
    executedTransactions revoked = executedTransactions c ∧
    cancelledTransactions revoked = cancelledTransactions c.
Proof.
intros Howner old. unfold updateOptimisticRevocation, updateOptimisticApproval.
rewrite Howner. cbn [mbind option_bind]. eexists _, _, _.
split; [done|]. split; [done|]. split; [done|].
cbn [pendingTransactions executedTransactions cancelledTransactions].
split_and!; [| |done|done].
- intros Hold. unfold updater. cbn [default from_option id]. fold old.
  f_equal. rewrite <-list_fmap_compose. apply list_fmap_ext. intros i tx Hi. cbn.
  destruct (decide (hash tx = txHash)) as [Heq|Hne].
  + rewrite decide_True by done.
    destruct (proj1 (Forall_forall _ _) Hold tx) as [Hn Ha]; [|done|].
    { by eapply list_elem_of_lookup_2. }
    by apply revoke_after_approve.
  + by rewrite decide_False.
- intros new. unfold updater. intros [= <-].
  apply Forall_fmap, Forall_forall.
  intros tx _. cbn. destruct (decide (hash tx = txHash)) as [Heq|Hne]; [|done].
  intros _. cbn [numApprovals approvals without_approval]. split; [lia|].
  unfold keys. intros ((k & v) & -> & [Hk _]%list_elem_of_filter)%list_elem_of_fmap.
  by apply Hk.
Qed.

(** X17.  [markOptimisticExecuted] removes every pending entry with the
    hash, exactly as [markOptimisticCancelled] does, and adds nothing to
    the executed history: the entry the second write looks for has been
    filtered out by the first, so the history is its old self, or the
    empty list where there was none. *)
Theorem optimistic_execution_only_removes txHash c :
  let c' := markOptimisticExecuted txHash c in
  pendingTransactions c' =
    Some (filter (λ tx, hash tx ≠ txHash) (default [] (pendingTransactions c))) ∧
  executedTransactions c' = Some (default [] (executedTransactions c)) ∧
  cancelledTransactions c' = cancelledTransactions c ∧
  pendingTransactions c' = pendingTransactions (markOptimisticCancelled txHash c).
Proof.
intros c'. unfold c', markOptimisticExecuted, markOptimisticCancelled.
cbn [pendingTransactions executedTransactions cancelledTransactions].
unfold updater. cbn [mbind option_bind].
split_and!; try done.
set (old := default [] (pendingTransactions c)).
destruct (list_find _ (filter _ old)) as [[i tx]|] eqn:Hfind; [|done].
apply list_find_Some in Hfind as (Hi & Hhash & _).
apply list_elem_of_lookup_2, list_elem_of_filter in Hi as [Hne _]. done.
Qed.

End updates.

Lemma insert_replaces_the_placeholder_witness :
  let tx := IndexerTx "0xAA"%string "0x5aaeb6053f3e94c9b9a09f33669435e7ef1beaed"%string
              "5"%string None 1 "pending"%string "2026-01-01"%string
              "0xfb6916095ca1df60bb79ce92ce3ea74c37c5d359"%string in
  let ptx := PartialTx "0xAA"%string
               (Some "0x5aAeb6053F3E94C9b9A09f33669435E7Ef1BeAed"%string) None None None
               None None (Some "0xfB6916095ca1df60bB79Ce92cE3Ea74c37c5d359"%string) None in
  let c := Cache None None None in
  ∃ c1 c2 converted,
    addOptimisticTransaction sample_getAddress 7%Q ptx c = Some c1 ∧
    onInsert sample_getAddress (λ _, 0%Z) tx (Some 2%Z) true true [] c1 = Some c2 ∧
    convertIndexerTransaction sample_getAddress (λ _, 0%Z) tx 2 [] = Some converted ∧
    pendingTransactions c2 = Some [converted].
Proof.
intros tx ptx c.
destruct (insert_replaces_the_placeholder sample_getAddress (λ _, 0%Z) 7%Q ptx tx 2%Z []
            c _ _ eq_refl eq_refl eq_refl)
  as (c1 & c2 & H1 & H2 & _ & _ & _ & Hnew).
exists c1, c2. eexists. split; [exact H1|]. split; [exact H2|].
split; [reflexivity|]. apply Hnew. constructor.
Defined.

Lemma approval_then_revocation_restores_witness :
  let tx := PendingTx "0xAA"%string
              "0x5aAeb6053F3E94C9b9A09f33669435E7Ef1BeAed"%string "5"%string "0x"%string
              1 2 false false 0%Q "0xfB6916095ca1df60bB79Ce92cE3Ea74c37c5d359"%string
              [("0xfB6916095ca1df60bB79Ce92cE3Ea74c37c5d359"%string, true)] false in
  let owner := "0xdbf03b407c01e7cd3cbea99509d93f8dddc8c6fb"%string in
  let c := Cache (Some [tx]) None None in
  ∃ approved revoked,
    updateOptimisticApproval sample_getAddress "0xAA"%string owner c = Some approved ∧
    updateOptimisticRevocation sample_getAddress "0xAA"%string owner approved
      = Some revoked ∧
    pendingTransactions revoked = Some [flagged tx].
Proof.
intros tx owner c.
destruct (approval_then_revocation_restores sample_getAddress "0xAA"%string owner c _
            eq_refl) as (approved & revoked & _ & Ha & Hr & _ & Hback & _).
exists approved, revoked. split; [exact Ha|]. split; [exact Hr|].
apply Hback. apply Forall_singleton. intros _. split; [cbn; lia|].
cbn. intros [=]%list_elem_of_singleton.
Defined.

(** *** Clean-up timers *)

Lemma clearTimeout_elem t e l : t ∈ clearTimeout e l ↔ t ∈ l ∧ t.1 ≠ e.
Proof. unfold clearTimeout. rewrite list_elem_of_filter. tauto. Qed.

Lemma clearTimeout_NoDup e (l : list (nat * string)) :
  NoDup l.*1 → NoDup (clearTimeout e l).*1.
Proof.
intros Hnd. eapply sublist_NoDup; [exact Hnd|].
apply fmap_sublist, sublist_filter.
Qed.

Lemma timeout_names_hash (l : list (nat * string)) id h1 h2 :
  NoDup l.*1 → (id, h1) ∈ l → (id, h2) ∈ l → h1 = h2.
Proof.
induction l as [|[a b] l IH]; cbn; [by intros _ ?%elem_of_nil|].
intros [Ha Hnd]%NoDup_cons [H1|H1]%elem_of_cons [H2|H2]%elem_of_cons.
- congruence.
- injection H1 as -> ->. destruct Ha. apply list_elem_of_fmap. by exists (a, h2).
- injection H2 as -> ->. destruct Ha. apply list_elem_of_fmap. by exists (a, h1).
- by apply IH.
Qed.

Lemma filter_none {A} (P : A → Prop) `{!∀ x, Decision (P x)} (l : list A) :
  (∀ x, x ∈ l → ¬ P x) → filter P l = [].
Proof.
induction l as [|x l IH]; [done|]. intros Hl.
rewrite filter_cons_False by (apply Hl, list_elem_of_here).
apply IH. intros y Hy. by apply Hl, list_elem_of_further.
Qed.

Lemma timers_tracked_remove h e inv s :
  timers_tracked s → JSMap.get h (pendingTimeoutsRef s) = Some e →
  timers_tracked (Cleanups (JSMap.delete h (pendingTimeoutsRef s))
                    (clearTimeout e (live s)) (nextTimeout s) inv).
Proof.
intros (Hwf & Hnd & Hpos & Hrange & Hiff) Hget.
split_and!; cbn [pendingTimeoutsRef live nextTimeout].
- rewrite delete_filter by done. by apply wf_filter.
- by apply clearTimeout_NoDup.
- done.
- apply Forall_forall. intros t [Ht _]%clearTimeout_elem.
  by apply (proj1 (Forall_forall _ _) Hrange).
- intros id h'. rewrite clearTimeout_elem, delete_filter by done. cbn [fst]. split.
  + intros [Hin Hne]. apply Hiff in Hin.
    rewrite get_filter_other; [done|]. intros ->. congruence.
  + intros Hget'. destruct (decide (h' = h)) as [->|Hh].
    { by rewrite get_filter_other_same in Hget'. }
    rewrite get_filter_other in Hget' by done. split; [by apply Hiff|].
    intros ->. apply Hh. apply Hiff in Hget, Hget'.
    by eapply (timeout_names_hash (live s) e).
Qed.

Lemma timers_tracked_schedule h s :
  timers_tracked s → timers_tracked (scheduleOptimisticCleanup h s).
Proof.
intros (Hwf & Hnd & Hpos & Hrange & Hiff). unfold scheduleOptimisticCleanup.
set (live1 := match JSMap.get h (pendingTimeoutsRef s) with
              | Some e => clearTimeout e (live s)
              | None => live s
              end).
assert (NoDup live1.*1) as Hnd1.
{ unfold live1. destruct (JSMap.get h _); [by apply clearTimeout_NoDup|done]. }
assert (∀ id h', (id, h') ∈ live1 ↔
                 JSMap.get h' (pendingTimeoutsRef s) = Some id ∧ h' ≠ h) as Hiff1.
{ intros id h'. unfold live1.
  destruct (JSMap.get h (pendingTimeoutsRef s)) as [e|] eqn:Hget.
  - rewrite clearTimeout_elem, Hiff. cbn [fst]. split.
    + intros [Hget' Hne]. split; [done|]. intros ->. congruence.
    + intros [Hget' Hne]. split; [done|]. intros ->. apply Hne.
      apply Hiff in Hget, Hget'. by eapply (timeout_names_hash (live s) e).
  - rewrite Hiff. split; [|by intros [? _]].
    intros Hget'. split; [done|]. intros ->. congruence. }
assert (Forall (λ t, t.1 < nextTimeout s) live1) as Hrange1.
{ apply Forall_forall. intros [id h'] [Hin _]%Hiff1. apply Hiff in Hin.
  by apply (proj1 (Forall_forall _ _) Hrange) in Hin. }
split_and!; cbn [pendingTimeoutsRef live nextTimeout].
- by apply wf_set_map.
- rewrite fmap_app. apply NoDup_app. split; [done|]. split; [|apply NoDup_singleton].
  intros id Hin Hid%list_elem_of_singleton. cbn in Hid.
  apply list_elem_of_fmap in Hin as ([id' h'] & Heq & Hin). cbn in Heq.
  apply (proj1 (Forall_forall _ _) Hrange1) in Hin. cbn in Hin. lia.
- lia.
- apply Forall_app. split.
  + eapply Forall_impl; [exact Hrange1|]. cbn. intros. lia.
  + apply Forall_singleton. cbn. lia.
- intros id h'. rewrite elem_of_app, list_elem_of_singleton, Hiff1.
  destruct (decide (h' = h)) as [->|Hne].
  + rewrite get_set_eq. split.
    * intros [[_ ?]|[= ->]]; done.
    * intros [= ->]. by right.
  + rewrite get_set_ne by done. split.
    * intros [[? _]|[= _ ?]]; done.
    * intros ?. by left.
Qed.

Lemma unmount_clears (m : list (string * nat)) (l : list (nat * string)) t :
  t ∈ foldl (λ l kv, clearTimeout kv.2 l) l m ↔ t ∈ l ∧ t.1 ∉ m.*2.
Proof.
revert l. induction m as [|[h e] m IH]; intros l; cbn [foldl].
- cbn. split; [|by intros [? _]]. intros ?. split; [done|]. apply not_elem_of_nil.
- rewrite IH, clearTimeout_elem. cbn. rewrite not_elem_of_cons. tauto.
Qed.

Lemma unmount_live s : timers_tracked s → live (unmount s) = [].
Proof.
intros (_ & _ & _ & _ & Hiff). unfold unmount. cbn [live].
destruct (foldl _ _ _) as [|[id h] l] eqn:Hfold; [done|].
assert ((id, h) ∈ foldl (λ l kv, clearTimeout kv.2 l) (live s) (pendingTimeoutsRef s))
  as [Hin Hout]%unmount_clears by (rewrite Hfold; apply list_elem_of_here).
apply Hiff, get_Some_elem in Hin. destruct Hout.
apply list_elem_of_fmap. by exists (h, id).
Qed.

Lemma timers_tracked_run actions : timers_tracked (run actions).
Proof.
unfold run. induction actions as [|a actions IH] using rev_ind.
{ split_and!; cbn; [constructor|constructor|lia|constructor|].
  intros id h. split; [by intros ?%elem_of_nil|done]. }
rewrite foldl_snoc. set (s := foldl act no_cleanups actions) in *.
destruct a as [h|h|id pendingTxs|]; cbn [act].
- by apply timers_tracked_schedule.
- unfold cancelOptimisticCleanup.
  destruct (JSMap.get h _) as [e|] eqn:Hget; [|done]. by apply timers_tracked_remove.
- unfold timeout_fires.
  destruct (list_find _ _) as [[i [id' h]]|] eqn:Hfind; [|done].
  apply list_find_Some in Hfind as (Hi & Hid & _). cbn in Hid. subst id'.
  apply timers_tracked_remove; [done|].
  destruct IH as (_ & _ & _ & _ & Hiff). by eapply Hiff, list_elem_of_lookup_2.
- pose proof (unmount_live s IH) as Hlive. destruct IH as (_ & _ & Hpos & _).
  unfold unmount in *. cbn [live] in Hlive. rewrite Hlive.
  split_and!; cbn; [constructor|constructor|done|constructor|].
  intros id h. split; [by intros ?%elem_of_nil|done].
Qed.

(** X18.  Whatever sequence of schedules, cancellations, firing timers and
    unmounts happens, the live clean-up timers are exactly the ones the
    hook's map records, so there is at most one per transaction hash.
    Scheduling a clean-up for a hash clears the timer that hash had and
    leaves the new one as its only timer; cancelling leaves it none; the
    unmount clean-up leaves no timer at all. *)
Theorem one_cleanup_timer_per_transaction (actions : list action) txHash :
  let s := run actions in
  let timers_of (s : cleanups) := filter (λ t, t.2 = txHash) (live s) in
  (∀ timeout, (timeout, txHash) ∈ live s ↔
              JSMap.get txHash (pendingTimeoutsRef s) = Some timeout) ∧
  length (timers_of s) ≤ 1 ∧
  timers_of (scheduleOptimisticCleanup txHash s) = [(nextTimeout s, txHash)] ∧
  timers_of (cancelOptimisticCleanup txHash s) = [] ∧
  live (unmount s) = [].
Proof.
intros s timers_of. pose proof (timers_tracked_run actions) as Hs. fold s in Hs.
pose proof Hs as (Hwf & Hnd & Hpos & Hrange & Hiff).
assert (∀ s', timers_tracked s' → JSMap.get txHash (pendingTimeoutsRef s') = None →
              timers_of s' = []) as Hnone.
{ intros s' (_ & _ & _ & _ & Hiff') Hget. apply filter_none.
  intros [id h] Hin Hh. cbn in Hh. subst h. apply Hiff' in Hin. congruence. }
split_and!.
- intros timeout. apply Hiff.
- destruct (JSMap.get txHash (pendingTimeoutsRef s)) as [e|] eqn:Hget.
  2:{ rewrite Hnone by done. cbn. lia. }
  assert (NoDup (timers_of s)) as Hnd'.
  { apply NoDup_filter. by eapply NoDup_fmap_1. }
  assert (∀ t, t ∈ timers_of s → t = (e, txHash)) as Hall.
  { intros [id h] [Hh Hin]%list_elem_of_filter. cbn in Hh. subst h.
    apply Hiff in Hin. congruence. }
  destruct (timers_of s) as [|x [|y l]]; cbn; [lia|lia|].
  apply NoDup_cons in Hnd' as [Hx _]. destruct Hx.
  rewrite (Hall x), (Hall y); [apply list_elem_of_here| |apply list_elem_of_here].
  apply list_elem_of_further, list_elem_of_here.
- pose proof (timers_tracked_schedule txHash s Hs) as (_ & _ & _ & _ & Hiff').
  unfold timers_of, scheduleOptimisticCleanup in *. cbn [live pendingTimeoutsRef] in *.
  rewrite filter_app, filter_cons_True by done. rewrite filter_nil.
  rewrite filter_none; [done|].
  intros [id h] Hin Hh. cbn in Hh. subst h.
  assert (id = nextTimeout s) as ->.
  { assert (JSMap.get txHash (JSMap.set txHash (nextTimeout s) (pendingTimeoutsRef s))
            = Some id) as Hget.
    { apply Hiff', elem_of_app. by left. }
    rewrite get_set_eq in Hget. congruence. }
  destruct (JSMap.get txHash (pendingTimeoutsRef s)) as [e|].
  + apply clearTimeout_elem in Hin as [Hin _].
    apply (proj1 (Forall_forall _ _) Hrange) in Hin. cbn in Hin. lia.
  + apply (proj1 (Forall_forall _ _) Hrange) in Hin. cbn in Hin. lia.
- unfold cancelOptimisticCleanup.
  destruct (JSMap.get txHash (pendingTimeoutsRef s)) as [e|] eqn:Hget; [|by apply Hnone].
  apply Hnone; [by apply timers_tracked_remove|]. cbn [pendingTimeoutsRef].
  rewrite delete_filter by done. apply get_filter_other_same.
- by apply unmount_live.
Qed.

End OptimisticUpdatesFacts.


(** ** The other trackers of the hook *)
Module WalletTrackingFacts.
Import Transactions Notifications WalletTracking JSMap JSMapFacts LRUMapFacts NotificationsFacts.

Lemma approved_wf_approvalChanges connected w prevTx tx t :
  wf (approved t) → wf (approved (approvalChanges connected w prevTx tx t)).
Proof.
intros Hwf. unfold approvalChanges.
destruct connected as [c|]; [|done]. destruct (truthy c); [|done].
cbn [approved].
destruct (filter _ (approvers (approvals tx))) as [|a l] eqn:Hnew; [done|].
rewrite <-Hnew. clear Hnew.
pose proof (wf_get (toLowerCase w) (approved t) Hwf) as Hwf1.
destruct (LRUMap.get _ (approved t)) as [found tracker]. cbn [snd] in Hwf1.
destruct found as [walletApprovals|].
- destruct (foldl _ _ _) as [notifiedSet' new]. cbn [approved].
  destruct (JSMap.has _ _); [by apply wf_set_map|done].
- destruct (foldl _ _ _) as [notifiedSet' new]. cbn [approved].
  destruct (JSMap.has _ _); [apply wf_set_map|]; by apply wf_set.
Qed.

Lemma approved_wf_loop connected w prevTxsMap txs cur t :
  wf (ready t) ∧ wf (proposed t) ∧ wf (approved t) →
  let t' := (foldl (observe connected w prevTxsMap) (cur, t) txs).2 in
  wf (ready t') ∧ wf (proposed t') ∧ wf (approved t').
Proof.
intros Ht. cbv zeta.
apply (loop_invariant (λ t, wf (ready t) ∧ wf (proposed t) ∧ wf (approved t))); [done|].
clear. intros cur t tx _ (Hr & Hp & Ha).
destruct (observe_spec connected w prevTxsMap cur t tx Hr Hp) as (Hr' & Hp' & _).
split; [done|]. split; [done|]. unfold observe. cbn [snd].
destruct (JSMap.get _ prevTxsMap) as [prevTx|].
- apply approved_wf_approvalChanges.
  by destruct (readyToExecute_spec w prevTx tx t Hr) as (_ & -> & _).
- by destruct (newTransaction_spec w prevTxsMap tx t Hp) as (_ & -> & _).
Qed.

Lemma core_wf_pendingEffect connected w txs c :
  core_wf c → core_wf (pendingEffect connected w txs c).
Proof.
intros ([Hr Hp] & Hb & Ha). destruct (truthy w) eqn:Hw.
2:{ unfold pendingEffect. by rewrite Hw. }
rewrite pendingEffect_closed by done. cbv zeta.
destruct (approved_wf_loop connected w
            (default [] (JSMap.get w (prevPendingTxsRef c))) txs []
            (Tracking (notifiedReadyTxs c) (notifiedProposedTxs c) (notifiedApprovals c) []))
  as (Hr' & Hp' & Ha'); [done|].
by repeat split.
Qed.

Lemma core_wf_balanceEffect w cur c : core_wf c → core_wf (balanceEffect w cur c).
Proof.
intros (Ht & Hb & Ha). destruct (truthy w) eqn:Hw.
2:{ unfold balanceEffect. by rewrite Hw. }
split; [by apply trackers_wf_balanceEffect|].
rewrite balanceEffect_closed by done. cbv zeta.
cbn [lastNotifiedBalances notifiedApprovals]. split; [|done].
destruct (balance_increase _ _ _); [apply wf_set|]; by apply wf_get.
Qed.

Lemma core_wf_mark_proposed h w c : core_wf c → core_wf (mark_proposed h w c).
Proof.
intros ([Hr Hp] & Hb & Ha). unfold mark_proposed.
pose proof (wf_get (toLowerCase w) (notifiedProposedTxs c) Hp) as Hp1.
destruct (LRUMap.get _ (notifiedProposedTxs c)) as [found tracker]. cbn [snd] in Hp1.
repeat split; try done. cbn [notifiedProposedTxs]. by apply wf_set.
Qed.

Lemma wf_ownersEffect w prevOwners owners tracker :
  wf tracker → wf (ownersEffect w prevOwners owners tracker).1.
Proof.
intros Hwf. unfold ownersEffect.
pose proof (wf_get w tracker Hwf) as Hwf1.
destruct (LRUMap.get w tracker) as [lastKey tracker1]. cbn [snd] in Hwf1.
destruct (_ && _); cbn [fst]; [by apply wf_set|done].
Qed.

Lemma wf_thresholdEffect w prevThreshold threshold tracker :
  wf tracker → wf (thresholdEffect w prevThreshold threshold tracker).1.
Proof.
intros Hwf. unfold thresholdEffect.
pose proof (wf_get w tracker Hwf) as Hwf1.
destruct (LRUMap.get w tracker) as [last tracker1]. cbn [snd] in Hwf1.
destruct (_ && _); cbn [fst]; [by apply wf_set|done].
Qed.

Lemma wf_historyEffect notify w txs prev tracker :
  wf tracker → wf (historyEffect notify w txs prev tracker).1.
Proof.
intros Hwf. unfold historyEffect.
pose proof (wf_get (toLowerCase w) tracker Hwf) as Hwf1.
destruct (LRUMap.get _ tracker) as [found tracker1]. cbn [snd] in Hwf1.
destruct (foldl _ _ _) as [walletSet fired]. cbn [fst]. by apply wf_set.
Qed.

Lemma trackers_wf_handle s e : trackers_wf s → trackers_wf (handle s e).
Proof.
intros (Hcore & Hx & Hc & Ho & Ht & Hm & Hs).
destruct e as [w|w|w balance owners threshold|w statuses|connected w txs|w txs|w txs|h w];
  cbn [handle].
- unfold watch. destruct (truthy w); [|done].
  repeat split; try done; try apply Hcore. cbn. by apply wf_set_map.
- unfold unwatch. destruct (truthy w); [|done]. case_decide.
  + destruct Hcore as ([Hr Hp] & Hb & Ha).
    repeat split; cbn; apply wf_delete; try done.
  + repeat split; try done; try apply Hcore. cbn. by apply wf_set_map.
- unfold walletInfoEffect. destruct (truthy w); [|done].
  destruct (JSMap.get w (prevWalletInfoRef s)) as [[prevOwners prevThreshold]|].
  + pose proof (wf_ownersEffect w prevOwners owners _ Ho) as Ho'.
    pose proof (wf_thresholdEffect w prevThreshold threshold _ Ht) as Ht'.
    destruct (ownersEffect _ _ _ _) as [ownersTracker fired1].
    destruct (thresholdEffect _ _ _ _) as [thresholdTracker fired2].
    split; [by apply core_wf_balanceEffect|]. by repeat split.
  + split; [by apply core_wf_balanceEffect|]. by repeat split.
- unfold moduleStatusEffect. destruct (truthy w); [|done].
  pose proof (wf_get w _ Hm) as Hm1.
  destruct (LRUMap.get w (lastNotifiedModuleStatus s)) as [found tracker]. cbn [snd] in Hm1.
  repeat split; try done; try apply Hcore. cbn. by apply wf_set.
- split; [by apply core_wf_pendingEffect|]. by repeat split.
- unfold executedEffect. destruct (truthy w); [|done].
  pose proof (wf_historyEffect TransactionExecuted w txs (prevPendingTxsRef (core s)) _ Hx).
  destruct (historyEffect _ _ _ _ _) as [tracker fired].
  repeat split; try done; apply Hcore.
- unfold cancelledEffect. destruct (truthy w); [|done].
  pose proof (wf_historyEffect TransactionCancelled w txs (prevPendingTxsRef (core s)) _ Hc).
  destruct (historyEffect _ _ _ _ _) as [tracker fired].
  repeat split; try done; apply Hcore.
- unfold proposeSucceeded. destruct h as [h|]; [destruct (truthy h)|].
  + split; [by apply core_wf_mark_proposed|]. by repeat split.
  + by repeat split; try apply Hcore.
  + by repeat split; try apply Hcore.
Qed.

Lemma tracking_wf_run events : trackers_wf (run events).
Proof.
unfold run. induction events as [|e events IH] using rev_ind.
{ repeat split; constructor. }
rewrite foldl_snoc. by apply trackers_wf_handle.
Qed.

(** *** Executed and cancelled transactions *)

Lemma elem_of_add (x h : string) set : x ∈ JSSet.add h set ↔ x = h ∨ x ∈ set.
Proof.
unfold JSSet.add, JSSet.has. case_bool_decide.
- split; [by right|]. by intros [->|?].
- rewrite elem_of_app, list_elem_of_singleton. tauto.
Qed.

Lemma history_loop_recorded notify prev txs set0 out0 :
  Forall (λ tx, toLowerCase (hash tx) ∈ set0) txs →
  foldl (history_loop notify prev) (set0, out0) txs = (set0, out0).
Proof.
induction 1 as [|tx txs Htx Htxs IH]; [done|]. cbn [foldl history_loop].
unfold JSSet.has. by rewrite bool_decide_eq_true_2.
Qed.

Lemma history_loop_spec notify prev txs set0 out0 :
  ∃ set' hs,
    foldl (history_loop notify prev) (set0, out0) txs = (set', out0 ++ (notify <$> hs)) ∧
    NoDup (toLowerCase <$> hs) ∧
    (∀ h, h ∈ set' ↔ h ∈ set0 ∨ h ∈ (λ tx, toLowerCase (hash tx)) <$> txs) ∧
    (∀ x, x ∈ hs →
       (toLowerCase x ∉ set0) ∧ was_pending prev (toLowerCase x) = true ∧
       ∃ tx, tx ∈ txs ∧ hash tx = x) ∧
    (∀ tx, tx ∈ txs → toLowerCase (hash tx) ∉ set0 →
       was_pending prev (toLowerCase (hash tx)) = true →
       toLowerCase (hash tx) ∈ toLowerCase <$> hs).
Proof.
revert set0 out0. induction txs as [|tx txs IH]; intros set0 out0.
{ exists set0, []. cbn. rewrite app_nil_r. split_and!; [done|constructor| | |].
  - intros h. split; [by left|]. by intros [?|?%elem_of_nil].
  - by intros x ?%elem_of_nil.
  - by intros tx ?%elem_of_nil. }
cbn [foldl history_loop]. set (h0 := toLowerCase (hash tx)).
destruct (JSSet.has h0 set0) eqn:Hhas.
- apply bool_decide_eq_true in Hhas.
  destruct (IH set0 out0) as (set' & hs & Heq & Hnd & Hset & Hhs & Hall).
  exists set', hs. split_and!; [done|done| | |].
  + intros h. rewrite Hset, fmap_cons, elem_of_cons. fold h0.
    split; [tauto|]. intros [?|[->|?]]; tauto.
  + intros x Hx. destruct (Hhs x Hx) as (? & ? & tx' & ? & ?).
    split_and!; [done|done|]. exists tx'. split; [by apply list_elem_of_further|done].
  + intros tx' [->|Hin]%elem_of_cons Hfresh Hwas; [done|]. by apply Hall.
- apply bool_decide_eq_false in Hhas.
  destruct (IH (JSSet.add h0 set0)
              (if was_pending prev h0 then out0 ++ [notify (hash tx)] else out0))
    as (set' & hs & Heq & Hnd & Hset & Hhs & Hall).
  exists set', (if was_pending prev h0 then hash tx :: hs else hs).
  assert (h0 ∉ toLowerCase <$> hs) as Hfresh0.
  { intros (x & Hx & Hin)%list_elem_of_fmap. destruct (Hhs x Hin) as (Hout & _).
    apply Hout, elem_of_add. left. by rewrite <-Hx. }
  split_and!.
  + rewrite Heq. destruct (was_pending prev h0); [|done].
    by rewrite fmap_cons, <-app_assoc.
  + destruct (was_pending prev h0); [|done]. rewrite fmap_cons. by apply NoDup_cons.
  + intros h. rewrite Hset, elem_of_add, fmap_cons, elem_of_cons. fold h0. tauto.
  + intros x Hx.
    assert (x = hash tx ∧ was_pending prev h0 = true ∨ x ∈ hs) as [[-> Hwas]|Hin].
    { destruct (was_pending prev h0); [|by right].
      apply elem_of_cons in Hx as [->|?]; [by left|by right]. }
    * split_and!; [done|done|]. exists tx. split; [apply list_elem_of_here|done].
    * destruct (Hhs x Hin) as (Hout & ? & tx' & ? & ?). split_and!; [|done|].
      -- intros ?. apply Hout, elem_of_add. by right.
      -- exists tx'. split; [by apply list_elem_of_further|done].
  + intros tx' [->|Hin]%elem_of_cons Hout Hwas.
    * fold h0 in Hwas. rewrite Hwas, fmap_cons. apply list_elem_of_here.
    * destruct (decide (toLowerCase (hash tx') = h0)) as [Heq0|Hne].
      -- rewrite Heq0 in *. rewrite Hwas, fmap_cons. apply list_elem_of_here.
      -- assert (toLowerCase (hash tx') ∈ toLowerCase <$> hs) as Hin'.
         { apply Hall; [done| |done]. intros [?|?]%elem_of_add; done. }
         destruct (was_pending prev h0); [|done].
         rewrite fmap_cons. by apply list_elem_of_further.
Qed.

Lemma historyEffect_spec notify w txs prevPendingTxs tracker :
  wf tracker →
  let recorded := notified_set w tracker in
  let pending := JSMap.get w prevPendingTxs in
  let result := historyEffect notify w txs prevPendingTxs tracker in
  wf result.1 ∧
  ∃ hs, result.2 = notify <$> hs ∧
    NoDup (toLowerCase <$> hs) ∧
    (∀ x, x ∈ hs →
       (toLowerCase x ∉ recorded) ∧ was_pending pending (toLowerCase x) = true ∧
       ∃ tx, tx ∈ txs ∧ hash tx = x) ∧
    (∀ tx, tx ∈ txs → toLowerCase (hash tx) ∉ recorded →
       was_pending pending (toLowerCase (hash tx)) = true →
       toLowerCase (hash tx) ∈ toLowerCase <$> hs) ∧
    (∀ h, h ∈ notified_set w result.1 ↔
          h ∈ recorded ∨ h ∈ (λ tx, toLowerCase (hash tx)) <$> txs).
Proof.
intros Hwf recorded pending result. split; [by apply wf_historyEffect|].
unfold result, historyEffect.
pose proof (wf_get (toLowerCase w) tracker Hwf) as Hwf1.
pose proof (get_value (toLowerCase w) tracker) as Hfound.
destruct (LRUMap.get _ tracker) as [found tracker1]. cbn [fst snd] in Hwf1, Hfound.
subst found. fold (notified_set w tracker). fold recorded. fold pending.
destruct (history_loop_spec notify pending txs recorded [])
  as (set' & hs & -> & Hnd & Hset & Hhs & Hall).
cbn [fst snd]. exists hs. split_and!; try done.
intros h. by rewrite notified_set_after_set.
Qed.

Lemma historyEffect_recorded notify w txs prevPendingTxs tracker :
  wf tracker →
  Forall (λ tx, toLowerCase (hash tx) ∈ notified_set w tracker) txs →
  (historyEffect notify w txs prevPendingTxs tracker).2 = [].
Proof.
intros Hwf Hall. unfold historyEffect.
pose proof (get_value (toLowerCase w) tracker) as Hfound.
destruct (LRUMap.get _ tracker) as [found tracker1]. cbn [fst] in Hfound.
subst found. fold (notified_set w tracker).
by rewrite history_loop_recorded.
Qed.

Lemma executedEffect_closed w txs s :
  truthy w = true →
  executedEffect w txs s =
  let result := historyEffect TransactionExecuted w txs (prevPendingTxsRef (core s))
                  (notifiedExecutedTxs s) in
  State (core s) result.1 (notifiedCancelledTxs s) (lastNotifiedOwners s)
    (lastNotifiedThresholds s) (lastNotifiedModuleStatus s) (activeWalletSubscriptions s)
    (prevWalletInfoRef s) (notices s ++ result.2).
Proof. intros Hw. unfold executedEffect. rewrite Hw. by destruct (historyEffect _ _ _ _ _). Qed.

Lemma cancelledEffect_closed w txs s :
  truthy w = true →
  cancelledEffect w txs s =
  let result := historyEffect TransactionCancelled w txs (prevPendingTxsRef (core s))
                  (notifiedCancelledTxs s) in
  State (core s) (notifiedExecutedTxs s) result.1 (lastNotifiedOwners s)
    (lastNotifiedThresholds s) (lastNotifiedModuleStatus s) (activeWalletSubscriptions s)
    (prevWalletInfoRef s) (notices s ++ result.2).
Proof. intros Hw. unfold cancelledEffect. rewrite Hw. by destruct (historyEffect _ _ _ _ _). Qed.

(** X19.  One run of the executed-transactions effect notifies a
    transaction of its list exactly when its hash was not recorded for
    the wallet before and is in the pending map last stored for the
    wallet, once per hash however often the list holds it; every hash of
    the list is recorded afterwards, so a later run on a list of hashes
    already recorded notifies nothing. *)
Theorem executed_notified_once events w txs :
  truthy w = true →
  let s := run events in
  let recorded := notified_set w (notifiedExecutedTxs s) in
  let pending := JSMap.get w (prevPendingTxsRef (core s)) in
  let s1 := executedEffect w txs s in
  (∃ hs, notices s1 = notices s ++ (TransactionExecuted <$> hs) ∧
     NoDup (toLowerCase <$> hs) ∧
     (∀ x, x ∈ hs →
        (toLowerCase x ∉ recorded) ∧ was_pending pending (toLowerCase x) = true ∧
        ∃ tx, tx ∈ txs ∧ hash tx = x) ∧
     (∀ tx, tx ∈ txs → toLowerCase (hash tx) ∉ recorded →
        was_pending pending (toLowerCase (hash tx)) = true →
        toLowerCase (hash tx) ∈ toLowerCase <$> hs)) ∧
  (∀ tx, tx ∈ txs → toLowerCase (hash tx) ∈ notified_set w (notifiedExecutedTxs s1)) ∧
  (∀ txs',
     Forall (λ tx, toLowerCase (hash tx) ∈ notified_set w (notifiedExecutedTxs s1)) txs' →
     notices (executedEffect w txs' s1) = notices s1).
Proof.
intros Hw s recorded pending s1.
destruct (tracking_wf_run events) as (_ & Hx & _). fold s in Hx.
destruct (historyEffect_spec TransactionExecuted w txs (prevPendingTxsRef (core s))
            (notifiedExecutedTxs s) Hx) as (Hwf1 & hs & Hfired & Hnd & Hhs & Hall & Hset).
unfold s1. rewrite executedEffect_closed by done.
cbn [notices notifiedExecutedTxs]. rewrite Hfired. split_and!.
- by exists hs.
- intros tx Hin. apply Hset. right. apply list_elem_of_fmap. by exists tx.
- intros txs' Hrec. rewrite executedEffect_closed by done.
  cbn [core notifiedExecutedTxs notices].
  rewrite (historyEffect_recorded TransactionExecuted w txs'
             (prevPendingTxsRef (core s)) _ Hwf1 Hrec).
  apply app_nil_r.
Qed.

(** X20.  The cancelled-transactions effect follows the same rule with
    its own tracker: a transaction of the list is notified exactly when
    its hash was not recorded as cancelled for the wallet and is in the
    pending map last stored, once per hash; afterwards every hash of the
    list is recorded and a run on recorded hashes notifies nothing. *)
Theorem cancelled_notified_once events w txs :
  truthy w = true →
  let s := run events in
  let recorded := notified_set w (notifiedCancelledTxs s) in
  let pending := JSMap.get w (prevPendingTxsRef (core s)) in
  let s1 := cancelledEffect w txs s in
  (∃ hs, notices s1 = notices s ++ (TransactionCancelled <$> hs) ∧
     NoDup (toLowerCase <$> hs) ∧
     (∀ x, x ∈ hs →
        (toLowerCase x ∉ recorded) ∧ was_pending pending (toLowerCase x) = true ∧
        ∃ tx, tx ∈ txs ∧ hash tx = x) ∧
     (∀ tx, tx ∈ txs → toLowerCase (hash tx) ∉ recorded →
        was_pending pending (toLowerCase (hash tx)) = true →
        toLowerCase (hash tx) ∈ toLowerCase <$> hs)) ∧
  (∀ tx, tx ∈ txs → toLowerCase (hash tx) ∈ notified_set w (notifiedCancelledTxs s1)) ∧
  (∀ txs',
     Forall (λ tx, toLowerCase (hash tx) ∈ notified_set w (notifiedCancelledTxs s1)) txs' →
     notices (cancelledEffect w txs' s1) = notices s1).
Proof.
intros Hw s recorded pending s1.
destruct (tracking_wf_run events) as (_ & _ & Hc & _). fold s in Hc.
destruct (historyEffect_spec TransactionCancelled w txs (prevPendingTxsRef (core s))
            (notifiedCancelledTxs s) Hc) as (Hwf1 & hs & Hfired & Hnd & Hhs & Hall & Hset).
unfold s1. rewrite cancelledEffect_closed by done.
cbn [notices notifiedCancelledTxs]. rewrite Hfired. split_and!.
- by exists hs.
- intros tx Hin. apply Hset. right. apply list_elem_of_fmap. by exists tx.
- intros txs' Hrec. rewrite cancelledEffect_closed by done.
  cbn [core notifiedCancelledTxs notices].
  rewrite (historyEffect_recorded TransactionCancelled w txs'
             (prevPendingTxsRef (core s)) _ Hwf1 Hrec).
  apply app_nil_r.
Qed.

(** *** The proposer's own transaction *)

Lemma proposal_for_not_approval h n : approval_notice n → is_proposal_for h n = false.
Proof. by destruct n. Qed.

Lemma loop_recorded_proposal connected w prevTxsMap txs cur t h :
  wf (ready t) ∧ wf (proposed t) → h ∈ notified_set w (proposed t) →
  let t' := (foldl (observe connected w prevTxsMap) (cur, t) txs).2 in
  count_of (is_proposal_for h) (fired t') = count_of (is_proposal_for h) (fired t) ∧
  h ∈ notified_set w (proposed t').
Proof.
intros [Hr Hp] Hin. cbv zeta.
set (c0 := count_of (is_proposal_for h) (fired t)).
enough (wf (ready (foldl (observe connected w prevTxsMap) (cur, t) txs).2) ∧
        wf (proposed (foldl (observe connected w prevTxsMap) (cur, t) txs).2) ∧
        count_of (is_proposal_for h)
          (fired (foldl (observe connected w prevTxsMap) (cur, t) txs).2) = c0 ∧
        h ∈ notified_set w (proposed (foldl (observe connected w prevTxsMap) (cur, t) txs).2))
  as (_ & _ & ? & ?) by done.
apply (loop_invariant (λ t, wf (ready t) ∧ wf (proposed t) ∧
                            count_of (is_proposal_for h) (fired t) = c0 ∧
                            h ∈ notified_set w (proposed t))); [done|].
clear Hr Hp Hin. intros cur1 t1 tx _ (Hr & Hp & Hcount & Hin).
destruct (observe_spec connected w prevTxsMap cur1 t1 tx Hr Hp) as (Hr' & Hp' & Hcase).
split; [done|]. split; [done|].
destruct (JSMap.get _ prevTxsMap) as [prevTx|].
- destruct Hcase as (-> & extra & Hextra & Hfired). split; [|done].
  pose proof (count_approval_notices (is_proposal_for h) extra
                (proposal_for_not_approval h) Hextra) as Hzero.
  assert (count_of (is_proposal_for h) [TransactionReady (hash tx)] = 0) as Hready
    by reflexivity.
  destruct (_ && _); destruct Hfired as [-> _];
    rewrite !count_of_app, ?Hready, Hzero; lia.
- destruct Hcase as (_ & Hfired).
  destruct (bool_decide _ && negb (JSSet.has _ _)) eqn:Hcond.
  + destruct Hfired as [-> ->]. split; [|by apply add_mono].
    apply andb_true_iff in Hcond as [_ Hfresh%negb_true_iff].
    apply bool_decide_eq_false in Hfresh.
    rewrite count_of_app, Hcount. unfold count_of. cbn [is_proposal_for].
    rewrite filter_cons_False; [cbn; lia|].
    cbn [is_proposal_for]. intros Heq%bool_decide_eq_true. apply Hfresh. by rewrite Heq.
  + by destruct Hfired as [-> ->].
Qed.

(** X21.  When [proposeTransaction] succeeds with a non-empty hash, the
    hash is recorded as notified for the wallet, the success message is
    the only thing shown, and the next run of the pending effect for that
    wallet, in whatever letter case its address is written, adds no "new
    transaction proposed" notification for that hash, whatever the list
    holds. *)
Theorem own_proposal_is_not_announced events txHash w w' connected txs :
  truthy txHash = true → truthy w' = true → toLowerCase w' = toLowerCase w →
  let s := run events in
  let s1 := proposeSucceeded (Some txHash) w s in
  let s2 := handle s1 (Pending connected w' txs) in
  toLowerCase txHash ∈ notified_set w (notifiedProposedTxs (core s1)) ∧
  notices s1 = notices s ++ [ProposalSucceeded (Some txHash)] ∧
  notifications (core s1) = notifications (core s) ∧
  count_of (is_proposal_for (toLowerCase txHash)) (notifications (core s2)) =
  count_of (is_proposal_for (toLowerCase txHash)) (notifications (core s)).
Proof.
intros Hh Hw' Hlow s s1 s2.
destruct (tracking_wf_run events) as (([Hr Hp] & _) & _). fold s in Hr, Hp.
assert (core s1 = mark_proposed txHash w (core s)) as Hcore.
{ unfold s1, proposeSucceeded. by rewrite Hh. }
assert (wf (notifiedReadyTxs (core s1)) ∧ wf (notifiedProposedTxs (core s1)) ∧
        toLowerCase txHash ∈ notified_set w (notifiedProposedTxs (core s1)) ∧
        notifications (core s1) = notifications (core s)) as (Hr1 & Hp1 & Hin & Hnote).
{ rewrite Hcore. unfold mark_proposed.
  pose proof (wf_get (toLowerCase w) _ Hp) as Hp1.
  pose proof (get_value (toLowerCase w) (notifiedProposedTxs (core s))) as Hfound.
  destruct (LRUMap.get _ (notifiedProposedTxs (core s))) as [found tracker].
  cbn [fst snd] in *. cbn [notifiedReadyTxs notifiedProposedTxs notifications].
  split_and!; [done|by apply wf_set| |done].
  rewrite notified_set_after_set by done. apply elem_of_add. by left. }
split_and!; [done| |done|].
- unfold s1, proposeSucceeded. by rewrite Hh.
- rewrite <-Hnote. unfold s2. cbn [handle with_core core].
  rewrite pendingEffect_closed by done. cbv zeta. cbn [notifications].
  rewrite count_of_app.
  destruct (loop_recorded_proposal connected w'
              (default [] (JSMap.get w' (prevPendingTxsRef (core s1)))) txs []
              (Tracking (notifiedReadyTxs (core s1)) (notifiedProposedTxs (core s1))
                 (notifiedApprovals (core s1)) [])
              (toLowerCase txHash)) as [-> _]; [done| |cbn; lia].
  cbn [proposed]. unfold notified_set in *. by rewrite Hlow.
Qed.

(** *** Threshold *)

Lemma get_delete_Some {V} k k' (m : list (string * V)) v :
  wf m → JSMap.get k' (JSMap.delete k m) = Some v → JSMap.get k' m = Some v.
Proof.
intros Hwf. rewrite delete_filter by done. destruct (decide (k' = k)) as [->|Hne].
- by rewrite get_filter_other_same.
- by rewrite get_filter_other.
Qed.

Lemma thresholds_tracked_handle s e :
  trackers_wf s → thresholds_tracked s → thresholds_tracked (handle s e).
Proof.
intros Hwf [_ Hinv].
pose proof (trackers_wf_handle s e Hwf) as (_ & _ & _ & _ & Ht' & _).
split; [done|]. clear Ht'. destruct Hwf as (_ & _ & _ & _ & Ht & _).
destruct e as [w|w|w balance owners threshold|w statuses|connected w txs|w txs|w txs|h w];
  cbn [handle].
- unfold watch. by destruct (truthy w).
- unfold unwatch. destruct (truthy w); [|done]. case_decide; [|done].
  cbn [cleanupWalletState lastNotifiedThresholds prevWalletInfoRef with_subscriptions].
  intros k X Hget%get_delete_Some; [|done]. by apply Hinv.
- unfold walletInfoEffect. destruct (truthy w); [|done].
  destruct (JSMap.get w (prevWalletInfoRef s)) as [[prevOwners prevThreshold]|] eqn:Hprev.
  + destruct (ownersEffect _ _ _ _) as [ownersTracker fired1].
    unfold thresholdEffect.
    pose proof (wf_get w _ Ht) as Ht1.
    pose proof (get_value w (lastNotifiedThresholds s)) as Hlast.
    pose proof (λ k, lookup_after_get w k (lastNotifiedThresholds s) Ht) as Hsame.
    destruct (LRUMap.get w (lastNotifiedThresholds s)) as [last tracker1].
    cbn [fst snd] in *. subst last.
    destruct (negb (bool_decide (prevThreshold = threshold)) &&
              negb (bool_decide (JSMap.get w (lastNotifiedThresholds s) = Some threshold)))
      eqn:Hcond; cbn [lastNotifiedThresholds prevWalletInfoRef]; intros k X Hget.
    * destruct (decide (k = w)) as [->|Hne].
      -- rewrite get_after_set in Hget by (done || apply MAX_TRACKED_WALLETS_pos).
         injection Hget as <-. exists owners. apply get_set_eq.
      -- rewrite get_set_ne by done. apply Hinv.
         destruct (lookup_after_set_other MAX_TRACKED_WALLETS w k threshold tracker1 Ht1 Hne)
           as [Hnone|Heq]; [congruence|]. by rewrite <-Hsame, <-Heq.
    * rewrite Hsame in Hget. destruct (decide (k = w)) as [->|Hne].
      -- exists owners. rewrite get_set_eq. do 2 f_equal.
         destruct (Hinv w X Hget) as (owners' & Hprev'). rewrite Hprev in Hprev'.
         injection Hprev' as _ ->.
         apply andb_false_iff in Hcond as [Hc|Hc]; apply negb_false_iff in Hc;
           apply bool_decide_eq_true in Hc; congruence.
      -- rewrite get_set_ne by done. by apply Hinv.
  + cbn [lastNotifiedThresholds prevWalletInfoRef]. intros k X Hget.
    destruct (decide (k = w)) as [->|Hne].
    * destruct (Hinv w X Hget) as (owners' & Hprev'). congruence.
    * rewrite get_set_ne by done. by apply Hinv.
- unfold moduleStatusEffect. destruct (truthy w); [|done].
  by destruct (LRUMap.get w (lastNotifiedModuleStatus s)).
- done.
- unfold executedEffect. destruct (truthy w); [|done].
  by destruct (historyEffect _ _ _ _ _).
- unfold cancelledEffect. destruct (truthy w); [|done].
  by destruct (historyEffect _ _ _ _ _).
- unfold proposeSucceeded. destruct h as [h|]; [destruct (truthy h)|]; done.
Qed.

Lemma thresholds_tracked_run events : thresholds_tracked (run events).
Proof.
induction events as [|e events IH] using rev_ind.
{ split; [constructor|]. by intros w X. }
unfold run. rewrite foldl_snoc. apply thresholds_tracked_handle; [|done].
apply tracking_wf_run.
Qed.

Lemma owner_notices_not_threshold w prevOwners owners tracker :
  filter (λ n, is_threshold_change n = true) (ownersEffect w prevOwners owners tracker).2 = [].
Proof.
unfold ownersEffect. destruct (LRUMap.get w tracker) as [lastKey tracker1].
destruct (_ && _); cbn [snd]; [|done].
rewrite filter_app. apply app_nil. split.
- induction (filter _ (sort (toLowerCase <$> owners))) as [|x l IH]; [done|].
  by rewrite fmap_cons, filter_cons_False.
- induction (filter _ (sort (toLowerCase <$> prevOwners))) as [|x l IH]; [done|].
  by rewrite fmap_cons, filter_cons_False.
Qed.

(** X22.  An observation of the wallet info reports a threshold change
    when a previous observation of the wallet is stored with a different
    threshold and the new threshold is not the one last notified for the
    wallet, and then with the stored and the new value; a first
    observation reports nothing.  Where the threshold last notified is
    the threshold stored, as in every state one instance of the hook
    reaches from empty trackers, the last-notified check holds no change
    back. *)
Theorem threshold_change_rule s w balance owners threshold :
  truthy w = true →
  let s' := walletInfoEffect w balance owners threshold s in
  let threshold_changes (s : state) :=
    filter (λ n, is_threshold_change n = true) (notices s) in
  threshold_changes s' =
    threshold_changes s ++
    match JSMap.get w (prevWalletInfoRef s) with
    | Some (_, prevThreshold) =>
        if decide (prevThreshold = threshold) then []
        else if decide (JSMap.get w (lastNotifiedThresholds s) = Some threshold) then []
        else [ThresholdChanged prevThreshold threshold]
    | None => []
    end ∧
  (thresholds_tracked s →
   threshold_changes s' =
     threshold_changes s ++
     match JSMap.get w (prevWalletInfoRef s) with
     | Some (_, prevThreshold) =>
         if decide (prevThreshold = threshold) then []
         else [ThresholdChanged prevThreshold threshold]
     | None => []
     end) ∧
  (∀ events, s = run events → thresholds_tracked s).
Proof.
intros Hw s' threshold_changes.
assert (threshold_changes s' =
    threshold_changes s ++
    match JSMap.get w (prevWalletInfoRef s) with
    | Some (_, prevThreshold) =>
        if decide (prevThreshold = threshold) then []
        else if decide (JSMap.get w (lastNotifiedThresholds s) = Some threshold) then []
        else [ThresholdChanged prevThreshold threshold]
    | None => []
    end) as Hrule.
{ unfold threshold_changes, s', walletInfoEffect. rewrite Hw.
  destruct (JSMap.get w (prevWalletInfoRef s)) as [[prevOwners prevThreshold]|] eqn:Hprev.
  2:{ cbn [notices]. by rewrite !app_nil_r. }
  pose proof (owner_notices_not_threshold w prevOwners owners (lastNotifiedOwners s)) as Hown.
  destruct (ownersEffect _ _ _ _) as [ownersTracker fired1]. cbn [snd] in Hown.
  unfold thresholdEffect.
  pose proof (get_value w (lastNotifiedThresholds s)) as Hlast.
  destruct (LRUMap.get w (lastNotifiedThresholds s)) as [last tracker1].
  cbn [fst] in Hlast. subst last.
  destruct (decide (prevThreshold = threshold)) as [Heq|Hne].
  - rewrite (bool_decide_eq_true_2 _ Heq). cbn [negb andb notices].
    by rewrite !filter_app, Hown, !app_nil_r.
  - rewrite (bool_decide_eq_false_2 _ Hne). cbn [negb andb].
    destruct (decide (JSMap.get w (lastNotifiedThresholds s) = Some threshold))
      as [Hlast|Hlast].
    + rewrite (bool_decide_eq_true_2 _ Hlast). cbn [negb notices].
      by rewrite !filter_app, Hown, !app_nil_r.
    + rewrite (bool_decide_eq_false_2 _ Hlast). cbn [negb notices].
      by rewrite !filter_app, Hown. }
split; [done|]. split; [|intros events ->; apply thresholds_tracked_run].
intros [_ Hinv]. rewrite Hrule.
destruct (JSMap.get w (prevWalletInfoRef s)) as [[prevOwners prevThreshold]|] eqn:Hprev;
  [|done].
destruct (decide (prevThreshold = threshold)) as [Heq|Hne]; [done|].
destruct (decide (JSMap.get w (lastNotifiedThresholds s) = Some threshold))
  as [Hlast|Hlast]; [|done].
destruct (Hinv w threshold Hlast) as (owners' & Hprev'). congruence.
Qed.

(** *** Module statuses *)

Lemma status_change_same (statuses : list (string * bool)) :
  wf statuses → omap (status_change statuses) statuses = [].
Proof.
intros Hwf.
enough (∀ l, l ⊆ statuses → omap (status_change statuses) l = []) as H by by apply H.
induction l as [|[m b] l IH]; [done|]. intros Hsub. cbn [omap list_omap status_change].
assert (JSMap.get m statuses = Some b) as ->.
{ apply get_Some_iff; [done|]. apply Hsub, list_elem_of_here. }
rewrite bool_decide_eq_true_2 by done. apply IH.
intros x Hx. by apply Hsub, list_elem_of_further.
Qed.

(** X23.  Of two consecutive runs of the module-status effect for a wallet
    the second notifies exactly the modules it lists whose status in the
    first run's list was the opposite one, in the order of its list: a
    module the first list did not have is not notified, and the same
    statuses again notify nothing.  A run that finds no statuses stored
    for the wallet notifies nothing. *)
Theorem module_status_changes_notified events w prev cur :
  truthy w = true →
  let s := run events in
  let s1 := moduleStatusEffect w prev s in
  let s2 := moduleStatusEffect w cur s1 in
  notices s2 = notices s1 ++ omap (status_change prev) cur ∧
  (JSMap.get w (lastNotifiedModuleStatus s) = None → notices s1 = notices s) ∧
  (wf prev → notices (moduleStatusEffect w prev s1) = notices s1).
Proof.
intros Hw s s1 s2.
destruct (tracking_wf_run events) as (_ & _ & _ & _ & _ & Hm & _). fold s in Hm.
assert (∀ statuses s0, wf (lastNotifiedModuleStatus s0) →
          notices (moduleStatusEffect w statuses s0) =
          notices s0 ++ omap (status_change
                                (default [] (JSMap.get w (lastNotifiedModuleStatus s0))))
                          statuses ∧
          wf (lastNotifiedModuleStatus (moduleStatusEffect w statuses s0)) ∧
          JSMap.get w (lastNotifiedModuleStatus (moduleStatusEffect w statuses s0)) =
          Some statuses) as Hstep.
{ intros statuses s0 Hwf. unfold moduleStatusEffect. rewrite Hw.
  pose proof (wf_get w _ Hwf) as Hwf1.
  pose proof (get_value w (lastNotifiedModuleStatus s0)) as Hfound.
  destruct (LRUMap.get w (lastNotifiedModuleStatus s0)) as [found tracker].
  cbn [fst snd] in *. subst found. cbn [notices lastNotifiedModuleStatus].
  split_and!; [done|by apply wf_set|].
  apply get_after_set; [done|apply MAX_TRACKED_WALLETS_pos]. }
destruct (Hstep prev s Hm) as (Hn1 & Hm1 & Hget1). fold s1 in Hn1, Hm1, Hget1.
split_and!.
- unfold s2. destruct (Hstep cur s1 Hm1) as (-> & _). by rewrite Hget1.
- intros Hnone. rewrite Hn1, Hnone. cbn [default from_option id].
  assert (∀ l : list (string * bool), omap (status_change []) l = []) as ->.
  { induction l as [|[m b] l IH]; [done|]. done. }
  apply app_nil_r.
- intros Hprev. destruct (Hstep prev s1 Hm1) as (-> & _). rewrite Hget1.
  cbn [default from_option id]. rewrite status_change_same by done. apply app_nil_r.
Qed.

(** *** Owners *)



(** *** Watching instances *)

Lemma counts_positive_run events : counts_positive (run events).
Proof.
induction events as [|e events IH] using rev_ind; [by intros k n|].
unfold run. rewrite foldl_snoc. fold (run events). set (s := run events) in *.
destruct e as [w|w|w balance owners threshold|w statuses|connected w txs|w txs|w txs|h w];
  cbn [handle].
- unfold watch. destruct (truthy w); [|done]. intros k n. cbn.
  destruct (decide (k = toLowerCase w)) as [->|Hne].
  + rewrite get_set_eq. intros [= <-]. lia.
  + rewrite get_set_ne by done. apply IH.
- unfold unwatch. destruct (truthy w); [|done].
  destruct (tracking_wf_run events) as (_ & _ & _ & _ & _ & _ & Hs). fold s in Hs.
  case_decide; intros k n; cbn.
  + intros Hget%get_delete_Some; [|done]. by eapply IH.
  + destruct (decide (k = toLowerCase w)) as [->|Hne].
    * rewrite get_set_eq. intros [= <-]. lia.
    * rewrite get_set_ne by done. apply IH.
- unfold walletInfoEffect. destruct (truthy w); [|done].
  destruct (JSMap.get w (prevWalletInfoRef s)) as [[prevOwners prevThreshold]|].
  + destruct (ownersEffect _ _ _ _) as [ownersTracker fired1].
    by destruct (thresholdEffect _ _ _ _) as [thresholdTracker fired2].
  + done.
- unfold moduleStatusEffect. destruct (truthy w); [|done].
  by destruct (LRUMap.get w (lastNotifiedModuleStatus s)).
- done.
- unfold executedEffect. destruct (truthy w); [|done].
  by destruct (historyEffect _ _ _ _ _).
- unfold cancelledEffect. destruct (truthy w); [|done].
  by destruct (historyEffect _ _ _ _ _).
- unfold proposeSucceeded. destruct h as [h|]; [destruct (truthy h)|]; done.
Qed.

Lemma set_again {V} k (v v' : V) (m : list (string * V)) :
  JSMap.get k m = Some v → JSMap.set k v (JSMap.set k v' m) = m.
Proof.
induction m as [|[k0 v0] m IH]; cbn; [done|].
destruct (decide (k0 = k)) as [->|Hne]; cbn.
- intros [= ->]. by rewrite decide_True.
- intros Hget. rewrite decide_False by done. by rewrite IH.
Qed.

Lemma cleanupWalletState_lower w s :
  cleanupWalletState (toLowerCase w) s = cleanupWalletState w s.
Proof. unfold cleanupWalletState. by rewrite toLowerCase_idemp. Qed.

(** X25.  A hook instance that starts watching a wallet adds one to the
    wallet's count, under the lower-case address.  When it stops again
    and other instances were watching, the state is exactly as before;
    when it was the only one, the wallet's count is removed and
    [cleanupWalletState] runs for the wallet. *)
Theorem watch_then_unwatch events w :
  truthy w = true →
  let s := run events in
  let n := default 0 (JSMap.get (toLowerCase w) (activeWalletSubscriptions s)) in
  JSMap.get (toLowerCase w) (activeWalletSubscriptions (watch w s)) = Some (n + 1) ∧
  (0 < n → unwatch w (watch w s) = s) ∧
  (n = 0 → unwatch w (watch w s) = cleanupWalletState w s).
Proof.
intros Hw s n. pose proof (counts_positive_run events) as Hpos. fold s in Hpos.
unfold watch, unwatch. rewrite Hw. cbn [activeWalletSubscriptions with_subscriptions].
rewrite get_set_eq. cbn [default from_option id]. fold n. split_and!; [done| |].
- intros Hn. rewrite decide_False by lia.
  destruct (JSMap.get (toLowerCase w) (activeWalletSubscriptions s)) as [m|] eqn:Hget;
    [|by cbn in n; lia].
  cbn in n. subst n. replace (m + 1 - 1) with m by lia.
  cbn [core notifiedExecutedTxs notifiedCancelledTxs lastNotifiedOwners
       lastNotifiedThresholds lastNotifiedModuleStatus prevWalletInfoRef notices].
  rewrite set_again by done. by destruct s.
- intros Hn. rewrite decide_True by lia.
  destruct (JSMap.get (toLowerCase w) (activeWalletSubscriptions s)) as [m|] eqn:Hget.
  { apply Hpos in Hget. cbn in n. lia. }
  apply get_None in Hget. rewrite set_absent by done.
  rewrite cleanupWalletState_lower. unfold cleanupWalletState.
  cbn [core notifiedExecutedTxs notifiedCancelledTxs lastNotifiedOwners
       lastNotifiedThresholds lastNotifiedModuleStatus prevWalletInfoRef notices
       activeWalletSubscriptions].
  by rewrite SubscriptionManagerLifecycle.delete_snoc_absent.
Qed.

Lemma forgotten_delete {V} k (m : list (string * V)) :
  wf m → forgotten k m (LRUMap.delete k m).
Proof.
intros Hwf. unfold forgotten, LRUMap.delete. rewrite delete_filter by done. split.
- apply get_filter_other_same.
- intros k' Hne. by apply get_filter_other.
Qed.






(** X26.  [cleanupWalletState] removes, from each of the nine trackers,
    the entry stored under the wallet's lower-case address and no other
    entry; the instance's own references, the watch counts and the
    notifications shown are not touched.  The sets of ready, proposed,
    executed and cancelled hashes of the wallet are therefore empty
    afterwards, while an entry the balance, owners, threshold or module
    effect stored under an address with upper-case letters is still
    there. *)
Theorem cleanup_forgets_the_wallet events w :
  let s := run events in
  let s' := cleanupWalletState w s in
  let a := toLowerCase w in
  forgotten a (lastNotifiedBalances (core s)) (lastNotifiedBalances (core s')) ∧
  forgotten a (notifiedReadyTxs (core s)) (notifiedReadyTxs (core s')) ∧
  forgotten a (notifiedProposedTxs (core s)) (notifiedProposedTxs (core s')) ∧
  forgotten a (notifiedApprovals (core s)) (notifiedApprovals (core s')) ∧
  forgotten a (notifiedExecutedTxs s) (notifiedExecutedTxs s') ∧
  forgotten a (notifiedCancelledTxs s) (notifiedCancelledTxs s') ∧
  forgotten a (lastNotifiedOwners s) (lastNotifiedOwners s') ∧
  forgotten a (lastNotifiedThresholds s) (lastNotifiedThresholds s') ∧
  forgotten a (lastNotifiedModuleStatus s) (lastNotifiedModuleStatus s') ∧
  (notified_set w (notifiedReadyTxs (core s')) = [] ∧
   notified_set w (notifiedProposedTxs (core s')) = [] ∧
   notified_set w (notifiedExecutedTxs s') = [] ∧
   notified_set w (notifiedCancelledTxs s') = []) ∧
  (a ≠ w →
   JSMap.get w (lastNotifiedBalances (core s')) = JSMap.get w (lastNotifiedBalances (core s)) ∧
   JSMap.get w (lastNotifiedOwners s') = JSMap.get w (lastNotifiedOwners s) ∧
   JSMap.get w (lastNotifiedThresholds s') = JSMap.get w (lastNotifiedThresholds s) ∧
   JSMap.get w (lastNotifiedModuleStatus s') = JSMap.get w (lastNotifiedModuleStatus s)) ∧
  prevBalancesRef (core s') = prevBalancesRef (core s) ∧
  prevPendingTxsRef (core s') = prevPendingTxsRef (core s) ∧
  prevWalletInfoRef s' = prevWalletInfoRef s ∧
  activeWalletSubscriptions s' = activeWalletSubscriptions s ∧
  notifications (core s') = notifications (core s) ∧ notices s' = notices s.
Proof.
intros s s' a.
destruct (tracking_wf_run events) as (([Hr Hp] & Hb & Ha) & Hx & Hc & Ho & Ht & Hm & _).
fold s in Hr, Hp, Hb, Ha, Hx, Hc, Ho, Ht, Hm.
unfold s', cleanupWalletState. fold a.
cbn [core lastNotifiedBalances notifiedReadyTxs notifiedProposedTxs notifiedApprovals
     notifiedExecutedTxs notifiedCancelledTxs lastNotifiedOwners lastNotifiedThresholds
     lastNotifiedModuleStatus prevBalancesRef prevPendingTxsRef prevWalletInfoRef
     activeWalletSubscriptions notifications notices].
pose proof (forgotten_delete a _ Hb) as Fb. pose proof (forgotten_delete a _ Hr) as Fr.
pose proof (forgotten_delete a _ Hp) as Fp. pose proof (forgotten_delete a _ Ha) as Fa.
pose proof (forgotten_delete a _ Hx) as Fx. pose proof (forgotten_delete a _ Hc) as Fc.
pose proof (forgotten_delete a _ Ho) as Fo. pose proof (forgotten_delete a _ Ht) as Ft.
pose proof (forgotten_delete a _ Hm) as Fm.
split_and!; try done.
- unfold notified_set. fold a. by rewrite (proj1 Fr).
- unfold notified_set. fold a. by rewrite (proj1 Fp).
- unfold notified_set. fold a. by rewrite (proj1 Fx).
- unfold notified_set. fold a. by rewrite (proj1 Fc).
- intros Hne. split_and!.
  + apply Fb. by intros <-.
  + apply Fo. by intros <-.
  + apply Ft. by intros <-.
  + apply Fm. by intros <-.
Qed.


Lemma executed_notified_once_witness :
  let tx := PendingTx "0xAA"%string "0xT"%string "0"%string "0x"%string
              2 2 false false 0%Q "0xP"%string [] false in
  let events := [Pending None "0xW"%string [tx]] in
  ∃ hs, notices (executedEffect "0xW"%string [tx; tx] (run events)) =
        notices (run events) ++ (TransactionExecuted <$> hs) ∧
        NoDup (toLowerCase <$> hs).
Proof.
intros tx events.
destruct (executed_notified_once events "0xW"%string [tx; tx])
  as ((hs & Hn & Hnd & _) & _); [reflexivity|].
exists hs. split; [exact Hn|exact Hnd].
Defined.

Lemma cancelled_notified_once_witness :
  let tx := PendingTx "0xAA"%string "0xT"%string "0"%string "0x"%string
              2 2 false false 0%Q "0xP"%string [] false in
  let events := [Pending None "0xW"%string [tx]] in
  ∃ hs, notices (cancelledEffect "0xW"%string [tx; tx] (run events)) =
        notices (run events) ++ (TransactionCancelled <$> hs) ∧
        NoDup (toLowerCase <$> hs).
Proof.
intros tx events.
destruct (cancelled_notified_once events "0xW"%string [tx; tx])
  as ((hs & Hn & Hnd & _) & _); [reflexivity|].
exists hs. split; [exact Hn|exact Hnd].
Defined.

Lemma own_proposal_is_not_announced_witness :
  let tx h := PendingTx h "0xT"%string "0"%string "0x"%string
                1 2 false false 0%Q "0xP"%string [] false in
  let events := [Pending None "0xW"%string [tx "0xAA"%string]] in
  let s1 := proposeSucceeded (Some "0xBB"%string) "0xw"%string (run events) in
  let s2 := handle s1 (Pending None "0xW"%string [tx "0xAA"%string; tx "0xBB"%string]) in
  count_of (is_proposal_for "0xbb"%string) (notifications (core s2)) =
  count_of (is_proposal_for "0xbb"%string) (notifications (core (run events))).
Proof.
intros tx events s1 s2.
apply (own_proposal_is_not_announced events "0xBB"%string "0xw"%string "0xW"%string None
         [tx "0xAA"%string; tx "0xBB"%string]); reflexivity.
Defined.

Lemma threshold_change_rule_witness :
  let w := "0x5aAeb6053F3E94C9b9A09f33669435E7Ef1BeAed"%string in
  let owner := "0xfB6916095ca1df60bB79Ce92cE3Ea74c37c5d359"%string in
  let events := [WalletInfo w 5 [owner] 1; WalletInfo w 5 [owner] 2;
                 WalletInfo w 5 [owner] 1] in
  filter (λ n, is_threshold_change n = true)
    (notices (walletInfoEffect w 5 [owner] 2 (run events))) =
  [ThresholdChanged 1 2; ThresholdChanged 2 1; ThresholdChanged 1 2].
Proof.
intros w owner events.
destruct (threshold_change_rule (run events) w 5 [owner] 2 eq_refl)
  as (_ & Htracked & Hrun).
etransitivity; [apply Htracked, (Hrun events eq_refl)|reflexivity].
Defined.

(** A second instance of the hook, mounted after the first one left: the
    first instance had the change of the threshold from 3 to 2 notified,
    and the wallet's address, which has upper-case letters, kept the
    threshold last notified through the clean-up.  The new instance first
    sees the threshold at 3; the change to 2 it sees next is held back. *)
Example stale_threshold_holds_a_change_back :
  let w := "0x5aAeb6053F3E94C9b9A09f33669435E7Ef1BeAed"%string in
  let owner := "0xfB6916095ca1df60bB79Ce92cE3Ea74c37c5d359"%string in
  let s := run [Watched w; WalletInfo w 5 [owner] 3; WalletInfo w 5 [owner] 2;
                Unwatched w] in
  let s' := foldl handle (remount s) [Watched w; WalletInfo w 5 [owner] 3] in
  JSMap.get w (lastNotifiedThresholds s') = Some 2%Z ∧
  JSMap.get w (prevWalletInfoRef s') = Some ([owner], 3%Z) ∧
  notices (handle s' (WalletInfo w 5 [owner] 2)) = notices s'.
Proof. vm_compute. by repeat split. Qed.

(** Claim C6 as the spec words it, at the input where the code departs
    from it.  The first instance of the hook had the balance 10 notified
    and left; the wallet's address has upper-case letters, so the balance
    last notified outlived the clean-up, which deletes the lower-case
    key.  A new instance first sees the balance at 30, then at 20: the
    last notified balance is 10 and the new balance is above it, yet
    nothing is notified, the balance having gone down. *)
Lemma stale_balance_is_no_increase :
  let w := "0x5aAeb6053F3E94C9b9A09f33669435E7Ef1BeAed"%string in
  let s := run [Watched w; WalletInfo w 5 [] 1; WalletInfo w 10 [] 1; Unwatched w] in
  let s' := foldl handle (remount s) [Watched w; WalletInfo w 30 [] 1] in
  JSMap.get w (lastNotifiedBalances (core s')) = Some 10%Z ∧
  JSMap.get w (prevBalancesRef (core s')) = Some 30%Z ∧
  (10 < 20)%Z ∧
  notifications (balanceEffect w 20 (core s')) = notifications (core s') ∧
  notifications (core (handle s' (WalletInfo w 20 [] 1))) = notifications (core s').
Proof. vm_compute. by repeat split. Qed.

Lemma module_status_changes_notified_witness :
  let prev := [("0xM1"%string, true); ("0xM2"%string, false)] in
  let cur := [("0xM1"%string, false); ("0xM2"%string, false); ("0xM3"%string, true)] in
  let s1 := moduleStatusEffect "0xW"%string prev (run []) in
  notices (moduleStatusEffect "0xW"%string cur s1) =
  notices s1 ++ [ModuleDisabled "0xM1"%string].
Proof.
intros prev cur s1.
apply (proj1 (module_status_changes_notified [] "0xW"%string prev cur eq_refl)).
Defined.


Lemma watch_then_unwatch_witness :
  let s := run [Watched "0xW"%string; WalletInfo "0xW"%string 5 [] 1] in
  unwatch "0xw"%string (watch "0xw"%string s) = s.
Proof.
intros s.
apply (proj1 (proj2 (watch_then_unwatch [Watched "0xW"%string; WalletInfo "0xW"%string 5 [] 1]
                       "0xw"%string eq_refl))).
vm_compute. lia.
Defined.

End WalletTrackingFacts.
